(** * The layer manager of deck.gl: reconciliation of layer forests

    A shallow embedding of [src/lib/layer-manager.js].

    JavaScript objects are heap cells: a layer is a reference into a heap of
    layer records, the [state] of a layer is a reference into a heap of state
    objects, so that "the same object" is equality of references.  The
    methods of [LayerManager] are computations in a state-and-exception
    monad over the whole world (both heaps, the manager's own fields, and the
    record of the lifecycle methods called so far).

    What a layer does when one of its lifecycle methods is called is code of
    the [Layer] class, which is outside this file; it is a parameter of each
    layer here ([methods]): a callback returns or raises, [initializeLayer]
    may first give its layer a new state object, and no callback touches
    another layer or the manager.  The [Viewport] class is outside this
    file as well: what an instance stores of the arguments it was built
    with is a parameter of the development.  The map of old layers is a
    plain object, with the properties that every plain object inherits.
    The [log] calls have no effect on the manager and are left out. *)

From Stdlib Require Import ZArith String List Bool Lia.
From stdpp Require Import base strings gmap list.

Open Scope string_scope.
Open Scope list_scope.

(** ** JavaScript values that can be thrown *)

Inductive value : Type :=
| Null
| Str (s : string)
| ErrorObj (message : string).

(** [Boolean(v)], the truthiness test behind [if (v)] and [v || w]. *)
Definition Boolean (v : value) : bool :=
  match v with
  | Null => false
  | Str s => negb (String.eqb s "")
  | ErrorObj _ => true
  end.

(** [a || b] where both operands are already values. *)
Definition js_or (a b : value) : value := if Boolean a then a else b.

(** JavaScript numbers as far as [!==] can tell them apart. *)
Inductive num : Type :=
| Num (z : Z)
| NaN.

(** [a !== b] *)
Definition strict_neq (a b : num) : bool :=
  match a, b with
  | Num x, Num y => negb (Z.eqb x y)
  | _, _ => true
  end.

(** ** Objects *)

Definition ref := nat.   (* identity of a layer object *)
Definition sref := nat.  (* identity of a state object *)

Record Props : Type := { visible : bool; data : Z }.

Inductive outcome : Type :=
| Returns
| Raises (err : value).

(** The lifecycle methods a layer implements.  [initializeLayer] may give
    the layer a newly created state object (with or without a [model]) before
    it returns or raises. *)
Record Methods : Type := {
  initializeLayer_creates : option bool;
  initializeLayer : outcome;
  updateLayer : outcome;
  finalizeLayer : outcome
}.

Record layer : Type := {
  id : string;
  props : Props;
  oldProps : option Props;
  state : option sref;
  needsRedrawFlag : bool;
  methods : Methods
}.

Record model : Type := { userData_layer : option ref }.

Record stateObj : Type := {
  state_layer : option ref;
  state_model : option model
}.

(** The new layers handed to the manager: each one is an object together
    with what its [renderLayers] gives when it is called in this pass. *)
Inductive newLayer : Type :=
| NewLayer (obj : ref) (render : rendered)
with rendered : Type :=
| RenderRaises (err : value)
| RenderNull
| RenderOne (sublayer : newLayer)
| RenderArray (sublayers : layerArray)
with layerArray : Type :=
| ANil
| AHole (rest : layerArray)                 (* a null entry *)
| ALayer (l : newLayer) (rest : layerArray).

Scheme newLayer_mind := Induction for newLayer Sort Prop
  with rendered_mind := Induction for rendered Sort Prop
  with layerArray_mind := Induction for layerArray Sort Prop.
Combined Scheme forest_mutind from newLayer_mind, rendered_mind, layerArray_mind.

(** ** The viewport context *)

Record cameraParams : Type := {
  width : num; height : num; latitude : num; longitude : num;
  zoom : num; pitch : num; bearing : num; altitude : num
}.

(** [Viewport] is an external class.  An instance is known here by the
    arguments it was constructed with; what it answers when its fields are
    read back is up to the class (see [stored] below), and the uniform
    bundle computed from it ([center] and [getUniforms()]) is kept
    symbolic. *)
Record Viewport : Type := { params : cameraParams; tileSize : Z }.

Inductive Uniforms : Type :=
| NoUniforms
| UniformsOf (mercatorScale_zoom : num) (v : Viewport).

Record Context : Type := {
  gl : nat;
  viewport : option Viewport;
  viewportChanged : bool;
  uniforms : Uniforms
}.

Record LayerManager : Type := {
  prevLayers : list ref;
  layers : list ref;
  drewLayers : bool;
  oldContext : option Context;   (* None is the empty object *)
  context : Context
}.

(** ** A plain object used as a map

    [oldLayerMap] is created by [{}] and indexed by layer ids.  Its own
    properties hold an old layer or [null].  A key it does not own is looked
    up in its prototype, which is [Object.prototype] until an assignment to
    the key [__proto__] replaces it: such an assignment runs the setter that
    [Object.prototype] provides instead of creating a property. *)

(** The names [Object.prototype] gives to every plain object.  Each of them
    reads as a function, [__proto__] as [Object.prototype] itself: truthy
    values that are no layers. *)
Definition Object_prototype : list string :=
  ["constructor"; "__defineGetter__"; "__defineSetter__"; "hasOwnProperty";
   "__lookupGetter__"; "__lookupSetter__"; "isPrototypeOf";
   "propertyIsEnumerable"; "toString"; "valueOf"; "__proto__";
   "toLocaleString"].

Definition inherited (k : string) : bool :=
  bool_decide (k ∈ Object_prototype).

Record object : Type := {
  own : gmap string (option ref);   (* [None] is null *)
  inherits : bool                   (* is the prototype Object.prototype? *)
}.

(** [{}] *)
Definition empty_object : object := {| own := ∅; inherits := true |}.

(** What [o[k]] evaluates to. *)
Inductive property : Type :=
| Undefined
| NullValue
| LayerValue (r : ref)
| Inherited.

Definition get (o : object) (k : string) : property :=
  match own o !! k with
  | Some (Some r) => LayerValue r
  | Some None => NullValue
  | None => if inherits o && inherited k then Inherited else Undefined
  end.

Definition truthy (p : property) : bool :=
  match p with
  | LayerValue _ | Inherited => true
  | Undefined | NullValue => false
  end.

(** [o[k] = null] *)
Definition assign_null (o : object) (k : string) : object :=
  match own o !! k with
  | Some _ => {| own := <[k := None]> (own o); inherits := inherits o |}
  | None =>
      if inherits o && String.eqb k "__proto__"
      then {| own := own o; inherits := false |}
      else {| own := <[k := None]> (own o); inherits := inherits o |}
  end.

(** [o[k] = layer], where [o[k]] has just been found falsy: the key is then
    an own property or is not inherited (while [__proto__] is inherited it
    reads as truthy), so that the assignment writes an own property. *)
Definition assign_layer (o : object) (k : string) (r : ref) : object :=
  {| own := <[k := Some r]> (own o); inherits := inherits o |}.

(** ** The world and the monad *)

Inductive event : Type :=
| InitializeLayer (l : ref)
| UpdateLayer (l : ref)
| FinalizeLayer (l : ref)
| RenderLayers (l : ref)
| GetNeedsRedraw (l : ref).

Record world : Type := {
  heap : ref -> layer;
  states : sref -> stateObj;
  nextState : sref;
  calls : list event;            (* oldest first *)
  this : LayerManager;
  (* the two objects created by _matchLayers and shared by the recursion *)
  oldLayerMap : object;
  generatedLayers : list ref
}.

Inductive result (A : Type) : Type :=
| Ok (a : A)
| Throw (err : value).
Arguments Ok {A} a.
Arguments Throw {A} err.

Definition M (A : Type) : Type := world -> result A * world.

Definition ret {A} (a : A) : M A := fun w => (Ok a, w).

Definition bind {A B} (m : M A) (k : A -> M B) : M B :=
  fun w =>
    match m w with
    | (Ok a, w') => k a w'
    | (Throw e, w') => (Throw e, w')
    end.

Definition throw {A} (e : value) : M A := fun w => (Throw e, w).

Definition try_catch {A} (body : M A) (handler : value -> M A) : M A :=
  fun w =>
    match body w with
    | (Ok a, w') => (Ok a, w')
    | (Throw e, w') => handler e w'
    end.

Definition gets {A} (f : world -> A) : M A := fun w => (Ok (f w), w).
Definition modify (f : world -> world) : M unit := fun w => (Ok tt, f w).

Declare Scope js_scope.
Delimit Scope js_scope with js.
Notation "x <- m ;; k" := (bind m (fun x => k))
  (at level 100, m at next level, right associativity) : js_scope.
Notation "m ;;; k" := (bind m (fun _ => k))
  (at level 100, right associativity) : js_scope.
Open Scope js_scope.

(** [assert(cond, message)] *)
Definition assert (cond : bool) (message : string) : M unit :=
  if cond then ret tt else throw (ErrorObj message).

(** [for (const x of xs) { acc = body(x, acc) }] *)
Fixpoint for_of {A S : Type} (xs : list A) (body : A -> S -> M S) (acc : S) : M S :=
  match xs with
  | [] => ret acc
  | x :: rest => acc' <- body x acc ;; for_of rest body acc'
  end.

(** *** Field updates *)

Definition upd {A} (h : nat -> A) (r : nat) (a : A) : nat -> A :=
  fun r' => if Nat.eqb r' r then a else h r'.

Definition layer_set_state (s : option sref) (l : layer) : layer :=
  {| id := id l; props := props l; oldProps := oldProps l; state := s;
     needsRedrawFlag := needsRedrawFlag l; methods := methods l |}.

Definition layer_set_oldProps (p : option Props) (l : layer) : layer :=
  {| id := id l; props := props l; oldProps := p; state := state l;
     needsRedrawFlag := needsRedrawFlag l; methods := methods l |}.

Definition layer_set_flag (b : bool) (l : layer) : layer :=
  {| id := id l; props := props l; oldProps := oldProps l; state := state l;
     needsRedrawFlag := b; methods := methods l |}.

Definition with_heap (h : ref -> layer) (w : world) : world :=
  {| heap := h; states := states w; nextState := nextState w; calls := calls w;
     this := this w; oldLayerMap := oldLayerMap w;
     generatedLayers := generatedLayers w |}.

Definition with_states (st : sref -> stateObj) (n : sref) (w : world) : world :=
  {| heap := heap w; states := st; nextState := n; calls := calls w;
     this := this w; oldLayerMap := oldLayerMap w;
     generatedLayers := generatedLayers w |}.

Definition with_calls (c : list event) (w : world) : world :=
  {| heap := heap w; states := states w; nextState := nextState w; calls := c;
     this := this w; oldLayerMap := oldLayerMap w;
     generatedLayers := generatedLayers w |}.

Definition with_this (m : LayerManager) (w : world) : world :=
  {| heap := heap w; states := states w; nextState := nextState w;
     calls := calls w; this := m; oldLayerMap := oldLayerMap w;
     generatedLayers := generatedLayers w |}.

Definition with_oldLayerMap (m : object) (w : world) : world :=
  {| heap := heap w; states := states w; nextState := nextState w;
     calls := calls w; this := this w; oldLayerMap := m;
     generatedLayers := generatedLayers w |}.

Definition with_generatedLayers (g : list ref) (w : world) : world :=
  {| heap := heap w; states := states w; nextState := nextState w;
     calls := calls w; this := this w; oldLayerMap := oldLayerMap w;
     generatedLayers := g |}.

Definition getLayer (r : ref) : M layer := gets (fun w => heap w r).

Definition setLayer (r : ref) (f : layer -> layer) : M unit :=
  modify (fun w => with_heap (upd (heap w) r (f (heap w r))) w).

Definition getState (s : sref) : M stateObj := gets (fun w => states w s).

Definition setStateObj (s : sref) (f : stateObj -> stateObj) : M unit :=
  modify (fun w => with_states (upd (states w) s (f (states w s))) (nextState w) w).

Definition emit (e : event) : M unit :=
  modify (fun w => with_calls (calls w ++ [e]) w).

Definition complete (o : outcome) : M unit :=
  match o with
  | Returns => ret tt
  | Raises e => throw e
  end.

(** *** Calling a layer's lifecycle methods

    A call is recorded, then does what the layer's [methods] say.  The
    arguments the manager passes ([oldProps], [props], the two contexts and
    the [changeFlags] it asks the layer's [diffProps] for) are evaluated
    inside the same [try] block and count as part of the call. *)

Definition newStateObj (hasModel : bool) : stateObj :=
  {| state_layer := None;
     state_model := if hasModel then Some {| userData_layer := None |} else None |}.

Definition call_initializeLayer (r : ref) : M unit :=
  emit (InitializeLayer r) ;;;
  l <- getLayer r ;;
  match initializeLayer_creates (methods l) with
  | Some hasModel =>
      s <- gets nextState ;;
      modify (fun w => with_states (upd (states w) s (newStateObj hasModel)) (S s) w) ;;;
      setLayer r (layer_set_state (Some s))
  | None => ret tt
  end ;;;
  complete (initializeLayer (methods l)).

Definition call_updateLayer (r : ref) : M unit :=
  emit (UpdateLayer r) ;;;
  l <- getLayer r ;;
  complete (updateLayer (methods l)).

Definition call_finalizeLayer (r : ref) : M unit :=
  emit (FinalizeLayer r) ;;;
  l <- getLayer r ;;
  complete (finalizeLayer (methods l)).

(** Modelled from the spec: [layer.getNeedsRedraw({clearRedrawFlags})] is a
    method of the [Layer] class; the layer reports its own flag, and
    consulting the flag resets it when [clearRedrawFlags] is set. *)
Definition call_getNeedsRedraw (r : ref) (clearRedrawFlags : bool) : M bool :=
  emit (GetNeedsRedraw r) ;;;
  l <- getLayer r ;;
  (if clearRedrawFlags then setLayer r (layer_set_flag false) else ret tt) ;;;
  ret (needsRedrawFlag l).

(** ** The methods of [LayerManager] *)

Definition is_Some_b {A} (o : option A) : bool :=
  match o with Some _ => true | None => false end.

Definition set_this (f : LayerManager -> LayerManager) : M unit :=
  modify (fun w => with_this (f (this w)) w).

Definition LayerManager_constructor (gl : nat) : LayerManager :=
  {| prevLayers := [];
     layers := [];
     drewLayers := false;
     oldContext := None;
     context := {| gl := gl; viewport := None; viewportChanged := true;
                   uniforms := NoUniforms |} |}.

(** A [Viewport] class whose instances give back the arguments of their
    construction unchanged, and one that stores a width or height of 0 as 1;
    they are used to run examples. *)
Definition stores_arguments (args : cameraParams) : cameraParams := args.

Definition or_one (n : num) : num :=
  match n with Num 0 => Num 1 | _ => n end.

Definition stores_positive_size (args : cameraParams) : cameraParams :=
  {| width := or_one (width args); height := or_one (height args);
     latitude := latitude args; longitude := longitude args;
     zoom := zoom args; pitch := pitch args; bearing := bearing args;
     altitude := altitude args |}.

Section Manager.

(** The [Viewport] class is not part of this file and is a parameter of
    all that follows: [stored args] are the values that an instance
    constructed with [args] gives for [width], [height], [latitude],
    [longitude], [zoom], [bearing], [pitch] and [altitude] when [setContext]
    reads them back.  Nothing is assumed about them. *)
Variable stored : cameraParams -> cameraParams.

Definition cameraChanged (p : cameraParams) (oldViewport : Viewport) : bool :=
  let fields := stored (params oldViewport) in
  strict_neq (width p) (width fields) ||
  strict_neq (height p) (height fields) ||
  strict_neq (latitude p) (latitude fields) ||
  strict_neq (longitude p) (longitude fields) ||
  strict_neq (zoom p) (zoom fields) ||
  strict_neq (bearing p) (bearing fields) ||
  strict_neq (pitch p) (pitch fields) ||
  strict_neq (altitude p) (altitude fields).

Definition setContext (p : cameraParams) : M unit :=
  m <- gets this ;;
  let oldViewport := viewport (context m) in
  let viewportChanged :=
    match oldViewport with
    | None => true
    | Some v => cameraChanged p v
    end in
  if viewportChanged || negb (is_Some_b (viewport (context m))) then
    let viewport := {| params := p; tileSize := 512 |} in
    set_this (fun m =>
      {| prevLayers := prevLayers m; layers := layers m;
         drewLayers := drewLayers m;
         oldContext := Some (context m);
         context := {| gl := gl (context m);
                       viewport := Some viewport;
                       viewportChanged := viewportChanged;
                       uniforms := UniformsOf (zoom p) viewport |} |})
  else ret tt.

Definition set_drewLayers (b : bool) : M unit :=
  set_this (fun m =>
    {| prevLayers := prevLayers m; layers := layers m; drewLayers := b;
       oldContext := oldContext m; context := context m |}).

Definition needsRedraw (clearRedrawFlags : bool) : M bool :=
  m <- gets this ;;
  let redraw := false in
  let redraw :=
    if Nat.eqb (length (layers m)) 0 && drewLayers m then true else redraw in
  let redraw := if viewportChanged (context m) then true else redraw in
  set_drewLayers false ;;;
  for_of (layers m)
    (fun layer (redraw : bool) =>
       redraw <- (if redraw then ret true
                  else call_getNeedsRedraw layer clearRedrawFlags) ;;
       set_drewLayers true ;;;
       ret redraw)
    redraw.

Definition _transferLayerState (oldLayer newLayer : ref) : M unit :=
  o <- getLayer oldLayer ;;
  let state := state o in
  let props := props o in
  assert (is_Some_b state)
    "deck.gl sanity check - Matching layer has no state" ;;;
  assert (negb (Nat.eqb oldLayer newLayer))
    "deck.gl sanity check - Matching layer is same" ;;;
  match state with
  | Some s =>
      setLayer newLayer (layer_set_state (Some s)) ;;;
      setStateObj s (fun so =>
        {| state_layer := Some newLayer; state_model := state_model so |}) ;;;
      setStateObj s (fun so =>
        {| state_layer := state_layer so;
           state_model :=
             match state_model so with
             | Some _ => Some {| userData_layer := Some newLayer |}
             | None => None
             end |}) ;;;
      setLayer newLayer (layer_set_oldProps (Some props)) ;;;
      setLayer oldLayer (layer_set_state None)
  | None => ret tt
  end.

Definition _initializeNewLayer (layer : ref) : M value :=
  let error := Null in
  l <- getLayer layer ;;
  if negb (is_Some_b (state l)) then
    error <- try_catch (call_initializeLayer layer ;;; ret error)
                       (fun err => ret (js_or error err)) ;;
    l <- getLayer layer ;;
    match state l with
    | Some s =>
        setStateObj s (fun so =>
          {| state_layer := Some layer; state_model := state_model so |}) ;;;
        setStateObj s (fun so =>
          {| state_layer := state_layer so;
             state_model :=
               match state_model so with
               | Some _ => Some {| userData_layer := Some layer |}
               | None => None
               end |})
    | None => ret tt
    end ;;;
    ret error
  else ret error.

Definition _updateLayer (layer : ref) : M value :=
  l <- getLayer layer ;;
  let error := Null in
  match oldProps l with
  | Some _ =>
      try_catch (call_updateLayer layer ;;; ret error) (fun err => ret err)
  | None => ret error
  end.

Definition _finalizeLayer (layer : ref) : M value :=
  let error := Null in
  l <- getLayer layer ;;
  match state l with
  | Some _ =>
      error <- try_catch (call_finalizeLayer layer ;;; ret error)
                         (fun err => ret err) ;;
      setLayer layer (layer_set_state None) ;;;
      ret error
  | None => ret error
  end.

Definition _initializeNewLayers (layers : list ref) : M value :=
  for_of layers
    (fun layer (error : value) =>
       layerError <- _initializeNewLayer layer ;;
       ret (js_or error layerError))
    Null.

(** [error = error || this._updateLayer(layer)]: the right operand is only
    evaluated when [error] is falsy. *)
Definition _updateMatchedLayers (newLayers : list ref) : M value :=
  for_of newLayers
    (fun layer (error : value) =>
       if Boolean error then ret error else _updateLayer layer)
    Null.

Definition _finalizeOldLayers (oldLayers : list ref) : M value :=
  for_of oldLayers
    (fun layer (error : value) =>
       if Boolean error then ret error else _finalizeLayer layer)
    Null.

(** [_transferLayerState(oldLayer, newLayer)] where [oldLayer] is not a
    layer but a value inherited from [Object.prototype]: such a value has no
    [state], and the first sanity check fails. *)
Definition _transferLayerState_inherited (newLayer : ref) : M unit :=
  assert false "deck.gl sanity check - Matching layer has no state".

(** The body of the [try] block of [_matchSublayers] for one new layer, and
    the loop around it.  The loop skips null entries where the source
    filters them out beforehand; a single sublayer is matched as the
    one-element array the source wraps it in, whose returned error the
    source drops like that of every recursive call. *)
Fixpoint _matchSublayer (newLayer : newLayer) : M unit :=
  match newLayer with
  | NewLayer obj render =>
      l <- getLayer obj ;;
      oldLayer <- gets (fun w => get (oldLayerMap w) (id l)) ;;
      modify (fun w => with_oldLayerMap (assign_null (oldLayerMap w) (id l)) w) ;;;
      match oldLayer with
      | LayerValue old => _transferLayerState old obj
      | Inherited => _transferLayerState_inherited obj
      | Undefined | NullValue => ret tt
      end ;;;
      _ <- _initializeNewLayer obj ;;
      modify (fun w => with_generatedLayers (generatedLayers w ++ [obj]) w) ;;;
      emit (RenderLayers obj) ;;;
      match render with
      | RenderRaises err => throw err
      | RenderNull => ret tt
      | RenderOne sublayer =>
          _ <- try_catch (_matchSublayer sublayer ;;; ret Null)
                         (fun err => ret (js_or Null err)) ;;
          ret tt
      | RenderArray sublayers =>
          _ <- _matchSublayers sublayers Null ;;
          ret tt
      end
  end
with _matchSublayers (newLayers : layerArray) (error : value) : M value :=
  match newLayers with
  | ANil => ret error
  | AHole rest => _matchSublayers rest error
  | ALayer newLayer rest =>
      error <- try_catch (_matchSublayer newLayer ;;; ret error)
                         (fun err => ret (js_or error err)) ;;
      _matchSublayers rest error
  end.

Definition _matchLayers (oldLayers : list ref) (newLayers : layerArray)
  : M (value * list ref) :=
  modify (with_oldLayerMap empty_object) ;;;
  for_of oldLayers
    (fun oldLayer (_ : unit) =>
       l <- getLayer oldLayer ;;
       m <- gets oldLayerMap ;;
       if truthy (get m (id l)) then ret tt
       else modify (with_oldLayerMap (assign_layer m (id l) oldLayer)))
    tt ;;;
  modify (with_generatedLayers []) ;;;
  error <- _matchSublayers newLayers Null ;;
  generatedLayers <- gets generatedLayers ;;
  ret (error, generatedLayers).

Definition _updateLayers (oldLayers : list ref) (newLayers : layerArray)
  : M (value * list ref) :=
  matched <- _matchLayers oldLayers newLayers ;;
  let '(error, generatedLayers) := matched in
  error2 <- _finalizeOldLayers oldLayers ;;
  error3 <- _updateMatchedLayers generatedLayers ;;
  error4 <- _initializeNewLayers generatedLayers ;;
  let firstError := js_or (js_or (js_or error error2) error3) error4 in
  ret (firstError, generatedLayers).

(** Every layer is given the manager's one context object; layers do not
    carry a context field of their own here. *)
Definition updateLayers (newLayers : layerArray) : M unit :=
  set_this (fun m =>
    {| prevLayers := layers m; layers := layers m; drewLayers := drewLayers m;
       oldContext := oldContext m; context := context m |}) ;;;
  prev <- gets (fun w => prevLayers (this w)) ;;
  updated <- _updateLayers prev newLayers ;;
  let '(error, generatedLayers) := updated in
  set_this (fun m =>
    {| prevLayers := prevLayers m; layers := generatedLayers;
       drewLayers := drewLayers m;
       oldContext := oldContext m; context := context m |}) ;;;
  if Boolean error then throw error else ret tt.

(** ** Worlds to run the manager in *)

Definition quiet : Methods :=
  {| initializeLayer_creates := Some false; initializeLayer := Returns;
     updateLayer := Returns; finalizeLayer := Returns |}.

Definition fresh (name : string) (m : Methods) : layer :=
  {| id := name; props := {| visible := true; data := 0 |};
     oldProps := None; state := None; needsRedrawFlag := false;
     methods := m |}.

Definition noState : stateObj := {| state_layer := None; state_model := None |}.

(** The world right after [new LayerManager({gl})], with the given layer
    objects allocated at references 0, 1, 2, ... *)
Definition initial (objects : list layer) : world :=
  {| heap := fun r => nth r objects (fresh "" quiet);
     states := fun _ => noState;
     nextState := 0;
     calls := [];
     this := LayerManager_constructor 0;
     oldLayerMap := empty_object;
     generatedLayers := [] |}.

Definition leaf (r : ref) : newLayer := NewLayer r RenderNull.

Fixpoint leaves (rs : list ref) : layerArray :=
  match rs with
  | [] => ANil
  | r :: rest => ALayer (leaf r) (leaves rest)
  end.

(** Run a computation for its world, whether it returns or throws. *)
Definition exec {A} (m : M A) (w : world) : world := snd (m w).
Definition thrown {A} (m : M A) (w : world) : option value :=
  match fst (m w) with Ok _ => None | Throw e => Some e end.

(** ** Parts of the code, named for the proofs *)

(** The [renderLayers] part of the body of [_matchSublayers]: what is done
    with the sublayers a layer has rendered. *)
Definition matchRendered (render : rendered) : M unit :=
  match render with
  | RenderRaises err => throw err
  | RenderNull => ret tt
  | RenderOne sublayer =>
      _ <- try_catch (_matchSublayer sublayer ;;; ret Null)
                     (fun err => ret (js_or Null err)) ;;
      ret tt
  | RenderArray sublayers =>
      _ <- _matchSublayers sublayers Null ;;
      ret tt
  end.

(** What the body of [_matchSublayers] does for one layer before it turns
    to the layer's sublayers. *)
Definition visit (obj : ref) : M unit :=
  l <- getLayer obj ;;
  oldLayer <- gets (fun w => get (oldLayerMap w) (id l)) ;;
  modify (fun w => with_oldLayerMap (assign_null (oldLayerMap w) (id l)) w) ;;;
  match oldLayer with
  | LayerValue old => _transferLayerState old obj
  | Inherited => _transferLayerState_inherited obj
  | Undefined | NullValue => ret tt
  end ;;;
  _ <- _initializeNewLayer obj ;;
  modify (fun w => with_generatedLayers (generatedLayers w ++ [obj]) w) ;;;
  emit (RenderLayers obj).

Definition visits (objs : list ref) (w : world) : world :=
  foldl (fun w obj => exec (visit obj) w) w objs.

(** The two assignments to the manager's own fields in [updateLayers]. *)
Definition begin_pass (w : world) : world :=
  with_this
    {| prevLayers := layers (this w); layers := layers (this w);
       drewLayers := drewLayers (this w);
       oldContext := oldContext (this w); context := context (this w) |} w.

Definition install (generated : list ref) (w : world) : world :=
  with_this
    {| prevLayers := prevLayers (this w); layers := generated;
       drewLayers := drewLayers (this w);
       oldContext := oldContext (this w); context := context (this w) |} w.

(** The map of old layers that [_matchLayers] builds: an old layer is filed
    under its id unless a layer is filed there already. *)
Definition file_old (name : ref -> string) (m : object) (oldLayer : ref)
  : object :=
  if truthy (get m (name oldLayer)) then m
  else assign_layer m (name oldLayer) oldLayer.

Definition old_map (name : ref -> string) (oldLayers : list ref) : object :=
  foldl (file_old name) empty_object oldLayers.

(** A map as filing leaves it: it still inherits from [Object.prototype],
    and it owns layers only, under names that are not inherited. *)
Definition files_only (m : object) : Prop :=
  inherits m = true /\
  forall k v, own m !! k = Some v -> inherited k = false /\ v <> None.

(** The old layer on offer under an id during a pass: the first layer of
    the live forest that bears the id. *)
Definition on_offer (w : world) (k : string) : option ref :=
  head (List.filter (fun o => bool_decide (id (heap w o) = k))
          (layers (this w))).

(** [n] is the first layer of [news] with its id. *)
Definition first_of_its_id (w : world) (news : list ref) (n : ref) : Prop :=
  exists pre post,
    news = pre ++ n :: post /\
    forall m, m ∈ pre -> id (heap w m) <> id (heap w n).

(** The worlds between the phases of one pass of [updateLayers]: after
    matching, after the finalization of the old layers, after the update of
    the generated layers, and after the initialization of those still
    without state. *)
Definition after_matching (newLayers : layerArray) (w : world) : world :=
  snd (_matchLayers (layers (this w)) newLayers (begin_pass w)).

Definition after_finalization (newLayers : layerArray) (w : world) : world :=
  snd (_finalizeOldLayers (layers (this w)) (after_matching newLayers w)).

Definition after_update (newLayers : layerArray) (w : world) : world :=
  snd (_updateMatchedLayers (generatedLayers (after_matching newLayers w))
         (after_finalization newLayers w)).

Definition after_initialization (newLayers : layerArray) (w : world) : world :=
  snd (_initializeNewLayers (generatedLayers (after_matching newLayers w))
         (after_update newLayers w)).

Definition stages (newLayers : layerArray) (w : world) : list world :=
  [after_matching newLayers w; after_finalization newLayers w;
   after_update newLayers w; after_initialization newLayers w;
   exec (updateLayers newLayers) w].

Definition setContexts (ps : list cameraParams) : M unit :=
  for_of ps (fun p _ => setContext p) tt.

(** The public operations of the manager, and a run of several of them;
    an error thrown by one of them is the caller's to catch, and the run
    goes on. *)
Inductive operation : Type :=
| SetContext (p : cameraParams)
| UpdateLayers (newLayers : layerArray)
| NeedsRedraw (clearRedrawFlags : bool).

Definition perform (o : operation) (w : world) : world :=
  match o with
  | SetContext p => exec (setContext p) w
  | UpdateLayers newLayers => exec (updateLayers newLayers) w
  | NeedsRedraw clearRedrawFlags => exec (needsRedraw clearRedrawFlags) w
  end.

(** The calls a computation adds to those of the world it starts in. *)
Definition calls_of {A} (m : M A) (w : world) : list event :=
  drop (length (calls w)) (calls (exec m w)).

(** ** Notions of the specification *)

Definition flag (w : world) : bool := viewportChanged (context (this w)).

(** The generated forest, as the specification describes it: depth first,
    left to right; a layer, then the sublayers it rendered (and theirs),
    then its later siblings. *)
Fixpoint flattenLayer (l : newLayer) : list ref :=
  match l with
  | NewLayer obj render => obj :: flattenRendered render
  end
with flattenRendered (render : rendered) : list ref :=
  match render with
  | RenderRaises _ => []
  | RenderNull => []
  | RenderOne sublayer => flattenLayer sublayer
  | RenderArray sublayers => flatten sublayers
  end
with flatten (ls : layerArray) : list ref :=
  match ls with
  | ANil => []
  | AHole rest => flatten rest
  | ALayer l rest => flattenLayer l ++ flatten rest
  end.

Definition matching_call (e : event) : Prop :=
  match e with
  | InitializeLayer _ | RenderLayers _ => True
  | _ => False
  end.

Definition initialize_call (e : event) : Prop :=
  match e with InitializeLayer _ => True | _ => False end.

Definition update_call (e : event) : Prop :=
  match e with UpdateLayer _ => True | _ => False end.

Definition finalize_call (e : event) : Prop :=
  match e with FinalizeLayer _ => True | _ => False end.

(** The callbacks of one phase, on layers of [S] only. *)
Definition finalize_of (S : list ref) (e : event) : Prop :=
  match e with FinalizeLayer r => r ∈ S | _ => False end.

Definition update_of (S : list ref) (e : event) : Prop :=
  match e with UpdateLayer r => r ∈ S | _ => False end.

Definition initialize_of (S : list ref) (e : event) : Prop :=
  match e with InitializeLayer r => r ∈ S | _ => False end.

(** The calls made while matching, from a world [u] of the matching back to
    the start [w] of the pass: every layer pushed has rendered, and a layer
    that was pushed or holds state, held none at the start and was not
    paired with an old layer has been initialized. *)
Definition matching_calls (w u : world) : Prop :=
  exists t,
    calls u = calls w ++ t /\
    (forall n, n ∈ generatedLayers u -> RenderLayers n ∈ t) /\
    (forall n,
       n ∈ generatedLayers u \/ state (heap u n) <> None ->
       state (heap w n) = None -> oldProps (heap u n) = None ->
       InitializeLayer n ∈ t).

(** [runs_before x y]: callback [x] is to come before callback [y],
    finalize callbacks before update callbacks and update callbacks before
    initialize callbacks. *)
Definition runs_before (x y : event) : bool :=
  match x, y with
  | FinalizeLayer _, UpdateLayer _ => true
  | UpdateLayer _, InitializeLayer _ => true
  | _, _ => false
  end.

Definition lifecycle_order (t : list event) : Prop :=
  forall i j x y,
    t !! i = Some x -> t !! j = Some y -> runs_before x y = true -> i < j.

(** The call throws, and nothing was called or installed on the way. *)
Definition fails_at_once {A} (m : M A) (w : world) : Prop :=
  thrown m w <> None /\
  calls (exec m w) = calls w /\
  layers (this (exec m w)) = layers (this w).

(** Ownership of state objects: no state object is held by two layers, and
    every state object held has been allocated. *)
Definition sole_owner (w : world) : Prop :=
  forall r1 r2 s,
    state (heap w r1) = Some s -> state (heap w r2) = Some s -> r1 = r2.

Definition allocated (w : world) : Prop :=
  forall r s, state (heap w r) = Some s -> s < nextState w.

Definition owned (w : world) : Prop := sole_owner w /\ allocated w.

(** ** Relations between the world before and after *)

(** A relation between the world before and the world after holds for every
    run of a computation, whether it returns or throws. *)
Definition preserves (R : world -> world -> Prop) {A} (m : M A) : Prop :=
  forall w, R w (snd (m w)).

(** A computation that never throws. *)
Definition total {A} (m : M A) : Prop :=
  forall w, exists a, fst (m w) = Ok a.

(** Calls made from one world to the next, all of one kind. *)
Definition calls_extend (P : event -> Prop) (w w' : world) : Prop :=
  exists t, calls w' = calls w ++ t /\ Forall P t.

(** No sanity check of a state transfer can fail for a layer of [news]: no
    id of theirs is a name that a plain object inherits, every old layer on
    offer is filed under its own id, and the old layer on offer to a layer of
    [news] is another object and holds state. *)
Definition ready (news : list ref) (w : world) : Prop :=
  (forall n, n ∈ news -> inherited (id (heap w n)) = false) /\
  forall k o,
    own (oldLayerMap w) !! k = Some (Some o) ->
    id (heap w o) = k /\
    forall n, n ∈ news -> id (heap w n) = k ->
      o <> n /\ state (heap w o) <> None.

(** No sanity check fails while the layers of [news] are visited in turn:
    every old layer on offer is filed under its own id, and for a layer of
    [news] that is the first with its id, the id is not an inherited name
    and the old layer on offer, if there is one, is another object and
    holds state. *)
Definition clear_ahead (news : list ref) (w : world) : Prop :=
  (forall k o, own (oldLayerMap w) !! k = Some (Some o) -> id (heap w o) = k) /\
  forall n, first_of_its_id w news n ->
    inherited (id (heap w n)) = false /\
    forall o, own (oldLayerMap w) !! id (heap w n) = Some (Some o) ->
      o <> n /\ state (heap w o) <> None.

(** During the matching of a pass that started in [w]: ids are as in [w],
    and the old layers still on offer are layers of the live forest of [w],
    each filed under its id. *)
Definition offers_from (w w' : world) : Prop :=
  (forall r, id (heap w' r) = id (heap w r)) /\
  forall k o,
    own (oldLayerMap w') !! k = Some (Some o) ->
    o ∈ layers (this w) /\ id (heap w o) = k.

(** The new layer [n] has not been reached yet, and the old layer [o] is
    still on offer under its id, with the state it held in [w]. *)
Definition awaiting (w : world) (n o : ref) (w' : world) : Prop :=
  offers_from w w' /\
  own (oldLayerMap w') !! id (heap w n) = Some (Some o) /\
  state (heap w' o) = state (heap w o) /\
  n ∉ generatedLayers w'.

(** The state that the old layer [o] held in [w] has been moved to the new
    layer [n]. *)
Definition moved (w : world) (news : list ref) (n o : ref) (w' : world)
  : Prop :=
  offers_from w w' /\
  id (heap w o) = id (heap w n) /\
  own (oldLayerMap w') !! id (heap w n) = Some None /\
  state (heap w' n) = state (heap w o) /\
  state (heap w o) <> None /\
  (o ∉ news -> state (heap w' o) = None).

(** Layers keep their ids: [name] gives the id of every layer object. *)
Definition named (name : ref -> string) (w : world) : Prop :=
  forall r, id (heap w r) = name r.

(** The attributes of a layer that nothing in the manager assigns to. *)
Definition same_layers (w w' : world) : Prop :=
  forall r,
    id (heap w' r) = id (heap w r) /\
    props (heap w' r) = props (heap w r) /\
    methods (heap w' r) = methods (heap w r).

(** What the lifecycle phases may do to the layers. *)
Definition only_cleared (S : list ref) (w w' : world) : Prop :=
  nextState w' = nextState w /\
  forall r, heap w' r = heap w r \/ (r ∈ S /\ state (heap w' r) = None).

Definition only_initialized (S : list ref) (w w' : world) : Prop :=
  forall r, heap w' r = heap w r \/ (r ∈ S /\ state (heap w r) = None).

Definition same_heap (w w' : world) : Prop :=
  heap w' = heap w /\ nextState w' = nextState w.

Definition keeps_owned (w w' : world) : Prop := owned w -> owned w'.

Definition same_context (w w' : world) : Prop :=
  context (this w') = context (this w).

(** ** Sample layers and frames *)

Definition boom : value := ErrorObj "boom".

Definition failing_update : Methods :=
  {| initializeLayer_creates := Some false; initializeLayer := Returns;
     updateLayer := Raises boom; finalizeLayer := Returns |}.

Definition failing_finalize : Methods :=
  {| initializeLayer_creates := Some false; initializeLayer := Returns;
     updateLayer := Returns; finalizeLayer := Raises boom |}.

Definition failing_initialize : Methods :=
  {| initializeLayer_creates := None; initializeLayer := Raises boom;
     updateLayer := Returns; finalizeLayer := Returns |}.

Definition camera : cameraParams :=
  {| width := Num 800; height := Num 600; latitude := Num 37;
     longitude := Num (-122); zoom := Num 11; pitch := Num 0;
     bearing := Num 0; altitude := Num 2 |}.

(** One frame with a single layer, whose finalize callback will raise. *)
Definition one_failing_finalize : world :=
  exec (updateLayers (leaves [0])) (initial [fresh "a" failing_finalize]).

Definition emptied_forest_script : M (bool * bool) :=
  setContext camera ;;;
  updateLayers (leaves [0]) ;;;
  _ <- needsRedraw true ;;
  updateLayers ANil ;;;
  first <- needsRedraw true ;;
  second <- needsRedraw true ;;
  ret (first, second).

(** Two frames of the forest x, y, z; in the second frame the new layer x
    has an update callback that raises. *)
Definition xyz_objects : list layer :=
  [fresh "x" quiet; fresh "y" quiet; fresh "z" quiet;
   fresh "x" failing_update; fresh "y" quiet; fresh "z" quiet].

Definition xyz_first_frame : world :=
  exec (updateLayers (leaves [0; 1; 2])) (initial xyz_objects).

(** Old layers a, b, x, y; the next frame keeps x and y only.  The finalize
    callback of a raises, and so does the update callback of the new x. *)
Definition abxy_objects : list layer :=
  [fresh "a" failing_finalize; fresh "b" quiet; fresh "x" quiet;
   fresh "y" quiet; fresh "x" failing_update; fresh "y" quiet].

Definition abxy_first_frame : world :=
  exec (updateLayers (leaves [0; 1; 2; 3])) (initial abxy_objects).

(** Old layers d and m; the next frame has m again and a new layer n. *)
Definition dmn_objects : list layer :=
  [fresh "d" quiet; fresh "m" quiet; fresh "m" quiet; fresh "n" quiet].

Definition dmn_first_frame : world :=
  exec (updateLayers (leaves [0; 1])) (initial dmn_objects).

(** A first frame whose only layer fails to initialize and is left without
    state; the next frame has a layer of the same id, and a layer b. *)
Definition stateless_objects : list layer :=
  [fresh "a" failing_initialize; fresh "a" quiet; fresh "b" quiet].

Definition stateless_first_frame : world :=
  exec (updateLayers (leaves [0])) (initial stateless_objects).

(** A world in which the old layer a, filed under its id, has lost its
    state, and a new layer of that id comes first in the new forest. *)
Definition stale_match : world :=
  with_oldLayerMap (old_map (fun r => id (heap stateless_first_frame r)) [0])
    stateless_first_frame.

(** Two frames of a forest in which the layer p renders the sublayers x and
    y, and q renders nothing. *)
Definition pxyq_objects : list layer :=
  [fresh "p" quiet; fresh "x" quiet; fresh "y" quiet; fresh "q" quiet;
   fresh "p" quiet; fresh "x" quiet; fresh "y" quiet; fresh "q" quiet].

Definition pxyq (p x y q : ref) : layerArray :=
  ALayer (NewLayer p (RenderArray (ALayer (leaf x) (AHole (ALayer (leaf y) ANil)))))
    (ALayer (leaf q) ANil).

Definition pxyq_first_frame : world :=
  exec (updateLayers (pxyq 0 1 2 3)) (initial pxyq_objects).

(** A layer whose [initializeLayer] returns without giving it state. *)
Definition stateless : Methods :=
  {| initializeLayer_creates := None; initializeLayer := Returns;
     updateLayer := Returns; finalizeLayer := Returns |}.

(** A first frame with one such layer a; the next frame resubmits a as a
    new object. *)
Definition idle_first_frame : world :=
  exec (updateLayers (leaves [0]))
    (initial [fresh "a" stateless; fresh "a" stateless]).

(** ** Further notions, for the properties beyond the specification *)

(** The body of the loop of [needsRedraw]. *)
Definition redraw_step (clearRedrawFlags : bool) (layer : ref) (redraw : bool)
  : M bool :=
  redraw <- (if redraw then ret true
             else call_getNeedsRedraw layer clearRedrawFlags) ;;
  set_drewLayers true ;;;
  ret redraw.

(** A camera parameter that equals itself under [!==], and parameters that
    all do. *)
Definition is_finite (n : num) : bool :=
  match n with Num _ => true | NaN => false end.

Definition finite (p : cameraParams) : bool :=
  is_finite (width p) && is_finite (height p) && is_finite (latitude p) &&
  is_finite (longitude p) && is_finite (zoom p) && is_finite (pitch p) &&
  is_finite (bearing p) && is_finite (altitude p).

Definition NaN_camera : cameraParams :=
  {| width := Num 800; height := Num 600; latitude := NaN;
     longitude := Num (-122); zoom := Num 11; pitch := Num 0;
     bearing := Num 0; altitude := Num 2 |}.

(** A camera with a width of 0. *)
Definition flat_camera : cameraParams :=
  {| width := Num 0; height := Num 600; latitude := Num 37;
     longitude := Num (-122); zoom := Num 11; pitch := Num 0;
     bearing := Num 0; altitude := Num 2 |}.

(** One frame with a single layer whose redraw flag is up. *)
Definition flagged_frame : world :=
  exec (updateLayers (leaves [0]))
    (initial [layer_set_flag true (fresh "a" quiet)]).

(** A callback outcome that the manager records as an error: a raised value
    that is truthy. *)
Definition raises_truthy (o : outcome) : bool :=
  match o with
  | Returns => false
  | Raises e => Boolean e
  end.

(** The layers of a list up to and including the first one that fails. *)
Fixpoint up_to_failure (fails : ref -> bool) (ls : list ref) : list ref :=
  match ls with
  | [] => []
  | l :: rest => if fails l then [l] else l :: up_to_failure fails rest
  end.

Definition has_oldProps (w : world) (r : ref) : bool :=
  is_Some_b (oldProps (heap w r)).

Definition has_state (w : world) (r : ref) : bool :=
  is_Some_b (state (heap w r)).

Definition update_fails (w : world) (r : ref) : bool :=
  raises_truthy (updateLayer (methods (heap w r))).

Definition finalize_fails (w : world) (r : ref) : bool :=
  raises_truthy (finalizeLayer (methods (heap w r))).

Definition initialize_fails (w : world) (r : ref) : bool :=
  raises_truthy (initializeLayer (methods (heap w r))).

Definition lacks_state (w : world) (r : ref) : bool := negb (has_state w r).

(** Three layers without state; the first one fails to initialize. *)
Definition stubborn_objects : list layer :=
  [fresh "a" failing_initialize; fresh "b" quiet; fresh "c" quiet].

Definition same_this (w w' : world) : Prop := this w' = this w.

(** The state fields of the layers, and the allocation of state objects,
    are as before. *)
Definition same_states (w w' : world) : Prop :=
  nextState w' = nextState w /\
  forall r, state (heap w' r) = state (heap w r).

(** A frame with the layers a and b; the next frame brings c and d. *)
Definition disjoint_first_frame : world :=
  exec (updateLayers (leaves [0; 1]))
    (initial [fresh "a" quiet; fresh "b" quiet; fresh "c" quiet;
              fresh "d" quiet]).

(** The back pointers used in picking: the state object a layer holds
    points back to that layer, and so does the [userData] of its model. *)
Definition back_linked (w : world) : Prop :=
  forall r s,
    state (heap w r) = Some s ->
    state_layer (states w s) = Some r /\
    forall m, state_model (states w s) = Some m -> userData_layer m = Some r.

Definition consistent (w : world) : Prop := owned w /\ back_linked w.

Definition keeps_consistent (w w' : world) : Prop :=
  consistent w -> consistent w'.

(** A run of the public operations from the constructor on. *)
Definition run (objects : list layer) (ops : list operation) : world :=
  foldl (fun w o => perform o w) (initial objects) ops.

Definition two_frames : list operation :=
  [SetContext camera; UpdateLayers (leaves [0; 1]); NeedsRedraw true;
   UpdateLayers (leaves [2; 1]); NeedsRedraw false].

(** [drawLayers].  What drawing a layer does is the layer's own business
    ([layer.drawLayer] is a method of the [Layer] class), so it is a
    parameter here. *)
Definition drawLayers (drawLayer : ref -> Uniforms -> M unit) : M unit :=
  m <- gets this ;;
  let uniforms := uniforms (context m) in
  for_of (layers m)
    (fun layer (_ : unit) =>
       l <- getLayer layer ;;
       if visible (props l) then drawLayer layer uniforms else ret tt)
    tt.

Definition is_visible (w : world) (r : ref) : bool :=
  visible (props (heap w r)).

(** A layer that is not to be drawn. *)
Definition hidden (name : string) (m : Methods) : layer :=
  {| id := name; props := {| visible := false; data := 0 |};
     oldProps := None; state := None; needsRedrawFlag := false;
     methods := m |}.

Definition partly_hidden_frame : world :=
  exec (updateLayers (leaves [0; 1; 2; 3]))
    (initial [fresh "a" quiet; hidden "b" quiet; fresh "c" quiet;
              fresh "d" quiet]).

(** A [drawLayer] that raises for one layer and does nothing otherwise. *)
Definition draw_unless (bad : ref) (layer : ref) (_ : Uniforms) : M unit :=
  if (layer =? bad)%nat then throw boom else ret tt.

(** A [drawLayer] that leaves a trace of the draw on the layer: it raises
    the layer's redraw flag. *)
Definition draw_marking (layer : ref) (_ : Uniforms) : M unit :=
  setLayer layer (layer_set_flag true).

(** The [oldProps] of the layers are as before. *)
Definition same_oldProps (w w' : world) : Prop :=
  forall r, oldProps (heap w' r) = oldProps (heap w r).

(** Old layers a and b; the next frame brings two layers with the id a. *)
Definition twin_first_frame : world :=
  exec (updateLayers (leaves [0; 1]))
    (initial [fresh "a" quiet; fresh "b" quiet; fresh "a" quiet;
              fresh "a" quiet; fresh "b" quiet]).

(** While the new layers [news] are matched against the old layers [olds]:
    the old layers on offer are layers of [olds], the layers pushed are
    layers of [news] and hold state, and every layer of [news] holds state
    or has an [initializeLayer] that gives it one. *)
Definition gives_state (olds news : list ref) (u : world) : Prop :=
  (forall k o, own (oldLayerMap u) !! k = Some (Some o) -> o ∈ olds) /\
  (forall m, m ∈ generatedLayers u -> m ∈ news) /\
  (forall m, m ∈ generatedLayers u -> state (heap u m) <> None) /\
  (forall m, m ∈ news ->
     state (heap u m) <> None \/
     initializeLayer_creates (methods (heap u m)) <> None).

(** * Properties *)

Create HintDb js.
#[local] Hint Unfold bind ret gets modify throw try_catch emit complete
  setLayer getLayer getState setStateObj set_this set_drewLayers assert
  exec thrown : js.

Ltac js_unfold := autounfold with js in *; simpl in *.

Lemma upd_same {A} (h : nat -> A) r a : upd h r a r = a.
Proof. unfold upd. by rewrite Nat.eqb_refl. Qed.

Lemma upd_other {A} (h : nat -> A) r r' a : r' <> r -> upd h r a r' = h r'.
Proof. unfold upd. intros H. apply Nat.eqb_neq in H. by rewrite H. Qed.

(** ** Finalization of one layer *)

Lemma finalize_leaves_no_state (w : world) (layer : ref) :
  state (heap (exec (_finalizeLayer layer) w) layer) = None.
Proof.
  unfold _finalizeLayer, call_finalizeLayer. js_unfold.
  destruct (state (heap w layer)) eqn:E; simpl; [|done].
  destruct (finalizeLayer (methods (heap w layer))); simpl; by rewrite upd_same.
Qed.

(** C10.  When a layer that holds state is finalized and its [finalizeLayer]
    callback raises, [_finalizeLayer] has called the callback, returns the
    raised value as its result instead of throwing, and has cleared the
    layer's [state] all the same. *)
Theorem finalize_failure_clears_state
  (w : world) (layer : ref) (s : sref) (err : value) :
  state (heap w layer) = Some s ->
  finalizeLayer (methods (heap w layer)) = Raises err ->
  fst (_finalizeLayer layer w) = Ok err /\
  calls (exec (_finalizeLayer layer) w) = calls w ++ [FinalizeLayer layer] /\
  state (heap (exec (_finalizeLayer layer) w) layer) = None.
Proof.
  intros Hs Hf. split; [|split]; [| |apply finalize_leaves_no_state].
  - unfold _finalizeLayer, call_finalizeLayer. js_unfold.
    rewrite Hs. simpl. by rewrite Hf.
  - unfold _finalizeLayer, call_finalizeLayer. js_unfold.
    rewrite Hs. simpl. by rewrite Hf.
Qed.

Lemma finalize_failure_clears_state_witness :
  fst (_finalizeLayer 0 one_failing_finalize) = Ok boom /\
  calls (exec (_finalizeLayer 0) one_failing_finalize) =
    calls one_failing_finalize ++ [FinalizeLayer 0] /\
  state (heap (exec (_finalizeLayer 0) one_failing_finalize) 0) = None.
Proof.
  apply (finalize_failure_clears_state one_failing_finalize 0 0 boom);
    by vm_compute.
Defined.

(** ** The viewport context *)

Lemma setContext_keeps_flag (p : cameraParams) (w : world) :
  flag w = true -> flag (exec (setContext p) w) = true.
Proof.
  unfold flag, setContext. js_unfold. intros H.
  destruct (viewport (context (this w))) as [v|]; simpl; [|done].
  rewrite orb_false_r. by destruct (cameraChanged p v) eqn:E; simpl.
Qed.

(** C3.  Whatever camera parameters a sequence of [setContext] calls is
    given after construction, and so also when a call repeats the parameters
    of the call before it, the [viewportChanged] flag of the context is
    [true] afterwards: no call ever stores [false]. *)
Theorem viewportChanged_is_never_cleared
  (objects : list layer) (ps : list cameraParams) :
  flag (exec (setContexts ps) (initial objects)) = true.
Proof.
  assert (G : forall w, flag w = true -> flag (exec (setContexts ps) w) = true).
  { unfold setContexts. induction ps as [|p ps IH]; intros w Hw; [done|].
    simpl. unfold exec, bind.
    pose proof (setContext_keeps_flag p w Hw) as Hp. unfold exec in Hp.
    destruct (setContext p w) as [[[]|e] w1] eqn:E; simpl in *.
    - apply IH, Hp.
    - exact Hp. }
  by apply G.
Qed.

Example same_camera_twice :
  flag (exec (setContext camera ;;; setContext camera) (initial [])) = true.
Proof.
  unfold exec, bind.
  pose proof (setContext_keeps_flag camera (initial []) eq_refl) as H1.
  unfold exec in H1.
  destruct (setContext camera (initial [])) as [[[]|e] w1]; simpl in *;
    [|done].
  exact (setContext_keeps_flag camera w1 H1).
Qed.

(** ** Redraw tracking *)

Lemma redraw_loop_true (clear : bool) (ls : list ref) (w : world) :
  exists w',
    for_of ls
      (fun layer (redraw : bool) =>
         redraw <- (if redraw then ret true
                    else call_getNeedsRedraw layer clear) ;;
         set_drewLayers true ;;;
         ret redraw) true w = (Ok true, w').
Proof.
  revert w. induction ls as [|l ls IH]; intros w; simpl.
  - by eexists.
  - js_unfold. apply IH.
Qed.

Lemma needsRedraw_when_flag_set (clear : bool) (w : world) :
  flag w = true -> fst (needsRedraw clear w) = Ok true.
Proof.
  unfold flag, needsRedraw. intros H. js_unfold. rewrite H.
  match goal with |- context [for_of ?ls _ true ?w0] =>
    destruct (redraw_loop_true clear ls w0) as [w' Hw'] end.
  js_unfold. by rewrite Hw'.
Qed.

(** The rule for the emptied forest, taken on its own: with the flag of the
    context down, the first check answers [true] and the next [false]. *)
Lemma needsRedraw_emptied_forest (clear : bool) (w : world) :
  layers (this w) = [] -> drewLayers (this w) = true -> flag w = false ->
  fst (needsRedraw clear w) = Ok true /\
  fst (needsRedraw clear (exec (needsRedraw clear) w)) = Ok false.
Proof.
  unfold flag, needsRedraw. intros Hl Hd Hf. js_unfold.
  rewrite Hl, Hd, Hf. simpl. by rewrite Hf.
Qed.

(** A manager is built, given a context and one layer, and checked; then
    the forest is emptied.  The two checks that follow both answer [true]. *)
Example emptied_forest_is_redrawn_twice :
  fst (emptied_forest_script (initial [fresh "a" quiet])) = Ok (true, true).
Proof. reflexivity. Qed.

(** ** Composition of computations *)

Section Preservation.
Variable R : world -> world -> Prop.
Hypothesis R_refl : forall w, R w w.
Hypothesis R_trans : forall w1 w2 w3, R w1 w2 -> R w2 w3 -> R w1 w3.

Lemma preserves_ret {A} (a : A) : preserves R (ret a).
Proof. intros w. apply R_refl. Qed.

Lemma preserves_throw {A} (e : value) : preserves R (@throw A e).
Proof. intros w. apply R_refl. Qed.

Lemma preserves_gets {A} (f : world -> A) : preserves R (gets f).
Proof. intros w. apply R_refl. Qed.

Lemma preserves_bind {A B} (m : M A) (k : A -> M B) :
  preserves R m -> (forall a, preserves R (k a)) -> preserves R (bind m k).
Proof.
  intros Hm Hk w. unfold bind. specialize (Hm w).
  destruct (m w) as [[a|e] w1]; simpl in *; [|done].
  eapply R_trans; [exact Hm | apply Hk].
Qed.

Lemma preserves_try_catch {A} (m : M A) (h : value -> M A) :
  preserves R m -> (forall e, preserves R (h e)) ->
  preserves R (try_catch m h).
Proof.
  intros Hm Hh w. unfold try_catch. specialize (Hm w).
  destruct (m w) as [[a|e] w1]; simpl in *; [done|].
  eapply R_trans; [exact Hm | apply Hh].
Qed.

Lemma preserves_for_of {A S} (xs : list A) (body : A -> S -> M S) (acc : S) :
  (forall x s, preserves R (body x s)) -> preserves R (for_of xs body acc).
Proof.
  intros Hb. revert acc. induction xs as [|x xs IH]; intros acc; simpl.
  - apply preserves_ret.
  - apply preserves_bind; [apply Hb | apply IH].
Qed.

Lemma preserves_assert (c : bool) (msg : string) : preserves R (assert c msg).
Proof. intros w. unfold assert. destruct c; apply R_refl. Qed.

Lemma preserves_complete (o : outcome) : preserves R (complete o).
Proof. intros w. unfold complete. destruct o; apply R_refl. Qed.

(** The matching of a forest, from its parts. *)
Hypothesis R_oldLayerMap :
  forall g, preserves R (modify (fun w => with_oldLayerMap (g w) w)).
Hypothesis R_generatedLayers :
  forall g, preserves R (modify (fun w => with_generatedLayers (g w) w)).
Hypothesis R_transfer : forall o n, preserves R (_transferLayerState o n).
Hypothesis R_initialize : forall r, preserves R (_initializeNewLayer r).
Hypothesis R_render : forall r, preserves R (emit (RenderLayers r)).

Lemma matchSublayer_unfold (obj : ref) (render : rendered) :
  _matchSublayer (NewLayer obj render) =
  (l <- getLayer obj ;;
   oldLayer <- gets (fun w => get (oldLayerMap w) (id l)) ;;
   modify (fun w => with_oldLayerMap (assign_null (oldLayerMap w) (id l)) w) ;;;
   match oldLayer with
   | LayerValue old => _transferLayerState old obj
   | Inherited => _transferLayerState_inherited obj
   | Undefined | NullValue => ret tt
   end ;;;
   _ <- _initializeNewLayer obj ;;
   modify (fun w => with_generatedLayers (generatedLayers w ++ [obj]) w) ;;;
   emit (RenderLayers obj) ;;;
   matchRendered render).
Proof. reflexivity. Qed.

Lemma preserves_matching :
  (forall l, preserves R (_matchSublayer l)) /\
  (forall r, preserves R (matchRendered r)) /\
  (forall ls, forall e, preserves R (_matchSublayers ls e)).
Proof.
  apply forest_mutind.
  - intros obj render IH. rewrite matchSublayer_unfold.
    apply preserves_bind; [apply preserves_gets|intros l].
    apply preserves_bind; [apply preserves_gets|intros o].
    apply preserves_bind; [apply R_oldLayerMap|intros _].
    apply preserves_bind.
    { destruct o as [| |old|];
        [apply preserves_ret|apply preserves_ret|apply R_transfer|
         apply preserves_assert]. }
    intros _. apply preserves_bind; [apply R_initialize|intros _].
    apply preserves_bind; [apply R_generatedLayers|intros _].
    apply preserves_bind; [apply R_render|intros _]. exact IH.
  - intros err. apply preserves_throw.
  - apply preserves_ret.
  - intros sub IH. simpl. apply preserves_bind; [|intros; apply preserves_ret].
    apply preserves_try_catch; [|intros; apply preserves_ret].
    apply preserves_bind; [exact IH|intros; apply preserves_ret].
  - intros subs IH. simpl.
    apply preserves_bind; [apply IH|intros; apply preserves_ret].
  - intros e. apply preserves_ret.
  - intros rest IH e. simpl. apply IH.
  - intros l IHl rest IHrest e. simpl.
    apply preserves_bind; [|intros; apply IHrest].
    apply preserves_try_catch; [|intros; apply preserves_ret].
    apply preserves_bind; [exact IHl|intros; apply preserves_ret].
Qed.
End Preservation.

(** ** Computations that never throw *)

Lemma total_ret {A} (a : A) : total (ret a).
Proof. intros w. by exists a. Qed.

Lemma total_gets {A} (f : world -> A) : total (gets f).
Proof. intros w. by eexists. Qed.

Lemma total_modify (f : world -> world) : total (modify f).
Proof. intros w. by eexists. Qed.

Lemma total_bind {A B} (m : M A) (k : A -> M B) :
  total m -> (forall a, total (k a)) -> total (bind m k).
Proof.
  intros Hm Hk w. unfold bind. destruct (Hm w) as [a Ha].
  destruct (m w) as [r w1]; simpl in *; subst r. apply Hk.
Qed.

Lemma total_try_catch {A} (m : M A) (h : value -> M A) :
  (forall e, total (h e)) -> total (try_catch m h).
Proof.
  intros Hh w. unfold try_catch.
  destruct (m w) as [[a|e] w1]; simpl; [by eexists|apply Hh].
Qed.

Lemma total_for_of {A S} (xs : list A) (body : A -> S -> M S) (acc : S) :
  (forall x s, total (body x s)) -> total (for_of xs body acc).
Proof.
  intros Hb. revert acc. induction xs as [|x xs IH]; intros acc; simpl.
  - apply total_ret.
  - apply total_bind; [apply Hb | apply IH].
Qed.

Ltac total_step :=
  first
    [ apply total_ret | apply total_gets | apply total_modify
    | apply total_try_catch; intros
    | apply total_for_of; intros
    | apply total_bind; [|intros]
    | match goal with
      | |- total (if ?b then _ else _) => destruct b
      | |- total (match ?x with _ => _ end) => destruct x
      end
    | progress cbv zeta ].

Lemma total_initializeNewLayer (r : ref) : total (_initializeNewLayer r).
Proof.
  unfold _initializeNewLayer, setStateObj, getLayer. repeat total_step.
Qed.

Lemma total_updateLayer (r : ref) : total (_updateLayer r).
Proof. unfold _updateLayer, getLayer. repeat total_step. Qed.

Lemma total_finalizeLayer (r : ref) : total (_finalizeLayer r).
Proof. unfold _finalizeLayer, getLayer, setLayer. repeat total_step. Qed.

Lemma total_matchSublayers (ls : layerArray) (e : value) :
  total (_matchSublayers ls e).
Proof.
  revert e. induction ls as [|rest IH|l rest IH]; intros e; simpl.
  - apply total_ret.
  - apply IH.
  - apply total_bind; [|intros; apply IH]. repeat total_step.
Qed.

Lemma total_matchLayers (olds : list ref) (ls : layerArray) :
  total (_matchLayers olds ls).
Proof.
  unfold _matchLayers, getLayer.
  repeat first [apply total_matchSublayers | total_step].
Qed.

Lemma total_finalizeOldLayers (olds : list ref) :
  total (_finalizeOldLayers olds).
Proof.
  unfold _finalizeOldLayers.
  repeat first [apply total_finalizeLayer | total_step].
Qed.

Lemma total_updateMatchedLayers (ls : list ref) :
  total (_updateMatchedLayers ls).
Proof.
  unfold _updateMatchedLayers.
  repeat first [apply total_updateLayer | total_step].
Qed.

Lemma total_initializeNewLayers (ls : list ref) :
  total (_initializeNewLayers ls).
Proof.
  unfold _initializeNewLayers.
  repeat first [apply total_initializeNewLayer | total_step].
Qed.

Lemma total_updateLayers_phases (olds : list ref) (ls : layerArray) :
  total (_updateLayers olds ls).
Proof.
  unfold _updateLayers.
  apply total_bind; [apply total_matchLayers|intros [e g]].
  repeat first
    [ apply total_finalizeOldLayers | apply total_updateMatchedLayers
    | apply total_initializeNewLayers | total_step ].
Qed.

(** ** Which callbacks a phase calls *)

Lemma calls_extend_refl (P : event -> Prop) (w : world) : calls_extend P w w.
Proof. exists []. by rewrite app_nil_r. Qed.

Lemma calls_extend_trans (P : event -> Prop) (w1 w2 w3 : world) :
  calls_extend P w1 w2 -> calls_extend P w2 w3 -> calls_extend P w1 w3.
Proof.
  intros (t1 & E1 & F1) (t2 & E2 & F2). exists (t1 ++ t2). split.
  - by rewrite E2, E1, app_assoc.
  - by apply Forall_app.
Qed.

Lemma calls_modify (P : event -> Prop) (f : world -> world) :
  (forall w, calls (f w) = calls w) -> preserves (calls_extend P) (modify f).
Proof. intros H w. exists []. simpl. by rewrite H, app_nil_r. Qed.

Lemma calls_emit (P : event -> Prop) (e : event) :
  P e -> preserves (calls_extend P) (emit e).
Proof. intros H w. exists [e]. simpl. split; [done|]. by constructor. Qed.

Ltac calls_side :=
  try solve [apply calls_extend_refl | apply calls_extend_trans].

Ltac calls_step P :=
  first
    [ progress intros
    | progress cbv zeta
    | apply calls_modify; reflexivity
    | apply calls_emit; exact I
    | apply (preserves_ret (calls_extend P)); calls_side
    | apply (preserves_throw (calls_extend P)); calls_side
    | apply (preserves_gets (calls_extend P)); calls_side
    | apply (preserves_assert (calls_extend P)); calls_side
    | apply (preserves_complete (calls_extend P)); calls_side
    | apply (preserves_try_catch (calls_extend P)); calls_side
    | apply (preserves_for_of (calls_extend P)); calls_side
    | apply (preserves_bind (calls_extend P)); calls_side
    | match goal with
      | |- preserves _ (if ?b then _ else _) => destruct b
      | |- preserves _ (match ?x with _ => _ end) => destruct x
      end ].

Lemma calls_transferLayerState (P : event -> Prop) (o n : ref) :
  preserves (calls_extend P) (_transferLayerState o n).
Proof.
  unfold _transferLayerState, setLayer, setStateObj, getLayer.
  repeat calls_step P.
Qed.

Lemma calls_initializeNewLayer (P : event -> Prop) (r : ref) :
  P (InitializeLayer r) -> preserves (calls_extend P) (_initializeNewLayer r).
Proof.
  intros HP.
  unfold _initializeNewLayer, call_initializeLayer, setLayer, setStateObj,
    getLayer.
  repeat first [apply calls_emit; exact HP | calls_step P].
Qed.

Lemma calls_updateLayer (r : ref) :
  preserves (calls_extend update_call) (_updateLayer r).
Proof.
  unfold _updateLayer, call_updateLayer, getLayer.
  repeat calls_step update_call.
Qed.

Lemma calls_finalizeLayer (r : ref) :
  preserves (calls_extend finalize_call) (_finalizeLayer r).
Proof.
  unfold _finalizeLayer, call_finalizeLayer, getLayer, setLayer.
  repeat calls_step finalize_call.
Qed.

Lemma calls_matchSublayers (ls : layerArray) (e : value) :
  preserves (calls_extend matching_call) (_matchSublayers ls e).
Proof.
  apply (preserves_matching (calls_extend matching_call)).
  - apply calls_extend_refl.
  - apply calls_extend_trans.
  - intros g. by apply calls_modify.
  - intros g. by apply calls_modify.
  - apply calls_transferLayerState.
  - intros r. by apply calls_initializeNewLayer.
  - intros r. by apply calls_emit.
Qed.

Lemma calls_matchLayers (olds : list ref) (ls : layerArray) :
  preserves (calls_extend matching_call) (_matchLayers olds ls).
Proof.
  unfold _matchLayers, getLayer.
  repeat first [apply calls_matchSublayers | calls_step matching_call].
Qed.

Lemma calls_finalizeOldLayers (olds : list ref) :
  preserves (calls_extend finalize_call) (_finalizeOldLayers olds).
Proof.
  unfold _finalizeOldLayers.
  repeat first [apply calls_finalizeLayer | calls_step finalize_call].
Qed.

Lemma calls_updateMatchedLayers (ls : list ref) :
  preserves (calls_extend update_call) (_updateMatchedLayers ls).
Proof.
  unfold _updateMatchedLayers.
  repeat first [apply calls_updateLayer | calls_step update_call].
Qed.

Lemma calls_initializeNewLayers (ls : list ref) :
  preserves (calls_extend initialize_call) (_initializeNewLayers ls).
Proof.
  unfold _initializeNewLayers.
  repeat first
    [ apply calls_initializeNewLayer; exact I | calls_step initialize_call ].
Qed.

(** A phase, run: it returns, and the calls it made are all of its kind. *)
Lemma run_phase {A} (P : event -> Prop) (m : M A) (w : world) :
  total m -> preserves (calls_extend P) m ->
  exists a w' t, m w = (Ok a, w') /\ calls w' = calls w ++ t /\ Forall P t.
Proof.
  intros Ht Hp. destruct (Ht w) as [a Ha]. destruct (Hp w) as (t & Et & Ft).
  destruct (m w) as [r w'] eqn:E; simpl in *; subst r. by exists a, w', t.
Qed.

Lemma lifecycle_order_phases (tf tu ti : list event) :
  Forall finalize_call tf -> Forall update_call tu ->
  Forall initialize_call ti -> lifecycle_order (tf ++ tu ++ ti).
Proof.
  intros Hf Hu Hi i j x y Hx Hy Hxy.
  rewrite Forall_lookup in Hf, Hu, Hi.
  apply lookup_app_Some in Hx as [Hx|[Li Hx]].
  - pose proof (lookup_lt_Some _ _ _ Hx) as Bi. apply Hf in Hx.
    apply lookup_app_Some in Hy as [Hy|[Lj Hy]]; [|lia].
    apply Hf in Hy. by destruct x, y.
  - apply lookup_app_Some in Hx as [Hx|[Li' Hx]].
    + pose proof (lookup_lt_Some _ _ _ Hx) as Bi. apply Hu in Hx.
      apply lookup_app_Some in Hy as [Hy|[Lj Hy]].
      { apply Hf in Hy. by destruct x, y. }
      apply lookup_app_Some in Hy as [Hy|[Lj' Hy]]; [|lia].
      apply Hu in Hy. by destruct x, y.
    + apply Hi in Hx. by destruct x, y.
Qed.

(** The calls of one pass, phase by phase. *)
Lemma updateLayers_call_phases (w : world) (newLayers : layerArray) :
  exists tm tf tu ti,
    calls (exec (updateLayers newLayers) w) = calls w ++ tm ++ tf ++ tu ++ ti /\
    Forall matching_call tm /\ Forall finalize_call tf /\
    Forall update_call tu /\ Forall initialize_call ti.
Proof.
  unfold updateLayers, exec. unfold bind at 1. simpl.
  unfold bind at 1. simpl. unfold bind at 1.
  set (w0 := with_this _ w).
  unfold _updateLayers.
  destruct (run_phase matching_call
              (_matchLayers (layers (this w)) newLayers) w0
              (total_matchLayers _ _) (calls_matchLayers _ _))
    as ([e g] & w1 & tm & E1 & C1 & F1).
  unfold bind at 1. rewrite E1.
  destruct (run_phase finalize_call (_finalizeOldLayers (layers (this w))) w1
              (total_finalizeOldLayers _)
              (calls_finalizeOldLayers _))
    as (e2 & w2 & tf & E2 & C2 & F2).
  unfold bind at 1. rewrite E2.
  destruct (run_phase update_call (_updateMatchedLayers g) w2
              (total_updateMatchedLayers _)
              (calls_updateMatchedLayers _))
    as (e3 & w3 & tu & E3 & C3 & F3).
  unfold bind at 1. rewrite E3.
  destruct (run_phase initialize_call (_initializeNewLayers g) w3
              (total_initializeNewLayers _)
              (calls_initializeNewLayers _))
    as (e4 & w4 & ti & E4 & C4 & F4).
  unfold bind at 1. rewrite E4.
  exists tm, tf, tu, ti. split_and!; try done.
  assert (calls w4 = calls w ++ tm ++ tf ++ tu ++ ti) as Hc.
  { rewrite C4, C3, C2, C1. subst w0. simpl. by rewrite <- !app_assoc. }
  js_unfold. by destruct (Boolean _).
Qed.

(** ** The whole pass *)

Lemma updateLayers_phases (w : world) (newLayers : layerArray) :
  exists error error2 error3 error4 generated w1 w2 w3 w4,
    _matchLayers (layers (this w)) newLayers (begin_pass w)
      = (Ok (error, generated), w1) /\
    _finalizeOldLayers (layers (this w)) w1 = (Ok error2, w2) /\
    _updateMatchedLayers generated w2 = (Ok error3, w3) /\
    _initializeNewLayers generated w3 = (Ok error4, w4) /\
    let firstError := js_or (js_or (js_or error error2) error3) error4 in
    updateLayers newLayers w =
      (if Boolean firstError then Throw firstError else Ok tt,
       install generated w4).
Proof.
  destruct (total_matchLayers (layers (this w)) newLayers (begin_pass w))
    as [[e g] E1].
  destruct (_matchLayers _ _ _) as [r1 w1] eqn:M1; simpl in E1; subst r1.
  destruct (total_finalizeOldLayers (layers (this w)) w1) as [e2 E2].
  destruct (_finalizeOldLayers _ _) as [r2 w2] eqn:M2; simpl in E2; subst r2.
  destruct (total_updateMatchedLayers g w2) as [e3 E3].
  destruct (_updateMatchedLayers _ _) as [r3 w3] eqn:M3; simpl in E3; subst r3.
  destruct (total_initializeNewLayers g w3) as [e4 E4].
  destruct (_initializeNewLayers _ _) as [r4 w4] eqn:M4; simpl in E4; subst r4.
  exists e, e2, e3, e4, g, w1, w2, w3, w4. repeat split; try done.
  unfold updateLayers, _updateLayers. js_unfold. fold (begin_pass w).
  rewrite M1, M2, M3, M4. simpl. by destruct (Boolean _).
Qed.

(** ** One layer of the new forest *)

Lemma matchSublayer_visit (obj : ref) (render : rendered) (w : world) :
  _matchSublayer (NewLayer obj render) w =
  (visit obj ;;; matchRendered render) w.
Proof.
  rewrite matchSublayer_unfold. unfold visit, bind.
  repeat (match goal with
          | |- context [match ?m w with _ => _ end] => destruct (m w) as [[?|?] ?]
          | |- context [match ?m ?u with _ => _ end] =>
              destruct (m u) as [[?|?] ?] eqn:?
          end; simpl; try reflexivity).
Qed.

(** A single sublayer is matched as the array of one element that the
    source wraps it in. *)
Lemma single_sublayer_is_array (sublayer : newLayer) (w : world) :
  (_ <- try_catch (_matchSublayer sublayer ;;; ret Null)
                  (fun err => ret (js_or Null err)) ;;
   ret tt) w =
  (_ <- _matchSublayers (ALayer sublayer ANil) Null ;; ret tt) w.
Proof.
  simpl. unfold bind, try_catch, ret.
  by destruct (_matchSublayer sublayer w) as [[[]|err] w1].
Qed.

Ltac upd_simpl :=
  repeat first
    [ rewrite upd_same
    | rewrite upd_other by (first [done | congruence | lia]) ].

(** *** State transfer *)

Lemma transfer_run (w : world) (oldLayer newLayer : ref) (s : sref) :
  state (heap w oldLayer) = Some s -> oldLayer <> newLayer ->
  exists w',
    _transferLayerState oldLayer newLayer w = (Ok tt, w') /\
    heap w' newLayer =
      layer_set_oldProps (Some (props (heap w oldLayer)))
        (layer_set_state (Some s) (heap w newLayer)) /\
    heap w' oldLayer = layer_set_state None (heap w oldLayer) /\
    (forall r, r <> oldLayer -> r <> newLayer -> heap w' r = heap w r) /\
    calls w' = calls w /\ this w' = this w /\
    oldLayerMap w' = oldLayerMap w /\
    generatedLayers w' = generatedLayers w /\
    nextState w' = nextState w.
Proof.
  intros Hs Hne. unfold _transferLayerState. js_unfold. rewrite Hs. simpl.
  assert ((oldLayer =? newLayer)%nat = false) as -> by by apply Nat.eqb_neq.
  simpl. eexists. split; [reflexivity|]. simpl.
  repeat split; upd_simpl; try done.
  intros r H1 H2. by upd_simpl.
Qed.

Lemma moved_state_is_owned (w w' : world) (oldLayer newLayer : ref) (s : sref) :
  state (heap w oldLayer) = Some s -> oldLayer <> newLayer ->
  state (heap w' newLayer) = Some s ->
  state (heap w' oldLayer) = None ->
  (forall r, r <> oldLayer -> r <> newLayer -> heap w' r = heap w r) ->
  nextState w' = nextState w ->
  owned w -> owned w'.
Proof.
  intros Hs Hne Hn Ho Hr Hx [Hso Hal]. split.
  - intros r1 r2 s' G1 G2.
    destruct (decide (r1 = oldLayer)) as [->|N1]; [congruence|].
    destruct (decide (r2 = oldLayer)) as [->|N2]; [congruence|].
    destruct (decide (r1 = newLayer)) as [->|M1];
      destruct (decide (r2 = newLayer)) as [->|M2]; try done.
    + rewrite Hr in G2 by done. rewrite Hn in G1. injection G1 as <-.
      by specialize (Hso _ _ _ Hs G2).
    + rewrite Hr in G1 by done. rewrite Hn in G2. injection G2 as <-.
      by specialize (Hso _ _ _ Hs G1).
    + rewrite Hr in G1, G2 by done. by eapply Hso.
  - intros r s' G. rewrite Hx.
    destruct (decide (r = oldLayer)) as [->|N1]; [congruence|].
    destruct (decide (r = newLayer)) as [->|M1].
    + rewrite Hn in G. injection G as <-. by eapply Hal.
    + rewrite Hr in G by done. by eapply Hal.
Qed.

Lemma transfer_fails (w : world) (oldLayer newLayer : ref) :
  state (heap w oldLayer) = None \/ oldLayer = newLayer ->
  exists message,
    _transferLayerState oldLayer newLayer w = (Throw (ErrorObj message), w).
Proof.
  intros H. unfold _transferLayerState. js_unfold.
  destruct (state (heap w oldLayer)) as [s|] eqn:E; simpl.
  - destruct H as [H|H]; [done|]. subst. rewrite Nat.eqb_refl. simpl. by eexists.
  - by eexists.
Qed.

(** *** Initialization of one layer *)

Lemma initialize_skips (w : world) (layer : ref) :
  state (heap w layer) <> None -> _initializeNewLayer layer w = (Ok Null, w).
Proof.
  intros H. unfold _initializeNewLayer. js_unfold.
  by destruct (state (heap w layer)).
Qed.

Lemma initialize_run (w : world) (layer : ref) :
  exists e w',
    _initializeNewLayer layer w = (Ok e, w') /\
    (forall r, r <> layer -> heap w' r = heap w r) /\
    same_layers w w' /\
    oldProps (heap w' layer) = oldProps (heap w layer) /\
    this w' = this w /\
    oldLayerMap w' = oldLayerMap w /\
    generatedLayers w' = generatedLayers w /\
    calls_extend initialize_call w w' /\
    (owned w -> owned w').
Proof.
  unfold _initializeNewLayer, call_initializeLayer. js_unfold.
  destruct (state (heap w layer)) as [s|] eqn:Es; simpl.
  { do 2 eexists. split; [reflexivity|].
    repeat apply conj; try done; [apply calls_extend_refl]. }
  destruct (initializeLayer_creates (methods (heap w layer))) as [b|] eqn:Ec;
    simpl; upd_simpl; simpl;
    destruct (initializeLayer (methods (heap w layer))) as [|err] eqn:Eo;
    simpl; upd_simpl; simpl; rewrite ?Es; simpl;
    (do 2 eexists; split; [reflexivity|]); simpl.
  all: repeat apply conj; try done; try (by upd_simpl);
    try (by intros r Hr; upd_simpl);
    try (by exists [InitializeLayer layer]; split; [done|repeat constructor]);
    try (intros r; unfold upd; simpl;
         by destruct (r =? layer)%nat eqn:E;
           [apply Nat.eqb_eq in E as ->|]).
  all: try (intros [Hso Hal]; split;
    [ intros r1 r2 s; unfold upd; simpl;
      destruct (r1 =? layer)%nat eqn:E1; destruct (r2 =? layer)%nat eqn:E2;
      simpl; intros G1 G2;
      try apply Nat.eqb_eq in E1; try apply Nat.eqb_eq in E2; subst;
      try done; try (by eapply Hso);
      try (injection G1 as <-; apply Hal in G2; simpl in G2; lia);
      try (injection G2 as <-; apply Hal in G1; simpl in G1; lia)
    | intros r s; unfold upd; simpl; destruct (r =? layer)%nat eqn:E1; simpl;
      intros G; [injection G as <-; lia| apply Hal in G; lia] ]).
Qed.

(** *** The object used as a map *)

Lemma inherited_proto (k : string) :
  String.eqb k "__proto__" = true -> inherited k = true.
Proof. intros H. apply String.eqb_eq in H as ->. reflexivity. Qed.

Lemma get_layer (o : object) (k : string) (r : ref) :
  get o k = LayerValue r <-> own o !! k = Some (Some r).
Proof.
  unfold get. destruct (own o !! k) as [[x|]|]; [|done|].
  - split; by intros [= ->].
  - by destruct (inherits o && inherited k).
Qed.

Lemma get_plain (o : object) (k : string) :
  inherited k = false ->
  get o k =
    match own o !! k with
    | Some (Some r) => LayerValue r
    | Some None => NullValue
    | None => Undefined
    end.
Proof. intros H. unfold get. rewrite H. by rewrite andb_false_r. Qed.

Lemma get_inherited (o : object) (k : string) :
  get o k = Inherited ->
  own o !! k = None /\ inherits o = true /\ inherited k = true.
Proof.
  unfold get. destruct (own o !! k) as [[x|]|]; [done|done|].
  destruct (inherits o), (inherited k); done.
Qed.

Lemma assign_null_plain (o : object) (k : string) :
  inherited k = false ->
  assign_null o k = {| own := <[k := None]> (own o); inherits := inherits o |}.
Proof.
  intros H. unfold assign_null. destruct (own o !! k); [done|].
  destruct (String.eqb k "__proto__") eqn:E.
  - apply inherited_proto in E. congruence.
  - by rewrite andb_false_r.
Qed.

Lemma assign_null_own (o : object) (k : string) (v : option ref) :
  own o !! k = Some v ->
  assign_null o k = {| own := <[k := None]> (own o); inherits := inherits o |}.
Proof. intros H. unfold assign_null. by rewrite H. Qed.

(** Assigning [null] clears the key, if anything, and touches no other. *)
Lemma assign_null_other (o : object) (k k' : string) :
  k' <> k -> own (assign_null o k) !! k' = own o !! k'.
Proof.
  intros H. unfold assign_null. destruct (own o !! k).
  - simpl. by rewrite lookup_insert_ne.
  - destruct (inherits o && String.eqb k "__proto__"); simpl; [done|].
    by rewrite lookup_insert_ne.
Qed.

Lemma assign_null_no_layer (o : object) (k : string) (r : ref) :
  own (assign_null o k) !! k <> Some (Some r).
Proof.
  unfold assign_null. destruct (own o !! k) eqn:E.
  - simpl. by rewrite lookup_insert_eq.
  - destruct (inherits o && String.eqb k "__proto__"); simpl.
    + by rewrite E.
    + by rewrite lookup_insert_eq.
Qed.

Lemma assign_null_layer (o : object) (k k' : string) (r : ref) :
  own (assign_null o k) !! k' = Some (Some r) ->
  k' <> k /\ own o !! k' = Some (Some r).
Proof.
  intros H. destruct (decide (k' = k)) as [->|Hne].
  - by apply assign_null_no_layer in H.
  - split; [done|]. by rewrite assign_null_other in H.
Qed.

(** *** One visit *)

Lemma visit_matched (w : world) (obj o : ref) (s : sref) :
  get (oldLayerMap w) (id (heap w obj)) = LayerValue o ->
  state (heap w o) = Some s -> o <> obj ->
  exists w',
    visit obj w = (Ok tt, w') /\
    heap w' obj =
      layer_set_oldProps (Some (props (heap w o)))
        (layer_set_state (Some s) (heap w obj)) /\
    heap w' o = layer_set_state None (heap w o) /\
    (forall r, r <> o -> r <> obj -> heap w' r = heap w r) /\
    calls w' = calls w ++ [RenderLayers obj] /\
    this w' = this w /\
    oldLayerMap w' = assign_null (oldLayerMap w) (id (heap w obj)) /\
    generatedLayers w' = generatedLayers w ++ [obj] /\
    nextState w' = nextState w.
Proof.
  intros Hm Hs Hne. unfold visit.
  unfold bind at 1, getLayer, gets. simpl.
  unfold bind at 1, gets. simpl. rewrite Hm.
  unfold bind at 1, modify. simpl.
  set (w0 := with_oldLayerMap _ w).
  destruct (transfer_run w0 o obj s Hs Hne)
    as (w1 & E1 & Hn & Ho & Hr & Hc & Ht & Hmap & Hg & Hx).
  unfold bind at 1. rewrite E1.
  unfold bind at 1. rewrite initialize_skips.
  2:{ rewrite Hn. done. }
  js_unfold. eexists. split; [reflexivity|]. simpl.
  repeat split; try done; by f_equal.
Qed.

Lemma visit_unmatched (w : world) (obj : ref) :
  truthy (get (oldLayerMap w) (id (heap w obj))) = false ->
  exists w',
    visit obj w = (Ok tt, w') /\
    (forall r, r <> obj -> heap w' r = heap w r) /\
    same_layers w w' /\
    oldProps (heap w' obj) = oldProps (heap w obj) /\
    calls_extend matching_call w w' /\
    this w' = this w /\
    oldLayerMap w' = assign_null (oldLayerMap w) (id (heap w obj)) /\
    generatedLayers w' = generatedLayers w ++ [obj] /\
    (owned w -> owned w').
Proof.
  intros Hm. unfold visit.
  unfold bind at 1, getLayer, gets. simpl.
  unfold bind at 1, gets. simpl.
  unfold bind at 1, modify. simpl.
  set (w0 := with_oldLayerMap _ w).
  assert ((match get (oldLayerMap w) (id (heap w obj)) with
           | LayerValue old => _transferLayerState old obj
           | Inherited => _transferLayerState_inherited obj
           | Undefined | NullValue => ret tt
           end) w0 = (Ok tt, w0)) as E0.
  { by destruct (get (oldLayerMap w) (id (heap w obj))). }
  unfold bind at 1. rewrite E0.
  destruct (initialize_run w0 obj)
    as (e & w1 & E1 & Hr & Hsame & Hop & Ht & Hmap & Hg & Hc & Hown).
  unfold bind at 1. rewrite E1. js_unfold.
  eexists. split; [reflexivity|]. simpl.
  repeat split; try done; try apply Hsame; try (by f_equal).
  - destruct Hc as (t & Et & Ft). exists (t ++ [RenderLayers obj]). split.
    + rewrite Et. simpl. by rewrite app_assoc.
    + apply Forall_app. split; [|by repeat constructor].
      eapply Forall_impl; [exact Ft|]. by intros [].
  - by apply Hown.
  - by apply Hown.
Qed.

(** A visit that fails a sanity check: the new layer is paired with an old
    layer without state, with itself, or with what the map inherits under
    the layer's id. *)
Lemma visit_fails (w : world) (obj : ref) :
  match get (oldLayerMap w) (id (heap w obj)) with
  | LayerValue o => state (heap w o) = None \/ o = obj
  | Inherited => True
  | Undefined | NullValue => False
  end ->
  exists message,
    visit obj w =
      (Throw (ErrorObj message),
       with_oldLayerMap (assign_null (oldLayerMap w) (id (heap w obj))) w).
Proof.
  intros Hm. unfold visit.
  unfold bind at 1, getLayer, gets. simpl.
  unfold bind at 1, gets. simpl.
  unfold bind at 1, modify. simpl.
  set (w0 := with_oldLayerMap _ w).
  destruct (get (oldLayerMap w) (id (heap w obj))) as [| |o|]; try done.
  - destruct (transfer_fails w0 o obj Hm) as [message Ht].
    exists message. unfold bind at 1. by rewrite Ht.
  - by eexists.
Qed.

(** *** What one visit does, case by case *)

Lemma initializeNewLayer_run (w : world) (layer : ref) :
  exists e w',
    _initializeNewLayer layer w = (Ok e, w') /\
    calls w' =
      calls w ++ (if lacks_state w layer then [InitializeLayer layer] else []) /\
    (forall r, r <> layer -> heap w' r = heap w r) /\
    state (heap w' layer) =
      match state (heap w layer) with
      | Some s => Some s
      | None =>
          if is_Some_b (initializeLayer_creates (methods (heap w layer)))
          then Some (nextState w) else None
      end /\
    oldProps (heap w' layer) = oldProps (heap w layer) /\
    Boolean e = lacks_state w layer && initialize_fails w layer.
Proof.
  destruct (initialize_run w layer)
    as (e & w' & E & Hr & _ & Hop & _ & _ & _ & _ & _).
  exists e, w'. split; [done|]. split_and!; try done; revert E;
    unfold _initializeNewLayer, call_initializeLayer, lacks_state, has_state,
      initialize_fails; js_unfold;
    destruct (state (heap w layer)) as [s|] eqn:Es; simpl;
    try (intros [= <- <-]; simpl; by rewrite ?app_nil_r, ?Es);
    destruct (initializeLayer_creates (methods (heap w layer))) as [b|];
    simpl; upd_simpl; simpl;
    destruct (initializeLayer (methods (heap w layer))) as [|x];
    simpl; upd_simpl; simpl; rewrite ?Es; simpl;
    intros [= <- <-]; simpl; by upd_simpl.
Qed.

Lemma visit_unmatched_run (w : world) (obj : ref) :
  truthy (get (oldLayerMap w) (id (heap w obj))) = false ->
  exists w',
    visit obj w = (Ok tt, w') /\
    calls w' =
      calls w ++ (if lacks_state w obj then [InitializeLayer obj] else []) ++
      [RenderLayers obj] /\
    (forall r, r <> obj -> heap w' r = heap w r) /\
    state (heap w' obj) =
      match state (heap w obj) with
      | Some s => Some s
      | None =>
          if is_Some_b (initializeLayer_creates (methods (heap w obj)))
          then Some (nextState w) else None
      end /\
    oldProps (heap w' obj) = oldProps (heap w obj).
Proof.
  intros Hm. unfold visit.
  unfold bind at 1, getLayer, gets. simpl.
  unfold bind at 1, gets. simpl.
  unfold bind at 1, modify. simpl.
  set (w0 := with_oldLayerMap _ w).
  assert ((match get (oldLayerMap w) (id (heap w obj)) with
           | LayerValue old => _transferLayerState old obj
           | Inherited => _transferLayerState_inherited obj
           | Undefined | NullValue => ret tt
           end) w0 = (Ok tt, w0)) as E0.
  { by destruct (get (oldLayerMap w) (id (heap w obj))). }
  unfold bind at 1. rewrite E0.
  destruct (initializeNewLayer_run w0 obj)
    as (e & w1 & E1 & Hc & Hr & Hs & Hop & _).
  unfold bind at 1. rewrite E1. js_unfold.
  eexists. split; [reflexivity|]. simpl. split_and!; try done.
  rewrite Hc. by rewrite <- app_assoc.
Qed.

(** A visit fails a sanity check, or moves the state of the old layer on
    offer to the new layer, or finds no old layer and initializes the new
    layer if it holds no state.  In each case the layer's id is cleared in
    the map of old layers. *)
Lemma visit_cases (w : world) (obj : ref) :
  (exists message,
     visit obj w =
       (Throw (ErrorObj message),
        with_oldLayerMap (assign_null (oldLayerMap w) (id (heap w obj))) w) /\
     match get (oldLayerMap w) (id (heap w obj)) with
     | LayerValue o => state (heap w o) = None \/ o = obj
     | Inherited => True
     | Undefined | NullValue => False
     end) \/
  (exists o s w',
     get (oldLayerMap w) (id (heap w obj)) = LayerValue o /\
     state (heap w o) = Some s /\ o <> obj /\
     visit obj w = (Ok tt, w') /\
     heap w' obj =
       layer_set_oldProps (Some (props (heap w o)))
         (layer_set_state (Some s) (heap w obj)) /\
     heap w' o = layer_set_state None (heap w o) /\
     (forall r, r <> o -> r <> obj -> heap w' r = heap w r) /\
     calls w' = calls w ++ [RenderLayers obj] /\
     oldLayerMap w' = assign_null (oldLayerMap w) (id (heap w obj)) /\
     generatedLayers w' = generatedLayers w ++ [obj] /\
     nextState w' = nextState w) \/
  (truthy (get (oldLayerMap w) (id (heap w obj))) = false /\
   exists w',
     visit obj w = (Ok tt, w') /\
     calls w' =
       calls w ++ (if lacks_state w obj then [InitializeLayer obj] else []) ++
       [RenderLayers obj] /\
     (forall r, r <> obj -> heap w' r = heap w r) /\
     state (heap w' obj) =
       match state (heap w obj) with
       | Some s => Some s
       | None =>
           if is_Some_b (initializeLayer_creates (methods (heap w obj)))
           then Some (nextState w) else None
       end /\
     oldProps (heap w' obj) = oldProps (heap w obj) /\
     same_layers w w' /\
     oldLayerMap w' = assign_null (oldLayerMap w) (id (heap w obj)) /\
     generatedLayers w' = generatedLayers w ++ [obj]).
Proof.
  destruct (get (oldLayerMap w) (id (heap w obj))) as [| |o|] eqn:Hm.
  - right. right. split; [done|].
    destruct (visit_unmatched_run w obj) as (w' & E & Hc & Hr & Hs & Hop);
      [by rewrite Hm|].
    destruct (visit_unmatched w obj)
      as (w'' & E' & _ & Hsame & _ & _ & _ & Hmap & Hg & _); [by rewrite Hm|].
    rewrite E in E'. injection E' as <-. by exists w'.
  - right. right. split; [done|].
    destruct (visit_unmatched_run w obj) as (w' & E & Hc & Hr & Hs & Hop);
      [by rewrite Hm|].
    destruct (visit_unmatched w obj)
      as (w'' & E' & _ & Hsame & _ & _ & _ & Hmap & Hg & _); [by rewrite Hm|].
    rewrite E in E'. injection E' as <-. by exists w'.
  - destruct (state (heap w o)) as [s|] eqn:Hs.
    + destruct (decide (o = obj)) as [->|Hne].
      * left. destruct (visit_fails w obj) as [message E].
        { rewrite Hm. by right. }
        exists message. split; [done|]. by right.
      * right. left.
        destruct (visit_matched w obj o s Hm Hs Hne)
          as (w' & E & Hobj & Ho & Hfr & Hc & Ht & Hmap & Hg & Hx).
        by exists o, s, w'.
    + left. destruct (visit_fails w obj) as [message E].
      { rewrite Hm. by left. }
      exists message. split; [done|]. by left.
  - left. destruct (visit_fails w obj) as [message E]; [by rewrite Hm|].
    by exists message.
Qed.

(** What every visit leaves alone, whether it returns or throws. *)
Lemma visit_frame (w : world) (obj : ref) :
  oldLayerMap (snd (visit obj w)) =
    assign_null (oldLayerMap w) (id (heap w obj)) /\
  same_layers w (snd (visit obj w)) /\
  (forall r, r <> obj ->
     get (oldLayerMap w) (id (heap w obj)) <> LayerValue r ->
     heap (snd (visit obj w)) r = heap w r) /\
  (state (heap w obj) <> None ->
   truthy (get (oldLayerMap w) (id (heap w obj))) = false ->
   state (heap (snd (visit obj w)) obj) = state (heap w obj)) /\
  (generatedLayers (snd (visit obj w)) = generatedLayers w \/
   generatedLayers (snd (visit obj w)) = generatedLayers w ++ [obj]).
Proof.
  destruct (visit_cases w obj)
    as [(msg & -> & _)|
        [(o & s & w' & Hm & Hs & Hne & -> & Hobj & Ho & Hfr & _ & Hmap & Hg & _)|
         (Hf & w' & -> & _ & Hfr & Hst & _ & Hsame & Hmap & Hg)]]; simpl.
  - split_and!; try done. by left.
  - split_and!; try done.
    + intros r. destruct (decide (r = o)) as [->|N1]; [by rewrite Ho|].
      destruct (decide (r = obj)) as [->|N2]; [by rewrite Hobj|].
      by rewrite Hfr.
    + intros r N1 N2. apply Hfr; [congruence|done].
    + intros _ Hf. by rewrite Hm in Hf.
    + by right.
  - split_and!; try done.
    + intros r N1 _. by apply Hfr.
    + intros Hs _. rewrite Hst. by destruct (state (heap w obj)).
    + by right.
Qed.

Lemma same_layers_refl (w : world) : same_layers w w.
Proof. by intros r. Qed.

Lemma same_layers_trans (w1 w2 w3 : world) :
  same_layers w1 w2 -> same_layers w2 w3 -> same_layers w1 w3.
Proof.
  intros H1 H2 r. destruct (H1 r) as (? & ? & ?), (H2 r) as (? & ? & ?).
  repeat split; congruence.
Qed.

Lemma named_same_layers (name : ref -> string) (w w' : world) :
  named name w -> same_layers w w' -> named name w'.
Proof. intros Hn Hs r. destruct (Hs r) as [-> _]. apply Hn. Qed.

Lemma visit_step (name : ref -> string) (news : list ref) (w : world) (obj : ref) :
  named name w -> ready news w -> obj ∈ news ->
  exists w1,
    visit obj w = (Ok tt, w1) /\
    named name w1 /\ ready news w1 /\ same_layers w w1 /\
    this w1 = this w /\
    generatedLayers w1 = generatedLayers w ++ [obj] /\
    own (oldLayerMap w1) = <[name obj := None]> (own (oldLayerMap w)) /\
    (owned w -> owned w1) /\
    (forall r, r <> obj -> own (oldLayerMap w) !! name obj <> Some (Some r) ->
               heap w1 r = heap w r) /\
    (forall o, own (oldLayerMap w) !! name obj = Some (Some o) ->
               state (heap w1 obj) = state (heap w o) /\
               oldProps (heap w1 obj) = Some (props (heap w o)) /\
               state (heap w1 o) = None /\
               calls w1 = calls w ++ [RenderLayers obj]) /\
    calls_extend matching_call w w1.
Proof.
  intros Hn [Hplain Hr] Hin.
  assert (inherited (name obj) = false) as Hp.
  { rewrite <- Hn. by apply Hplain. }
  assert (forall w1,
            same_layers w w1 ->
            own (oldLayerMap w1) = <[name obj := None]> (own (oldLayerMap w)) ->
            (forall r, r <> obj ->
               own (oldLayerMap w) !! name obj <> Some (Some r) ->
               heap w1 r = heap w r) ->
            ready news w1) as Hready.
  { intros w1 Hsame Hmap Hfr. split.
    - intros n Hn'. destruct (Hsame n) as [-> _]. by apply Hplain.
    - intros k' o' Hk'. rewrite Hmap in Hk'.
      destruct (decide (name obj = k')) as [<-|Nk].
      { by rewrite lookup_insert_eq in Hk'. }
      rewrite lookup_insert_ne in Hk' by done.
      destruct (Hr _ _ Hk') as (Hid' & Hnews').
      assert (o' <> obj) as N1.
      { intros ->. rewrite Hn in Hid'. done. }
      assert (heap w1 o' = heap w o') as Eo'.
      { apply Hfr; [done|]. intros Hp'.
        destruct (Hr _ _ Hp') as [Hid2 _]. congruence. }
      split; [by rewrite Eo'|].
      intros n Hn' Hidn. destruct (Hsame n) as [En _]. rewrite En in Hidn.
      rewrite Eo'. by apply Hnews'. }
  destruct (own (oldLayerMap w) !! name obj) as [[o|]|] eqn:Hm.
  - (* matched *)
    destruct (Hr _ _ Hm) as (Hid & Hnews).
    destruct (Hnews obj Hin (Hn obj)) as [Hne Hst].
    destruct (state (heap w o)) as [s|] eqn:Hs; [|done].
    destruct (visit_matched w obj o s) as
      (w1 & E & Hobj & Ho & Hfr & Hc & Ht & Hmap & Hg & Hx);
      [by rewrite Hn; apply get_layer|done|done|].
    rewrite Hn, (assign_null_plain _ _ Hp) in Hmap.
    assert (same_layers w w1) as Hsame.
    { intros r. destruct (decide (r = o)) as [->|N1]; [by rewrite Ho|].
      destruct (decide (r = obj)) as [->|N2]; [by rewrite Hobj|].
      by rewrite Hfr. }
    assert (forall r, r <> obj ->
              Some (Some o) <> Some (Some r) -> heap w1 r = heap w r) as Hfr'.
    { intros r N1 N2. apply Hfr; [congruence|done]. }
    exists w1. split_and!; try done.
    + by eapply named_same_layers.
    + apply Hready; [done|by rewrite Hmap|done].
    + by rewrite Hmap.
    + eapply moved_state_is_owned; eauto.
      * by rewrite Hobj.
      * by rewrite Ho.
    + intros o2 [= <-]. split_and!; try done.
      * by rewrite Hobj, Hs.
      * by rewrite Hobj.
      * by rewrite Ho.
    + exists [RenderLayers obj]. split; [done|]. by repeat constructor.
  - (* the slot is used up *)
    destruct (visit_unmatched w obj) as
      (w1 & E & Hfr & Hsame & Hop & Hc & Ht & Hmap & Hg & Hown).
    { rewrite Hn, (get_plain _ _ Hp). by rewrite Hm. }
    rewrite Hn, (assign_null_plain _ _ Hp) in Hmap.
    exists w1. split_and!; try done.
    + by eapply named_same_layers.
    + apply Hready; [done|by rewrite Hmap|]. intros r N1 _. by apply Hfr.
    + by rewrite Hmap.
    + intros r N1 _. by apply Hfr.
  - (* no old layer of this id *)
    destruct (visit_unmatched w obj) as
      (w1 & E & Hfr & Hsame & Hop & Hc & Ht & Hmap & Hg & Hown).
    { rewrite Hn, (get_plain _ _ Hp). by rewrite Hm. }
    rewrite Hn, (assign_null_plain _ _ Hp) in Hmap.
    exists w1. split_and!; try done.
    + by eapply named_same_layers.
    + apply Hready; [done|by rewrite Hmap|]. intros r N1 _. by apply Hfr.
    + by rewrite Hmap.
    + intros r N1 _. by apply Hfr.
Qed.

(** *** The matching of a forest is a sequence of visits *)

Lemma visits_cons (obj : ref) (objs : list ref) (w : world) :
  visits (obj :: objs) w = visits objs (exec (visit obj) w).
Proof. reflexivity. Qed.

Lemma visits_app (xs ys : list ref) (w : world) :
  visits (xs ++ ys) w = visits ys (visits xs w).
Proof. unfold visits. by rewrite foldl_app. Qed.

Lemma visits_ready (name : ref -> string) (news objs : list ref) (w : world) :
  named name w -> ready news w -> (forall n, n ∈ objs -> n ∈ news) ->
  named name (visits objs w) /\ ready news (visits objs w).
Proof.
  revert w. induction objs as [|obj objs IH]; intros w Hn Hr Hsub; [done|].
  rewrite visits_cons.
  destruct (visit_step name news w obj Hn Hr) as (w1 & E & Hn1 & Hr1 & _).
  { apply Hsub. by left. }
  unfold exec. rewrite E. simpl. apply IH; try done.
  intros n Hin. apply Hsub. by right.
Qed.

Lemma matching_is_visiting (name : ref -> string) (news : list ref) :
  (forall l w,
     named name w -> ready news w ->
     (forall n, n ∈ flattenLayer l -> n ∈ news) ->
     snd (_matchSublayer l w) = visits (flattenLayer l) w) /\
  (forall render w,
     named name w -> ready news w ->
     (forall n, n ∈ flattenRendered render -> n ∈ news) ->
     snd (matchRendered render w) = visits (flattenRendered render) w) /\
  (forall ls e w,
     named name w -> ready news w ->
     (forall n, n ∈ flatten ls -> n ∈ news) ->
     snd (_matchSublayers ls e w) = visits (flatten ls) w).
Proof.
  apply forest_mutind.
  - intros obj render IH w Hn Hr Hsub.
    rewrite matchSublayer_visit. simpl flattenLayer. rewrite visits_cons.
    destruct (visit_step name news w obj Hn Hr) as (w1 & E & Hn1 & Hr1 & _).
    { apply Hsub. by left. }
    unfold bind, exec. rewrite E. simpl. apply IH; try done.
    intros n Hin. apply Hsub. by right.
  - done.
  - done.
  - intros sub IH w Hn Hr Hsub. simpl.
    specialize (IH w Hn Hr Hsub). unfold bind, try_catch, ret.
    by destruct (_matchSublayer sub w) as [[[]|err] w1].
  - intros subs IH w Hn Hr Hsub. simpl.
    specialize (IH Null w Hn Hr Hsub). unfold bind, ret.
    by destruct (_matchSublayers subs Null w) as [[e|err] w1].
  - done.
  - intros rest IH e w Hn Hr Hsub. simpl. by apply IH.
  - intros l IHl rest IHrest e w Hn Hr Hsub. simpl.
    rewrite visits_app.
    assert (forall n, n ∈ flattenLayer l -> n ∈ news) as Hl.
    { intros n Hin. apply Hsub. simpl. apply elem_of_app. by left. }
    assert (forall n, n ∈ flatten rest -> n ∈ news) as Hrest.
    { intros n Hin. apply Hsub. simpl. apply elem_of_app. by right. }
    specialize (IHl w Hn Hr Hl).
    destruct (visits_ready name news (flattenLayer l) w Hn Hr Hl) as [Hn1 Hr1].
    unfold bind, try_catch, ret.
    destruct (_matchSublayer l w) as [[[]|err] w1]; simpl in *; subst w1;
      by apply IHrest.
Qed.

Lemma visits_basic (name : ref -> string) (news objs : list ref) (w : world) :
  named name w -> ready news w -> (forall n, n ∈ objs -> n ∈ news) ->
  generatedLayers (visits objs w) = generatedLayers w ++ objs /\
  this (visits objs w) = this w /\
  same_layers w (visits objs w) /\
  (owned w -> owned (visits objs w)) /\
  calls_extend matching_call w (visits objs w) /\
  (forall k, k ∈ map name objs -> own (oldLayerMap (visits objs w)) !! k = Some None) /\
  (forall k, k ∉ map name objs ->
             own (oldLayerMap (visits objs w)) !! k = own (oldLayerMap w) !! k) /\
  (forall r, r ∉ objs ->
             (forall n, n ∈ objs -> own (oldLayerMap w) !! name n <> Some (Some r)) ->
             heap (visits objs w) r = heap w r).
Proof.
  revert w. induction objs as [|obj objs IH]; intros w Hn Hr Hsub.
  { simpl. split_and!; try done.
    - by rewrite app_nil_r.
    - apply calls_extend_refl.
    - intros k Hk. by apply elem_of_nil in Hk. }
  rewrite visits_cons.
  destruct (visit_step name news w obj Hn Hr)
    as (w1 & E & Hn1 & Hr1 & Hs1 & Ht1 & Hg1 & Hm1 & Ho1 & Hf1 & Hp1 & Hc1).
  { apply Hsub. by left. }
  unfold exec. rewrite E. simpl snd.
  destruct (IH w1 Hn1 Hr1) as (Hg & Ht & Hs & Ho & Hc & Hk1 & Hk2 & Hf).
  { intros n Hin. apply Hsub. by right. }
  split_and!.
  - rewrite Hg, Hg1. by rewrite <- app_assoc.
  - congruence.
  - by eapply same_layers_trans.
  - auto.
  - by eapply calls_extend_trans.
  - intros k Hk. simpl in Hk.
    destruct (decide (k ∈ map name objs)) as [Hin|Hnin]; [by apply Hk1|].
    rewrite Hk2 by done. apply elem_of_cons in Hk as [->|?]; [|done].
    by rewrite Hm1, lookup_insert_eq.
  - intros k Hk. simpl in Hk. apply not_elem_of_cons in Hk as [Hne Hk].
    rewrite Hk2 by done. rewrite Hm1. by rewrite lookup_insert_ne.
  - intros r Hnin Hpart. apply not_elem_of_cons in Hnin as [Hne Hnin].
    rewrite Hf; [apply Hf1; [done|]|done|].
    + apply Hpart. by left.
    + intros n Hin. rewrite Hm1.
      destruct (decide (name obj = name n)) as [Heq|Hneq].
      * rewrite Heq. by rewrite lookup_insert_eq.
      * rewrite lookup_insert_ne by done. apply Hpart. by right.
Qed.

Lemma visits_pairs (name : ref -> string) (news objs : list ref) (w : world) :
  named name w -> ready news w -> (forall n, n ∈ objs -> n ∈ news) ->
  NoDup (map name objs) ->
  forall n o,
    n ∈ objs -> own (oldLayerMap w) !! name n = Some (Some o) ->
    state (heap (visits objs w) n) = state (heap w o) /\
    oldProps (heap (visits objs w) n) = Some (props (heap w o)) /\
    state (heap (visits objs w) o) = None.
Proof.
  revert w. induction objs as [|obj objs IH]; intros w Hn Hr Hsub Hnd n o Hin Hm.
  { by apply elem_of_nil in Hin. }
  rewrite visits_cons. simpl in Hnd. apply NoDup_cons in Hnd as [Hfirst Hnd].
  destruct (visit_step name news w obj Hn Hr)
    as (w1 & E & Hn1 & Hr1 & Hs1 & Ht1 & Hg1 & Hm1 & Ho1 & Hf1 & Hp1 & Hc1).
  { apply Hsub. by left. }
  unfold exec. rewrite E. simpl snd.
  assert (forall n, n ∈ objs -> n ∈ news) as Hsub'.
  { intros ? ?. apply Hsub. by right. }
  assert (forall m r, own (oldLayerMap w) !! name m = Some (Some r) ->
                      name r = name m) as Hfiled.
  { intros m r H. destruct Hr as [_ Hr]. destruct (Hr _ _ H) as [Hid' _].
    by rewrite Hn in Hid'. }
  pose proof (Hfiled _ _ Hm) as Hid.
  destruct (visits_basic name news objs w1 Hn1 Hr1 Hsub')
    as (_ & _ & _ & _ & _ & _ & _ & Hf).
  apply elem_of_cons in Hin as [->|Hin].
  - (* the layer visited first: what its visit did stays *)
    destruct (Hp1 _ Hm) as (P1 & P2 & P3 & _).
    assert (obj ∉ objs) as Hobj.
    { intros Hin. apply Hfirst. apply list_elem_of_fmap. by exists obj. }
    assert (heap (visits objs w1) obj = heap w1 obj) as K1.
    { apply Hf; [done|]. intros n Hin Hp. rewrite Hm1 in Hp.
      destruct (decide (name obj = name n)) as [Heq|Hneq].
      - rewrite Heq in Hp. by rewrite lookup_insert_eq in Hp.
      - rewrite lookup_insert_ne in Hp by done. by apply Hfiled in Hp. }
    assert (heap (visits objs w1) o = heap w1 o) as K2.
    { apply Hf.
      - intros Hin. apply Hfirst. rewrite <- Hid. apply list_elem_of_fmap.
        by exists o.
      - intros n Hin Hp. rewrite Hm1 in Hp.
        destruct (decide (name obj = name n)) as [Heq|Hneq].
        + rewrite Heq in Hp. by rewrite lookup_insert_eq in Hp.
        + rewrite lookup_insert_ne in Hp by done. apply Hfiled in Hp.
          apply Hfirst. rewrite <- Hid, Hp. apply list_elem_of_fmap.
          by exists n. }
    by rewrite K1, K2.
  - (* a layer visited later *)
    assert (name obj <> name n) as Hneq.
    { intros Heq. apply Hfirst. rewrite Heq. apply list_elem_of_fmap.
      by exists n. }
    assert (heap w1 o = heap w o) as Ho.
    { apply Hf1.
      - intros ->. done.
      - intros Hp. apply Hfiled in Hp. congruence. }
    rewrite <- Ho. apply IH; try done.
    rewrite Hm1. by rewrite lookup_insert_ne.
Qed.

Lemma visits_calls (name : ref -> string) (news objs : list ref) (w : world) :
  named name w -> ready news w -> (forall n, n ∈ objs -> n ∈ news) ->
  NoDup (map name objs) ->
  (forall n, n ∈ objs -> exists o, own (oldLayerMap w) !! name n = Some (Some o)) ->
  calls (visits objs w) = calls w ++ map RenderLayers objs.
Proof.
  revert w. induction objs as [|obj objs IH]; intros w Hn Hr Hsub Hnd Hall.
  { simpl. by rewrite app_nil_r. }
  rewrite visits_cons. simpl in Hnd. apply NoDup_cons in Hnd as [Hfirst Hnd].
  destruct (visit_step name news w obj Hn Hr)
    as (w1 & E & Hn1 & Hr1 & Hs1 & Ht1 & Hg1 & Hm1 & Ho1 & Hf1 & Hp1 & Hc1).
  { apply Hsub. by left. }
  unfold exec. rewrite E. simpl snd.
  destruct (Hall obj) as [o Ho]; [by left|].
  destruct (Hp1 _ Ho) as (_ & _ & _ & Hc).
  rewrite IH; try done.
  - rewrite Hc. simpl. by rewrite <- app_assoc.
  - intros n Hin. apply Hsub. by right.
  - intros n Hin. destruct (Hall n) as [o' Ho']; [by right|]. exists o'.
    rewrite Hm1, lookup_insert_ne; [done|].
    intros Heq. apply Hfirst. rewrite Heq. apply list_elem_of_fmap.
    by exists n.
Qed.

(** *** The map of old layers *)

Lemma old_map_snoc (name : ref -> string) (olds : list ref) (o : ref) :
  old_map name (olds ++ [o]) = file_old name (old_map name olds) o.
Proof. unfold old_map. by rewrite foldl_app. Qed.

Lemma file_old_files_only (name : ref -> string) (m : object) (o : ref) :
  files_only m -> files_only (file_old name m o).
Proof.
  intros [Hi Hown]. unfold file_old.
  destruct (truthy (get m (name o))) eqn:E; [done|].
  split; [done|]. intros k v. simpl.
  destruct (decide (name o = k)) as [<-|Hne].
  - rewrite lookup_insert_eq. intros [= <-]. split; [|done].
    unfold get in E. destruct (own m !! name o) as [[x|]|] eqn:Ek; try done.
    + by apply Hown in Ek as [_ ?].
    + rewrite Hi in E. simpl in E. by destruct (inherited (name o)).
  - rewrite lookup_insert_ne by done. apply Hown.
Qed.

Lemma file_old_lookup (name : ref -> string) (olds : list ref) (m : object)
  (k : string) :
  files_only m ->
  files_only (foldl (file_old name) m olds) /\
  own (foldl (file_old name) m olds) !! k =
    match own m !! k with
    | Some v => Some v
    | None =>
        if inherited k then None
        else Some <$>
               head (List.filter (fun o => bool_decide (name o = k)) olds)
    end.
Proof.
  revert m. induction olds as [|o olds IH]; intros m Hm; simpl.
  { split; [done|]. destruct (own m !! k); [done|]. by destruct (inherited k). }
  pose proof (file_old_files_only name m o Hm) as Hm'.
  destruct (IH _ Hm') as [Hf ->]. split; [done|].
  destruct Hm as [Hi Hown]. unfold file_old.
  destruct (truthy (get m (name o))) eqn:E.
  - destruct (own m !! k) as [v|] eqn:Ek; [done|].
    destruct (inherited k) eqn:Ik; [done|].
    case_bool_decide as Hk; [|done]. subst k.
    rewrite (get_plain _ _ Ik), Ek in E. done.
  - simpl. destruct (decide (name o = k)) as [<-|Hne].
    + rewrite lookup_insert_eq.
      unfold get in E. destruct (own m !! name o) as [[x|]|] eqn:Ek.
      * done.
      * by apply Hown in Ek as [_ ?].
      * rewrite Hi in E. simpl in E.
        destruct (inherited (name o)); [done|].
        by rewrite bool_decide_eq_true_2.
    + rewrite lookup_insert_ne by done.
      by rewrite bool_decide_eq_false_2.
Qed.

Lemma empty_files_only : files_only empty_object.
Proof. split; [done|]. intros k v. simpl. by rewrite lookup_empty. Qed.

(** The old layer on offer under an id is the first layer of the old forest
    that bears it; under a name that plain objects inherit nothing is
    filed. *)
Lemma old_map_lookup (name : ref -> string) (olds : list ref) (k : string) :
  inherits (old_map name olds) = true /\
  own (old_map name olds) !! k =
    if inherited k then None
    else Some <$> head (List.filter (fun o => bool_decide (name o = k)) olds).
Proof.
  unfold old_map.
  destruct (file_old_lookup name olds empty_object k empty_files_only)
    as [[Hi _] ->]. split; [done|]. simpl. by rewrite lookup_empty.
Qed.

Lemma head_filter_sound (f : ref -> bool) (ls : list ref) (o : ref) :
  head (List.filter f ls) = Some o -> o ∈ ls /\ f o = true.
Proof.
  intros H. assert (In o (List.filter f ls)) as Hin.
  { destruct (List.filter f ls); [done|]. injection H as ->. by left. }
  apply filter_In in Hin as [Hin Hf]. by rewrite list_elem_of_In.
Qed.

Lemma old_map_sound (name : ref -> string) (olds : list ref) (k : string) (o : ref) :
  own (old_map name olds) !! k = Some (Some o) ->
  o ∈ olds /\ name o = k /\ inherited k = false.
Proof.
  destruct (old_map_lookup name olds k) as [_ ->].
  destruct (inherited k); [done|].
  destruct (head _) as [x|] eqn:E; [|done]. intros [= <-].
  apply head_filter_sound in E as [Hin Hk].
  apply bool_decide_eq_true in Hk. done.
Qed.

Lemma old_map_complete (name : ref -> string) (olds : list ref) (o : ref) :
  NoDup (map name olds) -> o ∈ olds -> inherited (name o) = false ->
  own (old_map name olds) !! name o = Some (Some o).
Proof.
  intros Hnd Hin Hp.
  destruct (old_map_lookup name olds (name o)) as [_ ->]. rewrite Hp.
  clear Hp. induction olds as [|o' olds IH]; [by apply elem_of_nil in Hin|].
  simpl in Hnd. apply NoDup_cons in Hnd as [Hfirst Hnd]. simpl.
  apply elem_of_cons in Hin as [->|Hin].
  - by rewrite bool_decide_eq_true_2.
  - rewrite bool_decide_eq_false_2; [by apply IH|].
    intros Heq. apply Hfirst. rewrite Heq. apply list_elem_of_fmap.
    by exists o.
Qed.

Lemma file_old_loop (name : ref -> string) (olds : list ref)
  (m : object) (w : world) :
  named name w ->
  for_of olds
    (fun oldLayer (_ : unit) =>
       l <- getLayer oldLayer ;;
       m <- gets oldLayerMap ;;
       if truthy (get m (id l)) then ret tt
       else modify (with_oldLayerMap (assign_layer m (id l) oldLayer)))
    tt (with_oldLayerMap m w)
  = (Ok tt, with_oldLayerMap (foldl (file_old name) m olds) w).
Proof.
  intros Hn. revert m. induction olds as [|o olds IH]; intros m; [done|].
  simpl. js_unfold. rewrite Hn. unfold file_old at 2.
  destruct (truthy (get m (name o))); simpl; apply IH.
Qed.

Lemma matchLayers_run (name : ref -> string) (olds : list ref)
  (newLayers : layerArray) (w : world) :
  named name w ->
  exists e w1,
    _matchSublayers newLayers Null
      (with_generatedLayers [] (with_oldLayerMap (old_map name olds) w))
      = (Ok e, w1) /\
    _matchLayers olds newLayers w = (Ok (e, generatedLayers w1), w1).
Proof.
  intros Hn.
  set (w0 := with_generatedLayers [] (with_oldLayerMap (old_map name olds) w)).
  destruct (total_matchSublayers newLayers Null w0) as [e He].
  destruct (_matchSublayers newLayers Null w0) as [r w1] eqn:E.
  simpl in He. subst r. exists e, w1. split; [done|].
  unfold _matchLayers. unfold bind at 1. unfold modify at 1. cbv beta iota.
  unfold bind at 1.
  rewrite (file_old_loop name olds empty_object w Hn).
  fold (old_map name olds).
  js_unfold. fold w0. by rewrite E.
Qed.

(** No sanity check fails in the pass when no id of the new forest is an
    inherited name and the old layer on offer to a new layer, if there is
    one, is another object and holds state. *)
Lemma old_map_ready (name : ref -> string) (olds news : list ref) (w : world) :
  named name w ->
  (forall n, n ∈ news -> inherited (name n) = false) ->
  (forall n o,
     n ∈ news ->
     head (List.filter (fun o => bool_decide (name o = name n)) olds) = Some o ->
     o <> n /\ state (heap w o) <> None) ->
  ready news
    (with_generatedLayers [] (with_oldLayerMap (old_map name olds) w)).
Proof.
  intros Hn Hplain Hoffer. split.
  - intros n Hin. simpl. rewrite Hn. by apply Hplain.
  - intros k o Hk. simpl in *.
    pose proof (old_map_sound _ _ _ _ Hk) as (Hin & Hname & Hp).
    split; [by rewrite Hn|].
    intros n Hnew Hid. rewrite Hn in Hid. rewrite <- Hid in Hk, Hp.
    apply Hoffer; [done|].
    destruct (old_map_lookup name olds (name n)) as [_ E].
    rewrite E, Hp in Hk. by destruct (head _) as [x|]; [injection Hk as ->|].
Qed.

(** The usual case: every old layer holds state and the new forest consists
    of new objects. *)
Lemma old_map_ready_fresh (name : ref -> string) (olds news : list ref)
  (w : world) :
  named name w ->
  (forall n, n ∈ news -> inherited (name n) = false) ->
  (forall o, o ∈ olds -> state (heap w o) <> None) ->
  (forall n, n ∈ news -> n ∉ olds) ->
  ready news
    (with_generatedLayers [] (with_oldLayerMap (old_map name olds) w)).
Proof.
  intros Hn Hplain Hst Hfresh. apply old_map_ready; try done.
  intros n o Hin Ho. apply head_filter_sound in Ho as [Ho _]. split.
  - intros ->. by apply (Hfresh n).
  - by apply Hst.
Qed.

(** *** Invariants of matching *)

(** A property of the world that every visit keeps, whether the visit
    returns or throws, is kept by the matching of a forest. *)
Lemma matching_keeps (Q : ref -> Prop) (J : world -> Prop) :
  (forall obj w, Q obj -> J w -> J (snd (visit obj w))) ->
  (forall l w,
     (forall m, m ∈ flattenLayer l -> Q m) -> J w ->
     J (snd (_matchSublayer l w))) /\
  (forall render w,
     (forall m, m ∈ flattenRendered render -> Q m) -> J w ->
     J (snd (matchRendered render w))) /\
  (forall ls e w,
     (forall m, m ∈ flatten ls -> Q m) -> J w ->
     J (snd (_matchSublayers ls e w))).
Proof.
  intros Hv. apply forest_mutind.
  - intros obj render IH w HQ HJ. rewrite matchSublayer_visit. unfold bind.
    assert (Q obj) as Hobj by (apply HQ; by left).
    pose proof (Hv obj w Hobj HJ) as H1.
    destruct (visit obj w) as [[[]|e] w1]; simpl in *; [|done].
    apply IH; [|done]. intros m Hm. apply HQ. by right.
  - by intros err w _ HJ.
  - by intros w _ HJ.
  - intros sub IH w HQ HJ. simpl. specialize (IH w HQ HJ).
    unfold bind, try_catch, ret.
    by destruct (_matchSublayer sub w) as [[[]|err] w1].
  - intros subs IH w HQ HJ. simpl. specialize (IH Null w HQ HJ).
    unfold bind, ret.
    by destruct (_matchSublayers subs Null w) as [[e|err] w1].
  - by intros e w _ HJ.
  - intros rest IH e w HQ HJ. simpl. by apply IH.
  - intros l IHl rest IHrest e w HQ HJ. simpl.
    assert (forall m, m ∈ flattenLayer l -> Q m) as Hl.
    { intros m Hm. apply HQ. simpl. apply elem_of_app. by left. }
    assert (forall m, m ∈ flatten rest -> Q m) as Hrest.
    { intros m Hm. apply HQ. simpl. apply elem_of_app. by right. }
    specialize (IHl w Hl HJ). unfold bind, try_catch, ret.
    destruct (_matchSublayer l w) as [[[]|err] w1]; simpl in *;
      by apply IHrest.
Qed.

(** *** Matching without a failing sanity check *)

Lemma first_of_its_id_head (w : world) (obj : ref) (rest : list ref) :
  first_of_its_id w (obj :: rest) obj.
Proof.
  exists [], rest. split; [done|]. intros m Hm. by apply elem_of_nil in Hm.
Qed.

Lemma first_of_its_id_later (w : world) (obj n : ref) (rest : list ref) :
  first_of_its_id w rest n -> id (heap w obj) <> id (heap w n) ->
  first_of_its_id w (obj :: rest) n.
Proof.
  intros (pre & post & -> & Hpre) Hne. exists (obj :: pre), post.
  split; [done|]. intros m Hm. apply elem_of_cons in Hm as [->|Hm]; [done|].
  by apply Hpre.
Qed.

Lemma first_of_its_id_same_layers (w w1 : world) (news : list ref) (n : ref) :
  same_layers w w1 -> first_of_its_id w1 news n -> first_of_its_id w news n.
Proof.
  intros Hs (pre & post & -> & Hpre). exists pre, post. split; [done|].
  intros m Hm. specialize (Hpre m Hm).
  destruct (Hs m) as [Em _], (Hs n) as [En _]. congruence.
Qed.

Lemma visit_clear (w : world) (obj : ref) (rest : list ref) :
  clear_ahead (obj :: rest) w ->
  exists w1,
    visit obj w = (Ok tt, w1) /\
    clear_ahead rest w1 /\
    generatedLayers w1 = generatedLayers w ++ [obj].
Proof.
  intros [Hfiled Hfirst].
  destruct (Hfirst obj (first_of_its_id_head w obj rest)) as [Hp Hoffer].
  assert (exists w1,
            visit obj w = (Ok tt, w1) /\ same_layers w w1 /\
            own (oldLayerMap w1) = <[id (heap w obj) := None]> (own (oldLayerMap w)) /\
            generatedLayers w1 = generatedLayers w ++ [obj] /\
            forall r, id (heap w r) <> id (heap w obj) -> heap w1 r = heap w r)
    as (w1 & E & Hsame & Hmap & Hg & Hfr).
  { destruct (own (oldLayerMap w) !! id (heap w obj)) as [[o|]|] eqn:Hm.
    - destruct (Hoffer o eq_refl) as [Hne Hst].
      destruct (state (heap w o)) as [s|] eqn:Hs; [|done].
      destruct (visit_matched w obj o s) as
        (w1 & E & Hobj & Ho & Hfr & Hc & Ht & Hmap & Hg & Hx);
        [by apply get_layer|done|done|].
      rewrite (assign_null_plain _ _ Hp) in Hmap.
      exists w1. split_and!; try done.
      + intros r. destruct (decide (r = o)) as [->|N1]; [by rewrite Ho|].
        destruct (decide (r = obj)) as [->|N2]; [by rewrite Hobj|].
        by rewrite Hfr.
      + by rewrite Hmap.
      + intros r Hr. apply Hfr; [|congruence].
        intros ->. apply Hr. by apply Hfiled.
    - destruct (visit_unmatched w obj) as
        (w1 & E & Hfr & Hsame & Hop & Hc & Ht & Hmap & Hg & Hown).
      { rewrite (get_plain _ _ Hp). by rewrite Hm. }
      rewrite (assign_null_plain _ _ Hp) in Hmap.
      exists w1. split_and!; try done.
      + by rewrite Hmap.
      + intros r Hr. apply Hfr. congruence.
    - destruct (visit_unmatched w obj) as
        (w1 & E & Hfr & Hsame & Hop & Hc & Ht & Hmap & Hg & Hown).
      { rewrite (get_plain _ _ Hp). by rewrite Hm. }
      rewrite (assign_null_plain _ _ Hp) in Hmap.
      exists w1. split_and!; try done.
      + by rewrite Hmap.
      + intros r Hr. apply Hfr. congruence. }
  exists w1. split_and!; try done. split.
  - intros k o Hk. rewrite Hmap in Hk.
    destruct (decide (id (heap w obj) = k)) as [<-|Nk].
    { by rewrite lookup_insert_eq in Hk. }
    rewrite lookup_insert_ne in Hk by done.
    destruct (Hsame o) as [-> _]. by apply Hfiled.
  - intros n Hn.
    apply (first_of_its_id_same_layers w) in Hn; [|done].
    destruct (Hsame n) as [En _]. rewrite En, Hmap.
    destruct (decide (id (heap w obj) = id (heap w n))) as [Heq|Hne].
    + rewrite <- Heq. split; [done|]. intros o.
      by rewrite lookup_insert_eq.
    + rewrite lookup_insert_ne by done.
      destruct (Hfirst n (first_of_its_id_later w obj n rest Hn Hne))
        as [Hpn Hon].
      split; [done|]. intros o Ho. destruct (Hon o Ho) as [N1 Hst].
      split; [done|]. rewrite Hfr; [done|].
      rewrite (Hfiled _ _ Ho). congruence.
Qed.

Lemma matching_clear :
  (forall l tail w,
     clear_ahead (flattenLayer l ++ tail) w ->
     generatedLayers (snd (_matchSublayer l w)) =
       generatedLayers w ++ flattenLayer l /\
     clear_ahead tail (snd (_matchSublayer l w))) /\
  (forall render tail w,
     clear_ahead (flattenRendered render ++ tail) w ->
     generatedLayers (snd (matchRendered render w)) =
       generatedLayers w ++ flattenRendered render /\
     clear_ahead tail (snd (matchRendered render w))) /\
  (forall ls e tail w,
     clear_ahead (flatten ls ++ tail) w ->
     generatedLayers (snd (_matchSublayers ls e w)) =
       generatedLayers w ++ flatten ls /\
     clear_ahead tail (snd (_matchSublayers ls e w))).
Proof.
  apply forest_mutind.
  - intros obj render IH tail w Hc. rewrite matchSublayer_visit.
    simpl flattenLayer in *. simpl in Hc.
    destruct (visit_clear w obj _ Hc) as (w1 & E & Hc1 & Hg1).
    unfold bind. rewrite E.
    destruct (IH tail w1 Hc1) as [Hg Hc']. split; [|done].
    rewrite Hg, Hg1. by rewrite <- app_assoc.
  - intros err tail w Hc. simpl in *. by rewrite app_nil_r.
  - intros tail w Hc. simpl in *. by rewrite app_nil_r.
  - intros sub IH tail w Hc. simpl in *. specialize (IH tail w Hc).
    unfold bind, try_catch, ret.
    by destruct (_matchSublayer sub w) as [[[]|err] w1].
  - intros subs IH tail w Hc. simpl in *. specialize (IH Null tail w Hc).
    unfold bind, ret.
    by destruct (_matchSublayers subs Null w) as [[e|err] w1].
  - intros e tail w Hc. simpl in *. by rewrite app_nil_r.
  - intros rest IH e tail w Hc. simpl in *. by apply IH.
  - intros l IHl rest IHrest e tail w Hc. simpl in *.
    rewrite <- app_assoc in Hc.
    destruct (IHl _ w Hc) as [Hg1 Hc1]. unfold bind, try_catch, ret.
    destruct (_matchSublayer l w) as [[[]|err] w1]; simpl in *.
    + destruct (IHrest e tail w1 Hc1) as [Hg Hc']. split; [|done].
      rewrite Hg, Hg1. by rewrite <- app_assoc.
    + destruct (IHrest (js_or e err) tail w1 Hc1) as [Hg Hc'].
      split; [|done]. rewrite Hg, Hg1. by rewrite <- app_assoc.
Qed.

(** The map of old layers makes the way clear when for every first bearer
    of an id in the new forest the id is not an inherited name and the old
    layer on offer, if there is one, is another object and holds state. *)
Lemma old_map_clear (name : ref -> string) (olds news : list ref) (w : world) :
  named name w ->
  (forall n, first_of_its_id w news n ->
     inherited (name n) = false /\
     forall o,
       head (List.filter (fun o => bool_decide (name o = name n)) olds)
         = Some o ->
       o <> n /\ state (heap w o) <> None) ->
  clear_ahead news
    (with_generatedLayers [] (with_oldLayerMap (old_map name olds) w)).
Proof.
  intros Hn Hfirst. split.
  - intros k o Hk. simpl in *.
    apply old_map_sound in Hk as (_ & Hname & _). by rewrite Hn.
  - intros n Hfn. simpl in *.
    assert (first_of_its_id w news n) as Hfn' by done.
    destruct (Hfirst n Hfn') as [Hp Ho]. rewrite Hn. split; [done|].
    intros o Hk. apply Ho. rewrite ?Hn in Hk.
    destruct (old_map_lookup name olds (name n)) as [_ E].
    rewrite E, Hp in Hk. by destruct (head _) as [x|]; [injection Hk as ->|].
Qed.

(** ** The update and finalize phases after a failure *)

Lemma loop_keeps_error (ls : list ref) (step : ref -> M value)
  (error : value) (w : world) :
  Boolean error = true ->
  for_of ls
    (fun layer (error : value) =>
       if Boolean error then ret error else step layer)
    error w = (Ok error, w).
Proof.
  intros He. induction ls as [|l ls IH]; [done|].
  simpl. unfold bind. rewrite He. simpl. apply IH.
Qed.

(** Once the update callback of a matched layer has raised, no later layer
    of the generated forest is updated. *)
Lemma updateMatchedLayers_stops
  (w : world) (layer : ref) (rest : list ref) (p : Props) (err : value) :
  oldProps (heap w layer) = Some p ->
  updateLayer (methods (heap w layer)) = Raises err ->
  Boolean err = true ->
  _updateMatchedLayers (layer :: rest) w =
  (Ok err, with_calls (calls w ++ [UpdateLayer layer]) w).
Proof.
  intros Hp Hu He. unfold _updateMatchedLayers. simpl.
  unfold bind at 1. simpl. unfold _updateLayer, call_updateLayer.
  js_unfold. rewrite Hp. simpl. rewrite Hu. simpl.
  by apply loop_keeps_error.
Qed.

(** C1.  The forest x, y, z is submitted again and all three new layers are
    matched; the update callback of x raises.  The error is thrown by
    [updateLayers], once, but the update callbacks of y and z are never
    called. *)
Theorem update_failure_stops_later_updates :
  calls_of (updateLayers (leaves [3; 4; 5])) xyz_first_frame =
    [RenderLayers 3; RenderLayers 4; RenderLayers 5; UpdateLayer 3] /\
  thrown (updateLayers (leaves [3; 4; 5])) xyz_first_frame = Some boom /\
  oldProps (heap (exec (updateLayers (leaves [3; 4; 5])) xyz_first_frame) 4)
    <> None /\
  oldProps (heap (exec (updateLayers (leaves [3; 4; 5])) xyz_first_frame) 5)
    <> None.
Proof. by vm_compute. Qed.

(** C5.  Old layers a, b, x, y; the next frame keeps x and y.  The finalize
    callback of a and the update callback of the new x raise.  The generated
    forest is installed and the first error thrown, but the dropped layer b
    was never finalized and still holds its state, and the matched layer y
    was never updated. *)
Theorem failure_leaves_layers_unprocessed :
  calls_of (updateLayers (leaves [4; 5])) abxy_first_frame =
    [RenderLayers 4; RenderLayers 5; FinalizeLayer 0; UpdateLayer 4] /\
  thrown (updateLayers (leaves [4; 5])) abxy_first_frame = Some boom /\
  layers (this (exec (updateLayers (leaves [4; 5])) abxy_first_frame)) = [4; 5] /\
  state (heap (exec (updateLayers (leaves [4; 5])) abxy_first_frame) 1) = Some 1 /\
  oldProps (heap (exec (updateLayers (leaves [4; 5])) abxy_first_frame) 5)
    <> None.
Proof. by vm_compute. Qed.

(** The generated forest is installed whether or not an error is thrown,
    and the error thrown is the first one recorded by the phases. *)
Lemma updateLayers_installs_then_throws (w : world) (newLayers : layerArray) :
  exists firstError generated w',
    layers (this w') = generated /\
    updateLayers newLayers w =
      (if Boolean firstError then Throw firstError else Ok tt, w').
Proof.
  destruct (updateLayers_phases w newLayers)
    as (e & e2 & e3 & e4 & g & w1 & w2 & w3 & w4 & _ & _ & _ & _ & U).
  by exists (js_or (js_or (js_or e e2) e3) e4), g, (install g w4).
Qed.


(** ** The generated forest *)

Lemma first_of_its_id_elem (w : world) (news : list ref) (n : ref) :
  first_of_its_id w news n -> n ∈ news.
Proof.
  intros (pre & post & -> & _). apply elem_of_app. right. by left.
Qed.



(** The flattening is also what is installed when a layer of the live
    forest holds no state but is not paired with any new layer: the live
    forest is a (without state) and b, the new forest b and c. *)
Example flattening_beside_a_stateless_layer :
  let w := exec (updateLayers (leaves [0; 1]))
             (initial [fresh "a" stateless; fresh "b" quiet; fresh "b" quiet;
                       fresh "c" quiet]) in
  layers (this w) = [0; 1] /\ state (heap w 0) = None /\
  layers (this (exec (updateLayers (leaves [2; 3])) w)) =
    flatten (leaves [2; 3]).
Proof. by vm_compute. Qed.


(** ** Sanity checks of the state transfer *)

Lemma matchSublayers_keeps_error (ls : layerArray) (error : value) (w : world) :
  Boolean error = true -> fst (_matchSublayers ls error w) = Ok error.
Proof.
  intros He. revert w. induction ls as [|rest IH|l rest IH]; intros w; simpl.
  - done.
  - apply IH.
  - unfold bind, try_catch, ret.
    destruct (_matchSublayer l w) as [[[]|err] w1]; simpl; [apply IH|].
    unfold js_or. rewrite He. apply IH.
Qed.




Example sanity_check_failure_trace :
  calls_of (updateLayers (leaves [1; 2])) stateless_first_frame =
    [InitializeLayer 2; RenderLayers 2] /\
  layers (this (exec (updateLayers (leaves [1; 2])) stateless_first_frame)) =
    [2] /\
  thrown (updateLayers (leaves [1; 2])) stateless_first_frame =
    Some (ErrorObj "deck.gl sanity check - Matching layer has no state").
Proof. by vm_compute. Qed.

(** ** The lifecycle phases, layer by layer *)

Lemma finalizeOldLayers_idle (olds : list ref) (w : world) :
  (forall o, o ∈ olds -> state (heap w o) = None) ->
  _finalizeOldLayers olds w = (Ok Null, w).
Proof.
  unfold _finalizeOldLayers. induction olds as [|o olds IH]; intros H; [done|].
  simpl. unfold bind at 1. simpl. unfold _finalizeLayer. js_unfold.
  rewrite (H o) by by left. apply IH. intros ? ?. apply H. by right.
Qed.

Lemma initializeNewLayers_idle (ls : list ref) (w : world) :
  (forall n, n ∈ ls -> state (heap w n) <> None) ->
  _initializeNewLayers ls w = (Ok Null, w).
Proof.
  unfold _initializeNewLayers. induction ls as [|n ls IH]; intros H; [done|].
  simpl. unfold bind at 1. unfold bind at 1.
  rewrite initialize_skips by (apply H; by left).
  simpl. apply IH. intros ? ?. apply H. by right.
Qed.

Lemma updateMatchedLayers_all (ls : list ref) (w : world) :
  (forall n, n ∈ ls ->
     oldProps (heap w n) <> None /\ updateLayer (methods (heap w n)) = Returns) ->
  _updateMatchedLayers ls w =
  (Ok Null, with_calls (calls w ++ map UpdateLayer ls) w).
Proof.
  unfold _updateMatchedLayers. revert w.
  induction ls as [|n ls IH]; intros w H.
  { simpl. unfold ret. rewrite app_nil_r. by destruct w. }
  simpl. unfold bind at 1. simpl.
  destruct (H n) as [Hp Hu]; [by left|].
  unfold _updateLayer, call_updateLayer. js_unfold.
  destruct (oldProps (heap w n)); [|done]. simpl. rewrite Hu. simpl.
  rewrite IH.
  - simpl. by rewrite <- app_assoc.
  - intros n' Hin. simpl. apply H. by right.
Qed.

(** ** The update phase as a whole *)

Lemma with_calls_twice (c c' : list event) (w : world) :
  with_calls c (with_calls c' w) = with_calls c w.
Proof. reflexivity. Qed.

Lemma updateLayer_run (w : world) (layer : ref) :
  exists e,
    _updateLayer layer w =
      (Ok e,
       if has_oldProps w layer
       then with_calls (calls w ++ [UpdateLayer layer]) w else w) /\
    Boolean e = has_oldProps w layer && update_fails w layer.
Proof.
  unfold _updateLayer, call_updateLayer, has_oldProps, update_fails.
  js_unfold. destruct (oldProps (heap w layer)); simpl; [|by exists Null].
  destruct (updateLayer (methods (heap w layer))) as [|x]; simpl;
    by eexists.
Qed.

Lemma update_loop (ls : list ref) (acc : value) (w : world) :
  Boolean acc = false ->
  exists e,
    for_of ls
      (fun layer (error : value) =>
         if Boolean error then ret error else _updateLayer layer) acc w =
      (Ok e,
       with_calls
         (calls w ++
          map UpdateLayer
            (up_to_failure (update_fails w) (List.filter (has_oldProps w) ls)))
         w) /\
    Boolean e = existsb (update_fails w) (List.filter (has_oldProps w) ls).
Proof.
  revert acc w. induction ls as [|l ls IH]; intros acc w Hacc.
  { exists acc. simpl. unfold ret. rewrite app_nil_r. split; [|done].
    by destruct w. }
  simpl. unfold bind at 1. rewrite Hacc.
  destruct (updateLayer_run w l) as (e1 & -> & He1).
  destruct (has_oldProps w l) eqn:Hp; simpl in *.
  - destruct (update_fails w l) eqn:Hf; simpl in *.
    + rewrite loop_keeps_error by done. exists e1. by rewrite He1.
    + destruct (IH e1 (with_calls (calls w ++ [UpdateLayer l]) w) He1)
        as (e & -> & He).
      exists e. split; [|done]. rewrite with_calls_twice. simpl.
      by rewrite <- app_assoc.
  - apply (IH e1 w He1).
Qed.

Lemma filter_all (f : ref -> bool) (ls : list ref) :
  (forall r, r ∈ ls -> f r = true) -> List.filter f ls = ls.
Proof.
  induction ls as [|l ls IH]; intros H; simpl; [done|].
  rewrite (H l) by by left. f_equal. apply IH. intros r Hr. apply H. by right.
Qed.

Lemma filter_none (f : ref -> bool) (ls : list ref) :
  (forall r, r ∈ ls -> f r = false) -> List.filter f ls = [].
Proof.
  induction ls as [|l ls IH]; intros H; simpl; [done|].
  rewrite (H l) by by left. apply IH. intros r Hr. apply H. by right.
Qed.

Lemma up_to_failure_none (f : ref -> bool) (ls : list ref) :
  (forall r, r ∈ ls -> f r = false) -> up_to_failure f ls = ls.
Proof.
  induction ls as [|l ls IH]; intros H; simpl; [done|].
  rewrite (H l) by by left. f_equal. apply IH. intros r Hr. apply H. by right.
Qed.


(** ** A forest submitted again *)

Lemma calls_of_app {A} (m : M A) (w : world) (t : list event) :
  calls (exec m w) = calls w ++ t -> calls_of m w = t.
Proof. intros H. unfold calls_of. rewrite H. by rewrite drop_app_length. Qed.




(** It fails as well when the very same layer objects are submitted again:
    every layer is then paired with itself, fails the sanity check, and is
    finalized. *)
Example same_objects_submitted_again :
  calls_of (updateLayers (leaves [0; 1; 2])) xyz_first_frame =
    [FinalizeLayer 0; FinalizeLayer 1; FinalizeLayer 2] /\
  layers (this (exec (updateLayers (leaves [0; 1; 2])) xyz_first_frame)) = [] /\
  thrown (updateLayers (leaves [0; 1; 2])) xyz_first_frame =
    Some (ErrorObj "deck.gl sanity check - Matching layer is same").
Proof. by vm_compute. Qed.

(** ** Ownership of state *)

Lemma preserves_for_of_in (R : world -> world -> Prop) {A S}
  (xs : list A) (body : A -> S -> M S) (acc : S) :
  (forall w, R w w) -> (forall w1 w2 w3, R w1 w2 -> R w2 w3 -> R w1 w3) ->
  (forall x s, x ∈ xs -> preserves R (body x s)) ->
  preserves R (for_of xs body acc).
Proof.
  intros Hrefl Htrans. revert acc.
  induction xs as [|x xs IH]; intros acc Hb; simpl.
  - by apply preserves_ret.
  - apply preserves_bind; [done|apply Hb; by left|].
    intros a. apply IH. intros ? ? ?. apply Hb. by right.
Qed.

Lemma keeps_owned_refl (w : world) : keeps_owned w w.
Proof. by intros H. Qed.

Lemma keeps_owned_trans (w1 w2 w3 : world) :
  keeps_owned w1 w2 -> keeps_owned w2 w3 -> keeps_owned w1 w3.
Proof. unfold keeps_owned. tauto. Qed.

Lemma keeps_owned_modify (f : world -> world) :
  (forall w, heap (f w) = heap w /\ nextState (f w) = nextState w) ->
  preserves keeps_owned (modify f).
Proof.
  intros H w [Hso Hal]. simpl. destruct (H w) as [Eh En].
  split; [intros r1 r2 s|intros r s]; rewrite ?Eh, ?En; [apply Hso|apply Hal].
Qed.

Lemma owned_transferLayerState (o n : ref) :
  preserves keeps_owned (_transferLayerState o n).
Proof.
  intros w Hown.
  destruct (state (heap w o)) as [s|] eqn:Hs.
  - destruct (decide (o = n)) as [->|Hne].
    + destruct (transfer_fails w n n) as [msg ->]; [by right|done].
    + destruct (transfer_run w o n s Hs Hne)
        as (w' & -> & Hn & Ho & Hr & _ & _ & _ & _ & Hx). simpl.
      eapply moved_state_is_owned; eauto.
      * by rewrite Hn.
      * by rewrite Ho.
  - destruct (transfer_fails w o n) as [msg ->]; [by left|done].
Qed.

Lemma owned_initializeNewLayer (r : ref) :
  preserves keeps_owned (_initializeNewLayer r).
Proof.
  intros w. destruct (initialize_run w r) as (e & w' & -> & ? & ? & ? & ? & ? & ? & ? & H).
  exact H.
Qed.

Lemma only_cleared_owned (S : list ref) (w w' : world) :
  only_cleared S w w' -> keeps_owned w w'.
Proof.
  intros [Hx Hc] [Hso Hal]. split.
  - intros r1 r2 s G1 G2.
    destruct (Hc r1) as [E1|[_ E1]]; [|congruence].
    destruct (Hc r2) as [E2|[_ E2]]; [|congruence].
    rewrite E1 in G1. rewrite E2 in G2. by eapply Hso.
  - intros r s G. rewrite Hx.
    destruct (Hc r) as [E1|[_ E1]]; [|congruence].
    rewrite E1 in G. by eapply Hal.
Qed.

Lemma only_cleared_refl (S : list ref) (w : world) : only_cleared S w w.
Proof. split; [done|]. by left. Qed.

Lemma only_cleared_trans (S : list ref) (w1 w2 w3 : world) :
  only_cleared S w1 w2 -> only_cleared S w2 w3 -> only_cleared S w1 w3.
Proof.
  intros [X1 H1] [X2 H2]. split; [congruence|]. intros r.
  destruct (H2 r) as [E2|?]; [|by right].
  destruct (H1 r) as [E1|[? E1]]; [left; congruence|].
  right. split; [done|]. by rewrite E2.
Qed.

Lemma only_cleared_finalizeLayer (S : list ref) (layer : ref) :
  layer ∈ S -> preserves (only_cleared S) (_finalizeLayer layer).
Proof.
  intros Hin w. unfold _finalizeLayer, call_finalizeLayer. js_unfold.
  destruct (state (heap w layer)) eqn:E; simpl; [|apply only_cleared_refl].
  destruct (finalizeLayer (methods (heap w layer))); simpl;
    (split; [done|]); intros r; simpl;
    (destruct (decide (r = layer)) as [->|Hne];
     [right; by upd_simpl | left; by upd_simpl]).
Qed.

Lemma only_cleared_finalizeOldLayers (olds : list ref) :
  preserves (only_cleared olds) (_finalizeOldLayers olds).
Proof.
  apply preserves_for_of_in.
  - apply only_cleared_refl.
  - apply only_cleared_trans.
  - intros x e Hin. destruct (Boolean e).
    + apply preserves_ret, only_cleared_refl.
    + by apply only_cleared_finalizeLayer.
Qed.

Lemma same_heap_updateMatchedLayers (ls : list ref) :
  preserves same_heap (_updateMatchedLayers ls).
Proof.
  assert (forall w, same_heap w w) as Hrefl by done.
  assert (forall w1 w2 w3, same_heap w1 w2 -> same_heap w2 w3 -> same_heap w1 w3)
    as Htrans.
  { intros w1 w2 w3 [? ?] [? ?]. split; congruence. }
  apply preserves_for_of; try done. intros x e.
  destruct (Boolean e); [by apply preserves_ret|].
  intros w. unfold _updateLayer, call_updateLayer. js_unfold.
  destruct (oldProps (heap w x)); [|done]. simpl.
  by destruct (updateLayer (methods (heap w x))).
Qed.

Lemma only_initialized_refl (S : list ref) (w : world) : only_initialized S w w.
Proof. intros r. by left. Qed.

Lemma only_initialized_trans (S : list ref) (w1 w2 w3 : world) :
  only_initialized S w1 w2 -> only_initialized S w2 w3 ->
  only_initialized S w1 w3.
Proof.
  intros H1 H2 r.
  destruct (H1 r) as [E1|?]; [|by right].
  destruct (H2 r) as [E2|[? E2]]; [left; congruence|].
  right. split; [done|]. by rewrite <- E1.
Qed.

Lemma only_initialized_initializeNewLayers (ls : list ref) :
  preserves (only_initialized ls) (_initializeNewLayers ls).
Proof.
  apply preserves_for_of_in.
  - apply only_initialized_refl.
  - apply only_initialized_trans.
  - intros x e Hin.
    apply preserves_bind;
      [apply only_initialized_trans| |
       intros; apply preserves_ret, only_initialized_refl].
    intros w r.
    destruct (state (heap w x)) as [s|] eqn:Es.
    + rewrite initialize_skips by by rewrite Es. by left.
    + destruct (initialize_run w x) as (e' & w' & -> & Hr & _). simpl.
      destruct (decide (r = x)) as [->|Hne]; [by right|left; by apply Hr].
Qed.

Lemma owned_matchLayers (olds : list ref) (ls : layerArray) :
  preserves keeps_owned (_matchLayers olds ls).
Proof.
  unfold _matchLayers.
  apply preserves_bind; [apply keeps_owned_trans|by apply keeps_owned_modify|].
  intros _.
  apply preserves_bind; [apply keeps_owned_trans| |intros _].
  { apply preserves_for_of;
      [apply keeps_owned_refl|apply keeps_owned_trans|intros x []].
    apply preserves_bind;
      [apply keeps_owned_trans|apply preserves_gets, keeps_owned_refl|].
    intros l.
    apply preserves_bind;
      [apply keeps_owned_trans|apply preserves_gets, keeps_owned_refl|].
    intros m. destruct (truthy _).
    - apply preserves_ret, keeps_owned_refl.
    - by apply keeps_owned_modify. }
  apply preserves_bind; [apply keeps_owned_trans|by apply keeps_owned_modify|].
  intros _.
  apply preserves_bind; [apply keeps_owned_trans| |intros e].
  { apply (preserves_matching keeps_owned).
    - apply keeps_owned_refl.
    - apply keeps_owned_trans.
    - intros g. by apply keeps_owned_modify.
    - intros g. by apply keeps_owned_modify.
    - apply owned_transferLayerState.
    - apply owned_initializeNewLayer.
    - intros r. by apply keeps_owned_modify. }
  apply preserves_bind;
    [apply keeps_owned_trans|apply preserves_gets, keeps_owned_refl|].
  intros g. apply preserves_ret, keeps_owned_refl.
Qed.

(** No pass of [updateLayers] makes two layers hold one state object. *)
Lemma updateLayers_owned (w : world) (newLayers : layerArray) :
  owned w -> owned (exec (updateLayers newLayers) w).
Proof.
  intros Hown.
  destruct (updateLayers_phases w newLayers)
    as (e & e2 & e3 & e4 & g & w1 & w2 & w3 & w4 & M1 & M2 & M3 & M4 & U).
  unfold exec. rewrite U. simpl.
  assert (owned w1) as H1.
  { pose proof (owned_matchLayers (layers (this w)) newLayers (begin_pass w))
      as H. rewrite M1 in H. by apply H. }
  assert (owned w2) as H2.
  { pose proof (only_cleared_finalizeOldLayers (layers (this w)) w1) as H.
    rewrite M2 in H. by eapply only_cleared_owned. }
  assert (owned w3) as H3.
  { pose proof (same_heap_updateMatchedLayers g w2) as H.
    rewrite M3 in H. destruct H as [Eh En]. simpl in *.
    destruct H2 as [Hso Hal].
    split; [intros r1 r2 s|intros r s]; rewrite ?Eh, ?En;
      [apply Hso|apply Hal]. }
  assert (owned w4) as H4.
  { assert (preserves keeps_owned (_initializeNewLayers g)) as H.
    { apply preserves_for_of;
        [apply keeps_owned_refl|apply keeps_owned_trans|intros x s].
      apply preserves_bind;
        [apply keeps_owned_trans|apply owned_initializeNewLayer|].
      intros. apply preserves_ret, keeps_owned_refl. }
    specialize (H w3). rewrite M4 in H. by apply H. }
  done.
Qed.

Lemma initial_owned (objects : list layer) :
  Forall (fun l => state l = None) objects -> owned (initial objects).
Proof.
  intros H.
  assert (forall r, state (heap (initial objects) r) = None) as Hnone.
  { intros r. simpl.
    destruct (nth_in_or_default r objects (fresh "" quiet)) as [Hin| ->];
      [|done].
    rewrite Forall_forall in H. apply H. by apply list_elem_of_In. }
  split; [intros r1 r2 s G|intros r s G]; by rewrite Hnone in G.
Qed.

(** *** The worlds between the phases *)

Lemma stages_of_a_pass (w : world) (newLayers : layerArray) :
  exists e e2 e3 e4,
    _matchSublayers newLayers Null
      (with_generatedLayers []
         (with_oldLayerMap
            (old_map (fun r => id (heap w r)) (layers (this w)))
            (begin_pass w)))
      = (Ok e, after_matching newLayers w) /\
    _finalizeOldLayers (layers (this w)) (after_matching newLayers w)
      = (Ok e2, after_finalization newLayers w) /\
    _updateMatchedLayers (generatedLayers (after_matching newLayers w))
      (after_finalization newLayers w)
      = (Ok e3, after_update newLayers w) /\
    _initializeNewLayers (generatedLayers (after_matching newLayers w))
      (after_update newLayers w)
      = (Ok e4, after_initialization newLayers w) /\
    updateLayers newLayers w =
      (if Boolean (js_or (js_or (js_or e e2) e3) e4)
       then Throw (js_or (js_or (js_or e e2) e3) e4) else Ok tt,
       install (generatedLayers (after_matching newLayers w))
         (after_initialization newLayers w)).
Proof.
  destruct (updateLayers_phases w newLayers)
    as (e & e2 & e3 & e4 & g & w1 & w2 & w3 & w4 & M1 & M2 & M3 & M4 & U).
  destruct (matchLayers_run (fun r => id (heap w r)) (layers (this w))
              newLayers (begin_pass w))
    as (e' & w1' & Ms & Ml); [done|].
  rewrite Ml in M1. injection M1 as <- <- <-.
  unfold after_initialization, after_update, after_finalization,
    after_matching.
  rewrite Ml. simpl. rewrite M2. simpl. rewrite M3. simpl. rewrite M4. simpl.
  by exists e', e2, e3, e4.
Qed.

(** *** The state of one old layer on its way to a new layer *)

Lemma visit_offers_from (w w' : world) (obj : ref) :
  offers_from w w' -> offers_from w (snd (visit obj w')).
Proof.
  intros [Hid Hof]. destruct (visit_frame w' obj) as (Hmap & Hsame & _).
  split.
  - intros r. destruct (Hsame r) as [-> _]. apply Hid.
  - intros k o Hk. rewrite Hmap in Hk.
    apply assign_null_layer in Hk as [_ Hk]. by apply Hof.
Qed.

Lemma visit_keeps_moved (w w' : world) (news : list ref) (n o obj : ref) :
  n ∉ layers (this w) -> obj ∈ news ->
  moved w news n o w' -> moved w news n o (snd (visit obj w')).
Proof.
  intros Hfresh Hobj (Hof & Hido & Hk & Hn & Hs & Ho).
  pose proof (visit_offers_from w w' obj Hof) as Hof'.
  destruct Hof as [Hid Hfiled].
  destruct (visit_frame w' obj) as (Hmap & Hsame & Hfr & Hst & _).
  split_and!; try done.
  - rewrite Hmap.
    destruct (decide (id (heap w n) = id (heap w' obj))) as [Heq|Hne].
    + rewrite <- Heq, (assign_null_own _ _ _ Hk). simpl.
      by rewrite lookup_insert_eq.
    + by rewrite assign_null_other.
  - destruct (decide (obj = n)) as [->|Hne].
    + rewrite Hst; [done|by rewrite Hn|].
      rewrite Hid. unfold get. by rewrite Hk.
    + rewrite Hfr; [done|done|]. intros Hl. apply get_layer in Hl.
      by apply Hfiled in Hl as [? _].
  - intros Hout. rewrite Hfr; [by apply Ho|by intros ->|].
    intros Hl. apply get_layer in Hl.
    destruct (Hfiled _ _ Hl) as [_ Hl']. rewrite <- Hl', Hido in Hl.
    congruence.
Qed.

Lemma visit_keeps_awaiting (w w' : world) (n o obj : ref) :
  id (heap w obj) <> id (heap w n) ->
  awaiting w n o w' -> awaiting w n o (snd (visit obj w')).
Proof.
  intros Hne (Hof & Hk & Hs & Hg).
  pose proof (visit_offers_from w w' obj Hof) as Hof'.
  destruct Hof as [Hid Hfiled]. destruct (Hfiled _ _ Hk) as [_ Hido].
  destruct (visit_frame w' obj) as (Hmap & Hsame & Hfr & _ & Hgen).
  split_and!; try done.
  - rewrite Hmap, assign_null_other; [done|]. by rewrite Hid.
  - rewrite Hfr; [done| |].
    + intros ->. congruence.
    + intros Hl. apply get_layer in Hl.
      destruct (Hfiled _ _ Hl) as [_ Hl']. rewrite Hid in Hl'. congruence.
  - destruct Hgen as [->| ->]; [done|].
    intros Hin. apply elem_of_app in Hin as [Hin|Hin]; [done|].
    apply list_elem_of_singleton in Hin as ->. done.
Qed.

(** The visit of the awaited layer: it fails, and the layer is left out, or
    it moves the state. *)
Lemma visit_awaited (w w' : world) (news : list ref) (n o : ref) :
  n ∉ layers (this w) -> awaiting w n o w' ->
  (exists e w1, visit n w' = (Throw e, w1) /\ n ∉ generatedLayers w1) \/
  (exists w1, visit n w' = (Ok tt, w1) /\ moved w news n o w1).
Proof.
  intros Hfresh (Hof & Hk & Hs & Hg).
  pose proof (visit_offers_from w w' n Hof) as Hof'.
  destruct Hof as [Hid Hfiled]. destruct (Hfiled _ _ Hk) as [Hold Hido].
  assert (get (oldLayerMap w') (id (heap w' n)) = LayerValue o) as Hget.
  { rewrite Hid. by apply get_layer. }
  destruct (visit_cases w' n)
    as [(msg & E & _)|
        [(o' & s & w1 & Hm & Hs' & Hne & E & Hobj & Ho & Hfr & _ & Hmap & _)|
         (Hf & _)]].
  - left. rewrite E. by eexists _, _.
  - right. rewrite Hget in Hm. injection Hm as <-.
    rewrite E in Hof'. simpl in Hof'. exists w1. split; [done|].
    split_and!; try done.
    + rewrite Hmap, Hid. rewrite (assign_null_own _ _ _ Hk). simpl.
      by rewrite lookup_insert_eq.
    + rewrite Hobj. simpl. congruence.
    + rewrite <- Hs, Hs'. done.
    + intros _. by rewrite Ho.
  - by rewrite Hget in Hf.
Qed.

Lemma split_around (l1 l2 pre post : list ref) (n : ref) :
  l1 ++ l2 = pre ++ n :: post ->
  (exists post1, l1 = pre ++ n :: post1 /\ post = post1 ++ l2) \/
  (exists pre2, pre = l1 ++ pre2 /\ l2 = pre2 ++ n :: post).
Proof.
  revert l1. induction pre as [|p pre IH]; intros l1 H; simpl in *.
  - destruct l1 as [|x l1]; simpl in *.
    + right. by exists [].
    + injection H as -> <-. left. by exists l1.
  - destruct l1 as [|x l1]; simpl in *.
    + right. by exists (p :: pre).
    + injection H as -> H. destruct (IH l1 H) as [(q & -> & ->)|(q & -> & ->)].
      * left. by exists q.
      * right. by exists q.
Qed.

Lemma matching_moves (w : world) (news : list ref) (n o : ref) :
  n ∉ layers (this w) ->
  (forall l w' pre post,
     flattenLayer l = pre ++ n :: post ->
     (forall m, m ∈ pre -> id (heap w m) <> id (heap w n)) -> n ∉ post ->
     (forall m, m ∈ flattenLayer l -> m ∈ news) ->
     awaiting w n o w' ->
     moved w news n o (snd (_matchSublayer l w')) \/
     n ∉ generatedLayers (snd (_matchSublayer l w'))) /\
  (forall render w' pre post,
     flattenRendered render = pre ++ n :: post ->
     (forall m, m ∈ pre -> id (heap w m) <> id (heap w n)) -> n ∉ post ->
     (forall m, m ∈ flattenRendered render -> m ∈ news) ->
     awaiting w n o w' ->
     moved w news n o (snd (matchRendered render w')) \/
     n ∉ generatedLayers (snd (matchRendered render w'))) /\
  (forall ls e w' pre post,
     flatten ls = pre ++ n :: post ->
     (forall m, m ∈ pre -> id (heap w m) <> id (heap w n)) -> n ∉ post ->
     (forall m, m ∈ flatten ls -> m ∈ news) ->
     awaiting w n o w' ->
     moved w news n o (snd (_matchSublayers ls e w')) \/
     n ∉ generatedLayers (snd (_matchSublayers ls e w'))).
Proof.
  intros Hfresh.
  destruct (matching_keeps (fun m => m ∈ news) (moved w news n o))
    as (_ & Kmr & Kma).
  { intros obj u Hobj Hu. by apply visit_keeps_moved. }
  destruct (matching_keeps (fun m => id (heap w m) <> id (heap w n))
              (awaiting w n o)) as (Kal & _ & _).
  { intros obj u Hobj Hu. by apply visit_keeps_awaiting. }
  destruct (matching_keeps (fun m => m <> n)
              (fun u => n ∉ generatedLayers u)) as (_ & _ & Kna).
  { intros obj u Hobj Hu. destruct (visit_frame u obj) as (_ & _ & _ & _ & Hg).
    destruct Hg as [->| ->]; [done|]. intros Hin.
    apply elem_of_app in Hin as [Hin|Hin]; [done|].
    by apply list_elem_of_singleton in Hin. }
  apply forest_mutind.
  - intros obj render IH w' pre post Hsplit Hpre Hpost Hsub Haw.
    rewrite matchSublayer_visit. unfold bind. simpl in Hsplit.
    destruct pre as [|p pre]; simpl in Hsplit; injection Hsplit as -> Hrest.
    + (* the awaited layer itself *)
      destruct (visit_awaited w w' news n o Hfresh Haw)
        as [(e & w1 & -> & HN)|(w1 & -> & Hm)]; simpl; [by right|].
      left. apply Kmr; [|done].
      intros m Hm'. apply Hsub. by right.
    + (* a layer before it *)
      assert (id (heap w p) <> id (heap w n)) as Hp by (apply Hpre; by left).
      pose proof (visit_keeps_awaiting w w' n o p Hp Haw) as Haw1.
      destruct (visit p w') as [[[]|e] w1]; simpl in *.
      * apply (IH w1 pre post); try done.
        -- intros m Hm. apply Hpre. by right.
        -- intros m Hm. apply Hsub. by right.
      * right. by destruct Haw1 as (_ & _ & _ & ?).
  - intros err w' pre post Hsplit. simpl in Hsplit. by destruct pre.
  - intros w' pre post Hsplit. simpl in Hsplit. by destruct pre.
  - intros sub IH w' pre post Hsplit Hpre Hpost Hsub Haw. simpl in *.
    specialize (IH w' pre post Hsplit Hpre Hpost Hsub Haw).
    unfold bind, try_catch, ret.
    by destruct (_matchSublayer sub w') as [[[]|err] w1].
  - intros subs IH w' pre post Hsplit Hpre Hpost Hsub Haw. simpl in *.
    specialize (IH Null w' pre post Hsplit Hpre Hpost Hsub Haw).
    unfold bind, ret.
    by destruct (_matchSublayers subs Null w') as [[e|err] w1].
  - intros e w' pre post Hsplit. simpl in Hsplit. by destruct pre.
  - intros rest IH e w' pre post Hsplit Hpre Hpost Hsub Haw. simpl in *.
    by apply (IH e w' pre post).
  - intros l IHl rest IHrest e w' pre post Hsplit Hpre Hpost Hsub Haw.
    simpl in *.
    assert (forall m, m ∈ flattenLayer l -> m ∈ news) as Hl.
    { intros m Hm. apply Hsub. apply elem_of_app. by left. }
    assert (forall m, m ∈ flatten rest -> m ∈ news) as Hr.
    { intros m Hm. apply Hsub. apply elem_of_app. by right. }
    destruct (split_around _ _ _ _ _ Hsplit)
      as [(post1 & El & Epost)|(pre2 & Epre & Er)].
    + (* the awaited layer is in [l] *)
      assert ((n ∉ post1) /\ (n ∉ flatten rest)) as [Hp1 Hp2].
      { rewrite Epost in Hpost. by apply not_elem_of_app in Hpost. }
      specialize (IHl w' pre post1 El Hpre Hp1 Hl Haw).
      unfold bind, try_catch, ret.
      destruct (_matchSublayer l w') as [[[]|err] w1]; simpl in *;
        (destruct IHl as [Hm|HN];
         [left; by apply Kma
         |right; apply Kna; [|done]; intros m Hm ->; done]).
    + (* it is in the rest *)
      assert (awaiting w n o (snd (_matchSublayer l w'))) as Haw1.
      { apply Kal; [|done]. intros m Hm. apply Hpre. rewrite Epre.
        apply elem_of_app. by left. }
      assert (forall m, m ∈ pre2 -> id (heap w m) <> id (heap w n)) as Hpre2.
      { intros m Hm. apply Hpre. rewrite Epre. apply elem_of_app. by right. }
      unfold bind, try_catch, ret.
      destruct (_matchSublayer l w') as [[[]|err] w1]; simpl in *;
        by apply (IHrest _ w1 pre2 post).
Qed.

Lemma generated_within (news : list ref) (ls : layerArray) (e : value)
  (w : world) :
  (forall m, m ∈ flatten ls -> m ∈ news) ->
  (forall m, m ∈ generatedLayers w -> m ∈ news) ->
  forall m, m ∈ generatedLayers (snd (_matchSublayers ls e w)) -> m ∈ news.
Proof.
  intros Hsub Hg.
  destruct (matching_keeps (fun m => m ∈ news)
              (fun u => forall m, m ∈ generatedLayers u -> m ∈ news))
    as (_ & _ & K).
  { intros obj u Hobj Hu m.
    destruct (visit_frame u obj) as (_ & _ & _ & _ & [->| ->]); [by apply Hu|].
    intros Hin. apply elem_of_app in Hin as [Hin|Hin]; [by apply Hu|].
    by apply list_elem_of_singleton in Hin as ->. }
  by apply K.
Qed.

Lemma stages_owned (w : world) (newLayers : layerArray) :
  owned w -> Forall owned (stages newLayers w).
Proof.
  intros Hown.
  destruct (stages_of_a_pass w newLayers)
    as (e & e2 & e3 & e4 & M1 & M2 & M3 & M4 & U).
  assert (owned (after_matching newLayers w)) as H1.
  { pose proof (owned_matchLayers (layers (this w)) newLayers (begin_pass w))
      as H. by apply H. }
  assert (owned (after_finalization newLayers w)) as H2.
  { pose proof (only_cleared_finalizeOldLayers (layers (this w))
                  (after_matching newLayers w)) as H.
    by eapply only_cleared_owned. }
  assert (owned (after_update newLayers w)) as H3.
  { pose proof (same_heap_updateMatchedLayers
                  (generatedLayers (after_matching newLayers w))
                  (after_finalization newLayers w)) as [Eh En].
    destruct H2 as [Hso Hal]. unfold after_update.
    split; [intros r1 r2 s|intros r s]; rewrite ?Eh, ?En;
      [apply Hso|apply Hal]. }
  assert (owned (after_initialization newLayers w)) as H4.
  { assert (preserves keeps_owned
              (_initializeNewLayers
                 (generatedLayers (after_matching newLayers w)))) as H.
    { apply preserves_for_of;
        [apply keeps_owned_refl|apply keeps_owned_trans|intros x s].
      apply preserves_bind;
        [apply keeps_owned_trans|apply owned_initializeNewLayer|].
      intros. apply preserves_ret, keeps_owned_refl. }
    by apply (H (after_update newLayers w)). }
  unfold stages. repeat (constructor; [done|]).
  constructor; [|constructor]. unfold exec. by rewrite U.
Qed.




Example moved_states :
  map (fun w' => map (fun r => state (heap w' r)) [0; 1; 2; 3; 4; 5; 6; 7])
      (pxyq_first_frame :: stages (pxyq 4 5 6 7) pxyq_first_frame) =
    [[Some 0; Some 1; Some 2; Some 3; None; None; None; None];
     [None; None; None; None; Some 0; Some 1; Some 2; Some 3];
     [None; None; None; None; Some 0; Some 1; Some 2; Some 3];
     [None; None; None; None; Some 0; Some 1; Some 2; Some 3];
     [None; None; None; None; Some 0; Some 1; Some 2; Some 3];
     [None; None; None; None; Some 0; Some 1; Some 2; Some 3]].
Proof. by vm_compute. Qed.

(** An old layer that is in the new forest again is set up anew there after
    it has given its state away, and a new layer that is also a later layer
    of the live forest is finalized with the state it has received, and set
    up anew by the last phase. *)
Example moved_state_of_resubmitted_layers :
  map (fun r => state (heap (exec (updateLayers (leaves [2; 0]))
                               (exec (updateLayers (leaves [0]))
                                  (initial [fresh "a" quiet; fresh "b" quiet;
                                            fresh "a" quiet])))
                          r)) [0; 2] = [Some 2; Some 0] /\
  layers (this (exec (updateLayers (leaves [1]))
                  (exec (updateLayers (leaves [0; 1]))
                     (initial [fresh "a" quiet; fresh "a" quiet])))) = [1] /\
  map (fun r => state (heap (exec (updateLayers (leaves [1]))
                               (exec (updateLayers (leaves [0; 1]))
                                  (initial [fresh "a" quiet; fresh "a" quiet])))
                          r)) [0; 1] = [None; Some 2].
Proof. by vm_compute. Qed.

(** *** The callbacks of a pass, phase by phase *)

Lemma calls_finalizeOldLayers_of (olds : list ref) :
  preserves (calls_extend (finalize_of olds)) (_finalizeOldLayers olds).
Proof.
  apply preserves_for_of_in;
    [apply calls_extend_refl|apply calls_extend_trans|].
  intros x e Hin. destruct (Boolean e).
  - apply preserves_ret, calls_extend_refl.
  - unfold _finalizeLayer, call_finalizeLayer, getLayer, setLayer.
    repeat first [apply calls_emit; exact Hin
                 |calls_step (finalize_of olds)].
Qed.

Lemma calls_updateMatchedLayers_of (ls : list ref) :
  preserves (calls_extend (update_of ls)) (_updateMatchedLayers ls).
Proof.
  apply preserves_for_of_in;
    [apply calls_extend_refl|apply calls_extend_trans|].
  intros x e Hin. destruct (Boolean e).
  - apply preserves_ret, calls_extend_refl.
  - unfold _updateLayer, call_updateLayer, getLayer.
    repeat first [apply calls_emit; exact Hin
                 |calls_step (update_of ls)].
Qed.

Lemma calls_initializeNewLayers_of (ls : list ref) :
  preserves (calls_extend (initialize_of ls)) (_initializeNewLayers ls).
Proof.
  apply preserves_for_of_in;
    [apply calls_extend_refl|apply calls_extend_trans|].
  intros x e Hin.
  apply preserves_bind; [apply calls_extend_trans| |].
  - by apply calls_initializeNewLayer.
  - intros. apply preserves_ret, calls_extend_refl.
Qed.

Lemma visit_matching_calls (w u : world) (obj : ref) :
  matching_calls w u -> matching_calls w (snd (visit obj u)).
Proof.
  intros (t & Ht & Hr & Hi).
  destruct (visit_cases u obj)
    as [(msg & -> & _)|
        [(o & s & u' & Hm & Hs & Hne & -> & Hobj & Ho & Hfr & Hc & _ & Hg & _)|
         (_ & u' & -> & Hc & Hfr & Hs & Hop & _ & _ & Hg)]]; simpl.
  - by exists t.
  - exists (t ++ [RenderLayers obj]). split_and!.
    + by rewrite Hc, Ht, app_assoc.
    + intros n Hn. rewrite Hg in Hn. apply elem_of_app.
      apply elem_of_app in Hn as [Hn|Hn]; [left; by apply Hr|right].
      apply list_elem_of_singleton in Hn as ->.
      by apply list_elem_of_singleton.
    + intros n Hn Hw Hold. apply elem_of_app. left.
      destruct (decide (n = obj)) as [->|Hno].
      { rewrite Hobj in Hold. done. }
      rewrite Hg in Hn.
      assert (n ∈ generatedLayers u \/ state (heap u n) <> None) as Hn'.
      { destruct Hn as [Hn|Hn].
        - apply elem_of_app in Hn as [Hn|Hn]; [by left|].
          by apply list_elem_of_singleton in Hn.
        - destruct (decide (n = o)) as [->|Hnn].
          + rewrite Ho in Hn. done.
          + rewrite Hfr in Hn by done. by right. }
      apply Hi; try done.
      destruct (decide (n = o)) as [->|Hnn].
      * by rewrite Ho in Hold.
      * by rewrite Hfr in Hold.
  - exists (t ++ (if lacks_state u obj then [InitializeLayer obj] else []) ++
              [RenderLayers obj]).
    split_and!.
    + by rewrite Hc, Ht, <- !app_assoc.
    + intros n Hn. rewrite Hg in Hn. rewrite !elem_of_app.
      apply elem_of_app in Hn as [Hn|Hn]; [left; by apply Hr|right; right].
      apply list_elem_of_singleton in Hn as ->.
      by apply list_elem_of_singleton.
    + intros n Hn Hw Hold. rewrite !elem_of_app.
      destruct (decide (n = obj)) as [->|Hno].
      * rewrite Hop in Hold. unfold lacks_state, has_state.
        destruct (state (heap u obj)) as [s|] eqn:Es; simpl.
        -- left. apply Hi; try done. right. by rewrite Es.
        -- right. left. by apply list_elem_of_singleton.
      * left. rewrite Hfr in Hold, Hn by done. rewrite Hg in Hn.
        apply Hi; try done. destruct Hn as [Hn|Hn]; [|by right].
        apply elem_of_app in Hn as [Hn|Hn]; [by left|].
        by apply list_elem_of_singleton in Hn.
Qed.


(** The trace after each phase: in the frame of the counterexample, and in
    a first frame with a layer whose [initializeLayer] creates no state, so
    that the last phase calls it again. *)
Example lifecycle_phases_of_two_frames :
  map (fun w' => drop (length (calls dmn_first_frame)) (calls w'))
      (stages (leaves [2; 3]) dmn_first_frame) =
    [[RenderLayers 2; InitializeLayer 3; RenderLayers 3];
     [RenderLayers 2; InitializeLayer 3; RenderLayers 3; FinalizeLayer 0];
     [RenderLayers 2; InitializeLayer 3; RenderLayers 3; FinalizeLayer 0;
      UpdateLayer 2];
     [RenderLayers 2; InitializeLayer 3; RenderLayers 3; FinalizeLayer 0;
      UpdateLayer 2];
     [RenderLayers 2; InitializeLayer 3; RenderLayers 3; FinalizeLayer 0;
      UpdateLayer 2]] /\
  map calls
      (stages (leaves [0; 1]) (initial [fresh "a" stateless; fresh "b" quiet])) =
    [[InitializeLayer 0; RenderLayers 0; InitializeLayer 1; RenderLayers 1];
     [InitializeLayer 0; RenderLayers 0; InitializeLayer 1; RenderLayers 1];
     [InitializeLayer 0; RenderLayers 0; InitializeLayer 1; RenderLayers 1];
     [InitializeLayer 0; RenderLayers 0; InitializeLayer 1; RenderLayers 1;
      InitializeLayer 0];
     [InitializeLayer 0; RenderLayers 0; InitializeLayer 1; RenderLayers 1;
      InitializeLayer 0]].
Proof. by vm_compute. Qed.

(** ** The flag of the context, in every reachable state *)

Lemma same_context_refl (w : world) : same_context w w.
Proof. done. Qed.

Lemma same_context_trans (w1 w2 w3 : world) :
  same_context w1 w2 -> same_context w2 w3 -> same_context w1 w3.
Proof. unfold same_context. congruence. Qed.

Lemma preserves_modify (R : world -> world -> Prop) (f : world -> world) :
  (forall w, R w (f w)) -> preserves R (modify f).
Proof. intros H w. apply H. Qed.

Ltac context_side :=
  try solve [apply same_context_refl | apply same_context_trans].

Ltac context_step :=
  first
    [ progress intros
    | progress cbv zeta
    | apply (preserves_modify same_context); intros; reflexivity
    | apply (preserves_ret same_context); context_side
    | apply (preserves_throw same_context); context_side
    | apply (preserves_gets same_context); context_side
    | apply (preserves_assert same_context); context_side
    | apply (preserves_complete same_context); context_side
    | apply (preserves_try_catch same_context); context_side
    | apply (preserves_for_of same_context); context_side
    | apply (preserves_bind same_context); context_side
    | match goal with
      | |- preserves _ (if ?b then _ else _) => destruct b
      | |- preserves _ (match ?x with _ => _ end) => destruct x
      end ].

Lemma context_initializeNewLayer (r : ref) :
  preserves same_context (_initializeNewLayer r).
Proof.
  unfold _initializeNewLayer, call_initializeLayer, setLayer, setStateObj,
    getLayer, emit.
  repeat context_step.
Qed.

Lemma context_transferLayerState (o n : ref) :
  preserves same_context (_transferLayerState o n).
Proof.
  unfold _transferLayerState, setLayer, setStateObj, getLayer.
  repeat context_step.
Qed.

Lemma context_updateLayers (newLayers : layerArray) :
  preserves same_context (updateLayers newLayers).
Proof.
  unfold updateLayers, _updateLayers, _matchLayers, _finalizeOldLayers,
    _updateMatchedLayers, _initializeNewLayers, _updateLayer, _finalizeLayer,
    call_updateLayer, call_finalizeLayer, set_this, setLayer, getLayer, emit.
  repeat first
    [ apply context_initializeNewLayer
    | apply (preserves_matching same_context);
        [ apply same_context_refl | apply same_context_trans
        | intros; by apply preserves_modify
        | intros; by apply preserves_modify
        | apply context_transferLayerState
        | apply context_initializeNewLayer
        | intros; by apply preserves_modify ]
    | context_step ].
Qed.

Lemma context_needsRedraw (clearRedrawFlags : bool) :
  preserves same_context (needsRedraw clearRedrawFlags).
Proof.
  unfold needsRedraw, call_getNeedsRedraw, set_drewLayers, set_this, setLayer,
    getLayer, emit.
  repeat context_step.
Qed.

(** From construction on, the flag is up after every operation. *)
Lemma flag_always_set (objects : list layer) (ops : list operation) :
  flag (foldl (fun w o => perform o w) (initial objects) ops) = true.
Proof.
  assert (forall w, flag w = true ->
            flag (foldl (fun w o => perform o w) w ops) = true) as G.
  { induction ops as [|o ops IH]; intros w Hw; [done|]. simpl. apply IH.
    destruct o as [p|ls|b]; simpl.
    - by apply setContext_keeps_flag.
    - pose proof (context_updateLayers ls w) as H.
      unfold flag, exec. by rewrite H.
    - pose proof (context_needsRedraw b w) as H.
      unfold flag, exec. by rewrite H. }
  by apply G.
Qed.

Lemma needsRedraw_always_true
  (objects : list layer) (ops : list operation) (clearRedrawFlags : bool) :
  fst (needsRedraw clearRedrawFlags
         (foldl (fun w o => perform o w) (initial objects) ops)) = Ok true.
Proof. apply needsRedraw_when_flag_set, flag_always_set. Qed.

(** C4.  In whatever state the manager is after construction and any
    operations, and so also when the forest has just gone from non-empty
    and drawn to empty, a check by [needsRedraw] answers [true] and the
    check after it, with nothing changed in between, answers [true] again:
    no second check ever answers [false]. *)
Theorem needsRedraw_stays_true_after_emptying
  (objects : list layer) (ops : list operation) (clearRedrawFlags : bool) :
  fst (needsRedraw clearRedrawFlags
         (foldl (fun w o => perform o w) (initial objects) ops)) = Ok true /\
  fst (needsRedraw clearRedrawFlags
         (exec (needsRedraw clearRedrawFlags)
            (foldl (fun w o => perform o w) (initial objects) ops))) = Ok true.
Proof.
  split; [apply needsRedraw_always_true|].
  pose proof (needsRedraw_always_true objects
                (ops ++ [NeedsRedraw clearRedrawFlags]) clearRedrawFlags) as H.
  rewrite foldl_app in H. exact H.
Qed.

(** The run of the example above: the forest goes from one drawn layer to
    empty, and both checks that follow answer [true]. *)
Example emptied_forest_run :
  layers (this (foldl (fun w o => perform o w) (initial [fresh "a" quiet])
                  [SetContext camera; UpdateLayers (leaves [0]);
                   NeedsRedraw true; UpdateLayers ANil])) = [] /\
  drewLayers (this (foldl (fun w o => perform o w) (initial [fresh "a" quiet])
                      [SetContext camera; UpdateLayers (leaves [0]);
                       NeedsRedraw true; UpdateLayers ANil])) = true.
Proof. by vm_compute. Qed.

(** * Further properties of the code *)

(** ** [setContext] *)

Lemma strict_neq_false (a b : num) : strict_neq a b = false -> a = b.
Proof.
  destruct a as [x|], b as [y|]; simpl; try done.
  intros H. apply negb_false_iff, Z.eqb_eq in H. by subst.
Qed.

Lemma strict_neq_refl (a : num) : is_finite a = true -> strict_neq a a = false.
Proof. destruct a; [|done]. intros _. simpl. by rewrite Z.eqb_refl. Qed.

Lemma cameraChanged_NaN (p : cameraParams) (v : Viewport) :
  finite p = false -> cameraChanged p v = true.
Proof.
  unfold finite, cameraChanged. intros H.
  destruct p as [[] [] [] [] [] [] [] []]; simpl in *; try done;
    repeat (rewrite ?orb_true_r, ?orb_true_l; simpl); try done.
Qed.

(** What one call does: it builds a viewport from its arguments, or it finds
    the viewport of the context unchanged and does nothing. *)
Lemma setContext_run (w : world) (p : cameraParams) :
  (viewport (context (this (exec (setContext p) w))) =
     Some {| params := p; tileSize := 512 |} /\
   oldContext (this (exec (setContext p) w)) = Some (context (this w))) \/
  (exists v,
     viewport (context (this w)) = Some v /\ cameraChanged p v = false /\
     setContext p w = (Ok tt, w)).
Proof.
  unfold setContext. js_unfold.
  destruct (viewport (context (this w))) as [v|] eqn:Ev; simpl.
  - rewrite orb_false_r. destruct (cameraChanged p v) eqn:Ec; simpl.
    + by left.
    + right. by exists v.
  - by left.
Qed.

(** X2.  When a viewport built from the parameters [p] gives back [p], field
    by field, a second [setContext] call with the same parameters changes
    nothing at all: not the viewport, not the uniforms, and not the old
    context, which stays the snapshot taken by an earlier call. *)
Theorem setContext_again_is_a_no_op (w : world) (p : cameraParams) :
  cameraChanged p {| params := p; tileSize := 512 |} = false ->
  setContext p (exec (setContext p) w) = (Ok tt, exec (setContext p) w).
Proof.
  intros Hp.
  destruct (setContext_run w p) as [[Hv _]|(v & Hv & Hc & E)].
  - generalize dependent (exec (setContext p) w). intros u Hv.
    unfold setContext, bind, gets, ret. cbv beta zeta. rewrite Hv.
    by rewrite Hp.
  - unfold exec. rewrite E. simpl. exact E.
Qed.

(** X3.  When a camera parameter is NaN, every [setContext] call finds the
    camera changed, also a call that repeats the parameters of the call
    before: it builds the viewport anew and overwrites the old context with
    the context as it was before the call. *)
Theorem setContext_with_NaN_always_updates (w : world) (p : cameraParams) :
  finite p = false ->
  oldContext (this (exec (setContext p) w)) = Some (context (this w)) /\
  viewport (context (this (exec (setContext p) w))) =
    Some {| params := p; tileSize := 512 |}.
Proof.
  intros Hp. unfold setContext. js_unfold.
  destruct (viewport (context (this w))) as [v|] eqn:Ev; simpl; [|done].
  by rewrite (cameraChanged_NaN p v Hp).
Qed.

(** ** [needsRedraw] *)

Lemma needsRedraw_unfold (clearRedrawFlags : bool) :
  needsRedraw clearRedrawFlags =
  (m <- gets this ;;
   let redraw := false in
   let redraw :=
     if Nat.eqb (length (layers m)) 0 && drewLayers m then true else redraw in
   let redraw := if viewportChanged (context m) then true else redraw in
   set_drewLayers false ;;;
   for_of (layers m) (redraw_step clearRedrawFlags) redraw).
Proof. reflexivity. Qed.

Lemma redraw_step_run (clear : bool) (l : ref) (redraw : bool) (w : world) :
  exists b w',
    redraw_step clear l redraw w = (Ok b, w') /\
    (redraw = true -> b = true /\ calls w' = calls w /\ heap w' = heap w) /\
    drewLayers (this w') = true /\
    layers (this w') = layers (this w) /\
    context (this w') = context (this w) /\
    oldContext (this w') = oldContext (this w).
Proof.
  unfold redraw_step, call_getNeedsRedraw. js_unfold.
  destruct redraw; simpl; [by eexists _, _|].
  destruct clear; simpl; eexists _, _; split; try reflexivity; by simpl.
Qed.

Lemma redraw_loop_presence (clear : bool) (ls : list ref) (redraw : bool)
  (w : world) :
  exists b w',
    for_of ls (redraw_step clear) redraw w = (Ok b, w') /\
    drewLayers (this w') =
      (if Nat.eqb (length ls) 0 then drewLayers (this w) else true) /\
    layers (this w') = layers (this w) /\
    context (this w') = context (this w) /\
    oldContext (this w') = oldContext (this w).
Proof.
  revert redraw w. induction ls as [|l ls IH]; intros redraw w; simpl.
  - by exists redraw, w.
  - destruct (redraw_step_run clear l redraw w)
      as (b1 & w1 & E1 & _ & Hd1 & Hl1 & Hc1 & Ho1).
    destruct (IH b1 w1) as (b & w' & E & Hd & Hl & Hc & Ho).
    exists b, w'. unfold bind. rewrite E1, E. split; [done|].
    split_and!; try congruence.
    rewrite Hd, Hd1. by destruct (length ls =? 0)%nat.
Qed.

(** X4.  [needsRedraw] never throws and leaves the forest and the contexts
    as they are; afterwards [drewLayers] tells whether the live forest has
    any layer, whatever the answer was. *)
Theorem needsRedraw_records_presence (w : world) (clearRedrawFlags : bool) :
  (exists answer, fst (needsRedraw clearRedrawFlags w) = Ok answer) /\
  drewLayers (this (exec (needsRedraw clearRedrawFlags) w)) =
    negb (Nat.eqb (length (layers (this w))) 0) /\
  layers (this (exec (needsRedraw clearRedrawFlags) w)) = layers (this w) /\
  context (this (exec (needsRedraw clearRedrawFlags) w)) = context (this w) /\
  oldContext (this (exec (needsRedraw clearRedrawFlags) w)) = oldContext (this w).
Proof.
  rewrite needsRedraw_unfold. unfold exec, bind, gets, set_drewLayers,
    set_this, modify. cbv beta zeta.
  match goal with |- context [for_of ?ls ?f ?r ?u] =>
    destruct (redraw_loop_presence clearRedrawFlags ls r u)
      as (b & w' & E & Hd & Hl & Hc & Ho) end.
  rewrite !E. simpl in *. split_and!; try done.
  all: try (by exists b).
  all: rewrite Hd; by destruct (length (layers (this w)) =? 0)%nat.
Qed.

Lemma redraw_loop_forced (clear : bool) (ls : list ref) (w : world) :
  exists w',
    for_of ls (redraw_step clear) true w = (Ok true, w') /\
    calls w' = calls w /\ heap w' = heap w.
Proof.
  revert w. induction ls as [|l ls IH]; intros w; simpl.
  - by exists w.
  - destruct (redraw_step_run clear l true w) as (b1 & w1 & E1 & H1 & _).
    destruct (H1 eq_refl) as (-> & Hc1 & Hh1).
    destruct (IH w1) as (w' & E & Hc & Hh).
    exists w'. unfold bind. rewrite E1, E. split_and!; congruence.
Qed.

(** X5.  While the [viewportChanged] flag of the context is set,
    [needsRedraw] answers [true] without asking any layer: no
    [getNeedsRedraw] is called and no layer is touched, so that no redraw
    flag of a layer is cleared even when clearing was asked for. *)
Theorem forced_redraw_asks_no_layer (w : world) (clearRedrawFlags : bool) :
  viewportChanged (context (this w)) = true ->
  fst (needsRedraw clearRedrawFlags w) = Ok true /\
  calls (exec (needsRedraw clearRedrawFlags) w) = calls w /\
  heap (exec (needsRedraw clearRedrawFlags) w) = heap w.
Proof.
  intros Hf. rewrite needsRedraw_unfold. unfold exec, bind, gets,
    set_drewLayers, set_this, modify. cbv beta zeta. rewrite Hf.
  match goal with |- context [for_of ?ls ?f true ?u] =>
    destruct (redraw_loop_forced clearRedrawFlags ls u)
      as (w' & E & Hc & Hh) end.
  by rewrite !E.
Qed.

Lemma forced_redraw_asks_no_layer_witness :
  fst (needsRedraw true flagged_frame) = Ok true /\
  calls (exec (needsRedraw true) flagged_frame) = calls flagged_frame /\
  heap (exec (needsRedraw true) flagged_frame) = heap flagged_frame.
Proof. by apply forced_redraw_asks_no_layer. Defined.

(** ** The generated forest, whatever happens during matching *)

Lemma visit_generated (w : world) (obj : ref) :
  (exists e w', visit obj w = (Throw e, w') /\
                generatedLayers w' = generatedLayers w /\
                heap w' = heap w /\ nextState w' = nextState w) \/
  (exists w', visit obj w = (Ok tt, w') /\
              generatedLayers w' = generatedLayers w ++ [obj]).
Proof.
  destruct (visit_cases w obj)
    as [(msg & -> & _)|
        [(o & s & w' & _ & _ & _ & -> & _ & _ & _ & _ & _ & Hg & _)|
         (_ & w' & -> & _ & _ & _ & _ & _ & _ & Hg)]].
  - left. by eexists _, _.
  - right. by exists w'.
  - right. by exists w'.
Qed.

Lemma matching_generates_sublist :
  (forall l w, exists t,
     generatedLayers (snd (_matchSublayer l w)) = generatedLayers w ++ t /\
     t `sublist_of` flattenLayer l) /\
  (forall render w, exists t,
     generatedLayers (snd (matchRendered render w)) = generatedLayers w ++ t /\
     t `sublist_of` flattenRendered render) /\
  (forall ls e w, exists t,
     generatedLayers (snd (_matchSublayers ls e w)) = generatedLayers w ++ t /\
     t `sublist_of` flatten ls).
Proof.
  apply forest_mutind.
  - intros obj render IH w. rewrite matchSublayer_visit. simpl flattenLayer.
    unfold bind.
    destruct (visit_generated w obj)
      as [(e & w' & -> & Hg & _)|(w' & -> & Hg)]; simpl.
    + exists []. rewrite app_nil_r. split; [done|]. apply sublist_nil_l.
    + destruct (IH w') as (t & Ht & Hs). exists (obj :: t). split.
      * rewrite Ht, Hg. by rewrite <- app_assoc.
      * by apply sublist_skip.
  - intros err w. exists []. simpl. by rewrite app_nil_r.
  - intros w. exists []. simpl. by rewrite app_nil_r.
  - intros sub IH w. simpl. destruct (IH w) as (t & Ht & Hs). exists t.
    split; [|done]. revert Ht. unfold bind, try_catch, ret.
    by destruct (_matchSublayer sub w) as [[[]|err] w1].
  - intros subs IH w. simpl. destruct (IH Null w) as (t & Ht & Hs). exists t.
    split; [|done]. revert Ht. unfold bind, ret.
    by destruct (_matchSublayers subs Null w) as [[e|err] w1].
  - intros e w. exists []. simpl. by rewrite app_nil_r.
  - intros rest IH e w. simpl. apply IH.
  - intros l IHl rest IHrest e w. simpl.
    destruct (IHl w) as (t1 & Ht1 & Hs1).
    unfold bind, try_catch, ret.
    destruct (_matchSublayer l w) as [[[]|err] w1]; simpl in *.
    + destruct (IHrest e w1) as (t2 & Ht2 & Hs2). exists (t1 ++ t2). split.
      * rewrite Ht2, Ht1. by rewrite <- app_assoc.
      * by apply sublist_app.
    + destruct (IHrest (js_or e err) w1) as (t2 & Ht2 & Hs2).
      exists (t1 ++ t2). split.
      * rewrite Ht2, Ht1. by rewrite <- app_assoc.
      * by apply sublist_app.
Qed.

Lemma matchLayers_generates_sublist
  (olds : list ref) (newLayers : layerArray) (w : world) :
  exists e g w1,
    _matchLayers olds newLayers w = (Ok (e, g), w1) /\
    generatedLayers w1 = g /\ g `sublist_of` flatten newLayers.
Proof.
  destruct (matchLayers_run (fun r => id (heap w r)) olds newLayers w)
    as (e & w1 & Ms & Ml); [done|].
  exists e, (generatedLayers w1), w1. split_and!; try done.
  destruct matching_generates_sublist as (_ & _ & H).
  match type of Ms with _matchSublayers _ _ ?u = _ =>
    destruct (H newLayers Null u) as (t & Ht & Hs) end.
  rewrite Ms in Ht. simpl in Ht. by rewrite Ht.
Qed.


(** ** The lifecycle phases as a whole *)

(** X7.  The update phase calls [updateLayer] on the layers of the generated
    forest that hold [oldProps], in their order, up to and including the
    first one whose callback raises a truthy value, and on no layer after
    it; it changes nothing else, never throws, and returns a truthy error
    exactly when such a callback was met. *)
Theorem update_phase_stops_at_first_failure (w : world) (ls : list ref) :
  exists e,
    _updateMatchedLayers ls w =
      (Ok e,
       with_calls
         (calls w ++
          map UpdateLayer
            (up_to_failure (update_fails w) (List.filter (has_oldProps w) ls)))
         w) /\
    Boolean e = existsb (update_fails w) (List.filter (has_oldProps w) ls).
Proof. by apply update_loop. Qed.

Lemma up_to_failure_subset (fails : ref -> bool) (ls : list ref) (r : ref) :
  r ∈ up_to_failure fails ls -> r ∈ ls.
Proof.
  induction ls as [|l ls IH]; simpl; [done|].
  destruct (fails l).
  - intros H. apply list_elem_of_singleton in H as ->. by left.
  - intros H. apply elem_of_cons in H as [->|H]; [by left|right; by apply IH].
Qed.

Lemma filter_subset (f : ref -> bool) (ls : list ref) (r : ref) :
  r ∈ List.filter f ls -> r ∈ ls.
Proof.
  rewrite !list_elem_of_In. intros H. by apply filter_In in H as [H _].
Qed.

Lemma filter_agree (f g : ref -> bool) (ls : list ref) :
  (forall r, r ∈ ls -> f r = g r) -> List.filter f ls = List.filter g ls.
Proof.
  intros H. apply filter_ext_in. intros r Hr. apply H.
  by apply list_elem_of_In.
Qed.

Lemma up_to_failure_agree (f g : ref -> bool) (ls : list ref) :
  (forall r, r ∈ ls -> f r = g r) -> up_to_failure f ls = up_to_failure g ls.
Proof.
  induction ls as [|l ls IH]; intros H; simpl; [done|].
  rewrite <- (H l) by by left. destruct (f l); [done|].
  f_equal. apply IH. intros r Hr. apply H. by right.
Qed.

Lemma existsb_agree (f g : ref -> bool) (ls : list ref) :
  (forall r, r ∈ ls -> f r = g r) -> existsb f ls = existsb g ls.
Proof.
  induction ls as [|l ls IH]; intros H; simpl; [done|].
  rewrite (H l) by by left. f_equal. apply IH. intros r Hr. apply H. by right.
Qed.

Lemma finalizeLayer_run (w : world) (layer : ref) :
  exists e w',
    _finalizeLayer layer w = (Ok e, w') /\
    calls w' =
      calls w ++ (if has_state w layer then [FinalizeLayer layer] else []) /\
    state (heap w' layer) = None /\
    (forall r, r <> layer -> heap w' r = heap w r) /\
    (has_state w layer = false -> w' = w) /\
    Boolean e = has_state w layer && finalize_fails w layer.
Proof.
  unfold _finalizeLayer, call_finalizeLayer, has_state, finalize_fails.
  js_unfold. destruct (state (heap w layer)) eqn:Es; simpl.
  - destruct (finalizeLayer (methods (heap w layer))) as [|x]; simpl;
      eexists _, _; (split; [reflexivity|]); simpl;
      split_and!; try done; try (by upd_simpl);
      intros r Hr; by upd_simpl.
  - exists Null, w. rewrite app_nil_r. by rewrite Es.
Qed.

Lemma finalize_loop (ls : list ref) (acc : value) (w : world) :
  NoDup ls -> Boolean acc = false ->
  exists e w',
    for_of ls
      (fun layer (error : value) =>
         if Boolean error then ret error else _finalizeLayer layer) acc w =
      (Ok e, w') /\
    calls w' =
      calls w ++
      map FinalizeLayer
        (up_to_failure (finalize_fails w) (List.filter (has_state w) ls)) /\
    (forall o,
       o ∈ up_to_failure (finalize_fails w) (List.filter (has_state w) ls) ->
       state (heap w' o) = None) /\
    (forall r,
       r ∉ up_to_failure (finalize_fails w) (List.filter (has_state w) ls) ->
       heap w' r = heap w r) /\
    Boolean e = existsb (finalize_fails w) (List.filter (has_state w) ls).
Proof.
  revert acc w. induction ls as [|l ls IH]; intros acc w Hnd Hacc.
  { exists acc, w. simpl. rewrite app_nil_r. split_and!; try done.
    intros o Ho. by apply elem_of_nil in Ho. }
  apply NoDup_cons in Hnd as [Hl Hnd].
  simpl for_of. unfold bind at 1. rewrite Hacc.
  destruct (finalizeLayer_run w l)
    as (e1 & w1 & -> & Hc1 & Hs1 & Hf1 & Hw1 & He1).
  assert (forall r, r ∈ ls -> has_state w1 r = has_state w r) as Hsame.
  { intros r Hr. unfold has_state. rewrite Hf1; [done|]. by intros ->. }
  assert (forall r, r ∈ List.filter (has_state w) ls ->
                    finalize_fails w1 r = finalize_fails w r) as Hsame'.
  { intros r Hr. apply filter_subset in Hr. unfold finalize_fails.
    rewrite Hf1; [done|]. by intros ->. }
  simpl List.filter.
  destruct (has_state w l) eqn:Hst; simpl in He1.
  - simpl up_to_failure. simpl existsb.
    destruct (finalize_fails w l) eqn:Hfl; simpl in He1.
    + rewrite loop_keeps_error by done. exists e1, w1.
      split_and!; try done.
      * intros o Ho. by apply list_elem_of_singleton in Ho as ->.
      * intros r Hr. apply Hf1. intros ->. apply Hr. by left.
    + destruct (IH e1 w1 Hnd He1) as (e & w' & -> & Hc & Hs & Hf & He).
      rewrite (filter_agree _ _ ls Hsame) in Hc, Hs, Hf, He.
      rewrite (up_to_failure_agree _ _ _ Hsame') in Hc, Hs, Hf.
      rewrite (existsb_agree _ _ _ Hsame') in He.
      exists e, w'. split_and!; try done.
      * rewrite Hc, Hc1. simpl. by rewrite <- app_assoc.
      * intros o Ho. apply elem_of_cons in Ho as [->|Ho]; [|by apply Hs].
        rewrite Hf; [done|]. intros Hin.
        by apply up_to_failure_subset, filter_subset in Hin.
      * intros r Hr. apply not_elem_of_cons in Hr as [Hne Hr].
        rewrite Hf by done. by apply Hf1.
  - destruct (IH e1 w1 Hnd He1) as (e & w' & -> & Hc & Hs & Hf & He).
    rewrite (filter_agree _ _ ls Hsame) in Hc, Hs, Hf, He.
    rewrite (up_to_failure_agree _ _ _ Hsame') in Hc, Hs, Hf.
    rewrite (existsb_agree _ _ _ Hsame') in He.
    exists e, w'. split_and!; try done.
    + rewrite Hc, Hc1. by rewrite app_nil_r.
    + intros r Hr. rewrite Hf by done. by rewrite (Hw1 eq_refl).
Qed.

(** X8.  The finalize phase calls [finalizeLayer] on the old layers that
    hold state, in their order, up to and including the first one whose
    callback raises a truthy value; it clears the state of exactly the
    layers it called, leaves every other layer as it was (an old layer after
    the failing one keeps its state), and returns a truthy error exactly
    when such a callback was met. *)
Theorem finalize_phase_stops_at_first_failure (w : world) (olds : list ref) :
  NoDup olds ->
  exists e w',
    _finalizeOldLayers olds w = (Ok e, w') /\
    calls w' =
      calls w ++
      map FinalizeLayer
        (up_to_failure (finalize_fails w) (List.filter (has_state w) olds)) /\
    (forall o,
       o ∈ up_to_failure (finalize_fails w) (List.filter (has_state w) olds) ->
       state (heap w' o) = None) /\
    (forall r,
       r ∉ up_to_failure (finalize_fails w) (List.filter (has_state w) olds) ->
       heap w' r = heap w r) /\
    Boolean e = existsb (finalize_fails w) (List.filter (has_state w) olds).
Proof. intros Hnd. by apply finalize_loop. Qed.

Lemma finalize_phase_stops_at_first_failure_witness :
  exists e w',
    _finalizeOldLayers [0; 1; 2; 3] abxy_first_frame = (Ok e, w') /\
    calls w' =
      calls abxy_first_frame ++
      map FinalizeLayer
        (up_to_failure (finalize_fails abxy_first_frame)
           (List.filter (has_state abxy_first_frame) [0; 1; 2; 3])) /\
    (forall o,
       o ∈ up_to_failure (finalize_fails abxy_first_frame)
             (List.filter (has_state abxy_first_frame) [0; 1; 2; 3]) ->
       state (heap w' o) = None) /\
    (forall r,
       r ∉ up_to_failure (finalize_fails abxy_first_frame)
             (List.filter (has_state abxy_first_frame) [0; 1; 2; 3]) ->
       heap w' r = heap abxy_first_frame r) /\
    Boolean e =
      existsb (finalize_fails abxy_first_frame)
        (List.filter (has_state abxy_first_frame) [0; 1; 2; 3]).
Proof.
  apply finalize_phase_stops_at_first_failure.
  apply (bool_decide_unpack _). by vm_compute.
Defined.

Example finalize_phase_on_abxy :
  up_to_failure (finalize_fails abxy_first_frame)
    (List.filter (has_state abxy_first_frame) [0; 1; 2; 3]) = [0].
Proof. by vm_compute. Qed.

Lemma initialize_loop (ls : list ref) (acc : value) (w : world) :
  NoDup ls ->
  exists e w',
    for_of ls
      (fun layer (error : value) =>
         layerError <- _initializeNewLayer layer ;;
         ret (js_or error layerError)) acc w = (Ok e, w') /\
    calls w' =
      calls w ++ map InitializeLayer (List.filter (lacks_state w) ls) /\
    (forall r, r ∉ ls -> heap w' r = heap w r) /\
    Boolean e =
      Boolean acc ||
      existsb (initialize_fails w) (List.filter (lacks_state w) ls).
Proof.
  revert acc w. induction ls as [|l ls IH]; intros acc w Hnd.
  { exists acc, w. simpl. rewrite app_nil_r, orb_false_r. by split_and!. }
  apply NoDup_cons in Hnd as [Hl Hnd].
  simpl for_of. unfold bind at 1. unfold bind at 1.
  destruct (initializeNewLayer_run w l)
    as (e1 & w1 & -> & Hc1 & Hf1 & _ & _ & He1).
  unfold ret at 1.
  destruct (IH (js_or acc e1) w1 Hnd) as (e & w' & -> & Hc & Hf & He).
  assert (forall r, r ∈ ls -> lacks_state w1 r = lacks_state w r) as Hsame.
  { intros r Hr. unfold lacks_state, has_state. rewrite Hf1; [done|].
    by intros ->. }
  assert (forall r, r ∈ List.filter (lacks_state w) ls ->
                    initialize_fails w1 r = initialize_fails w r) as Hsame'.
  { intros r Hr. apply filter_subset in Hr. unfold initialize_fails.
    rewrite Hf1; [done|]. by intros ->. }
  rewrite (filter_agree _ _ ls Hsame) in Hc, He.
  rewrite (existsb_agree _ _ _ Hsame') in He.
  exists e, w'. split; [done|]. split_and!.
  - rewrite Hc, Hc1. simpl. destruct (lacks_state w l); simpl;
      by rewrite <- app_assoc.
  - intros r Hr. apply not_elem_of_cons in Hr as [Hne Hr].
    rewrite Hf by done. by apply Hf1.
  - rewrite He. unfold js_or. simpl List.filter.
    destruct (Boolean acc) eqn:Ha; rewrite ?Ha; simpl; [done|].
    rewrite He1. destruct (lacks_state w l); simpl; [done|].
    by destruct (existsb _ _).
Qed.



Example initialize_phase_on_stubborn :
  List.filter (lacks_state (initial stubborn_objects)) [0; 1; 2] = [0; 1; 2].
Proof. by vm_compute. Qed.

(** ** The map of old layers *)

(** X10.  The map that [_matchLayers] builds is a plain object: under a name
    that every object inherits, such as [constructor] or [toString], a lookup
    finds the inherited property and no old layer is ever filed; under any
    other id it finds the first layer of the live forest that bears the id,
    so that when two old layers have one id, the later one is not on offer
    to the new forest. *)
Theorem old_layers_are_filed_first_come
  (w : world) (oldLayers : list ref) (k : string) :
  get (oldLayerMap (exec (_matchLayers oldLayers ANil) w)) k =
  if inherited k then Inherited
  else match head (List.filter (fun o => bool_decide (id (heap w o) = k))
                     oldLayers) with
       | Some o => LayerValue o
       | None => Undefined
       end.
Proof.
  destruct (matchLayers_run (fun r => id (heap w r)) oldLayers ANil w)
    as (e & w1 & Ms & Ml); [done|].
  unfold exec. rewrite Ml. simpl in Ms. injection Ms as _ <-. simpl.
  destruct (old_map_lookup (fun r => id (heap w r)) oldLayers k) as [Hi Hk].
  unfold get. rewrite Hk, Hi. simpl.
  destruct (inherited k); [done|]. by destruct (head _).
Qed.

Example old_layers_filed :
  map (get (oldLayerMap
              (exec (_matchLayers [0; 1; 2; 3] ANil)
                 (initial [fresh "a" quiet; fresh "constructor" quiet;
                           fresh "a" quiet; fresh "b" quiet]))))
      ["a"; "b"; "c"; "constructor"; "toString"] =
    [LayerValue 0; LayerValue 3; Undefined; Inherited; Inherited].
Proof. by vm_compute. Qed.

(** ** What a pass leaves alone *)

Lemma same_this_refl (w : world) : same_this w w.
Proof. done. Qed.

Lemma same_this_trans (w1 w2 w3 : world) :
  same_this w1 w2 -> same_this w2 w3 -> same_this w1 w3.
Proof. unfold same_this. congruence. Qed.

Ltac this_side :=
  try solve [apply same_this_refl | apply same_this_trans].

Ltac this_step :=
  first
    [ progress intros
    | progress cbv zeta
    | apply (preserves_modify same_this); intros; reflexivity
    | apply (preserves_ret same_this); this_side
    | apply (preserves_throw same_this); this_side
    | apply (preserves_gets same_this); this_side
    | apply (preserves_assert same_this); this_side
    | apply (preserves_complete same_this); this_side
    | apply (preserves_try_catch same_this); this_side
    | apply (preserves_for_of same_this); this_side
    | apply (preserves_bind same_this); this_side
    | match goal with
      | |- preserves _ (if ?b then _ else _) => destruct b
      | |- preserves _ (match ?x with _ => _ end) => destruct x
      end ].

Lemma this_initializeNewLayer (r : ref) :
  preserves same_this (_initializeNewLayer r).
Proof.
  unfold _initializeNewLayer, call_initializeLayer, setLayer, setStateObj,
    getLayer, emit.
  repeat this_step.
Qed.

Lemma this_transferLayerState (o n : ref) :
  preserves same_this (_transferLayerState o n).
Proof.
  unfold _transferLayerState, setLayer, setStateObj, getLayer.
  repeat this_step.
Qed.

Lemma this_updateLayers_phases (olds : list ref) (newLayers : layerArray) :
  preserves same_this (_updateLayers olds newLayers).
Proof.
  unfold _updateLayers, _matchLayers, _finalizeOldLayers,
    _updateMatchedLayers, _initializeNewLayers, _updateLayer, _finalizeLayer,
    call_updateLayer, call_finalizeLayer, setLayer, getLayer, emit.
  repeat first
    [ apply this_initializeNewLayer
    | apply (preserves_matching same_this);
        [ apply same_this_refl | apply same_this_trans
        | intros; by apply preserves_modify
        | intros; by apply preserves_modify
        | apply this_transferLayerState
        | apply this_initializeNewLayer
        | intros; by apply preserves_modify ]
    | this_step ].
Qed.

(** X11.  Of the manager's own fields, [updateLayers] assigns [prevLayers],
    which becomes the forest that was live, and [layers]; [drewLayers] and
    the two contexts are as before, whether the call returns or throws. *)
Theorem updateLayers_keeps_the_previous_forest
  (w : world) (newLayers : layerArray) :
  this (exec (updateLayers newLayers) w) =
  {| prevLayers := layers (this w);
     layers := layers (this (exec (updateLayers newLayers) w));
     drewLayers := drewLayers (this w);
     oldContext := oldContext (this w);
     context := context (this w) |}.
Proof.
  destruct (updateLayers_phases w newLayers)
    as (e & e2 & e3 & e4 & g & w1 & w2 & w3 & w4 & M1 & M2 & M3 & M4 & U).
  unfold exec. rewrite U. simpl.
  pose proof (this_updateLayers_phases (layers (this w)) newLayers
                (begin_pass w)) as H.
  unfold _updateLayers in H. unfold bind in H.
  rewrite M1, M2, M3, M4 in H. simpl in H. unfold same_this in H.
  by rewrite H.
Qed.

(** ** Old layers after a pass *)

Lemma same_layers_modify (f : world -> world) :
  (forall w, heap (f w) = heap w) -> preserves same_layers (modify f).
Proof. intros H w r. simpl. by rewrite H. Qed.

Lemma same_layers_transferLayerState (o n : ref) :
  preserves same_layers (_transferLayerState o n).
Proof.
  intros w.
  destruct (state (heap w o)) as [s|] eqn:Hs.
  - destruct (decide (o = n)) as [->|Hne].
    + destruct (transfer_fails w n n) as [msg ->]; [by right|done].
    + destruct (transfer_run w o n s Hs Hne)
        as (w' & -> & Hn & Ho & Hr & _). simpl. intros r.
      destruct (decide (r = o)) as [->|N1]; [by rewrite Ho|].
      destruct (decide (r = n)) as [->|N2]; [by rewrite Hn|].
      by rewrite Hr.
  - destruct (transfer_fails w o n) as [msg ->]; [by left|done].
Qed.

Lemma same_layers_initializeNewLayer (r : ref) :
  preserves same_layers (_initializeNewLayer r).
Proof.
  intros w. destruct (initialize_run w r) as (e & w' & -> & _ & H & _).
  exact H.
Qed.

Lemma same_layers_matchLayers (olds : list ref) (ls : layerArray) :
  preserves same_layers (_matchLayers olds ls).
Proof.
  unfold _matchLayers.
  apply preserves_bind; [apply same_layers_trans|by apply same_layers_modify|].
  intros _.
  apply preserves_bind; [apply same_layers_trans| |intros _].
  { apply preserves_for_of;
      [apply same_layers_refl|apply same_layers_trans|intros x []].
    apply preserves_bind;
      [apply same_layers_trans|apply preserves_gets, same_layers_refl|].
    intros l.
    apply preserves_bind;
      [apply same_layers_trans|apply preserves_gets, same_layers_refl|].
    intros m. destruct (truthy _).
    - apply preserves_ret, same_layers_refl.
    - by apply same_layers_modify. }
  apply preserves_bind; [apply same_layers_trans|by apply same_layers_modify|].
  intros _.
  apply preserves_bind; [apply same_layers_trans| |intros e].
  { apply (preserves_matching same_layers).
    - apply same_layers_refl.
    - apply same_layers_trans.
    - intros g. by apply same_layers_modify.
    - intros g. by apply same_layers_modify.
    - apply same_layers_transferLayerState.
    - apply same_layers_initializeNewLayer.
    - intros r. by apply same_layers_modify. }
  apply preserves_bind;
    [apply same_layers_trans|apply preserves_gets, same_layers_refl|].
  intros g. apply preserves_ret, same_layers_refl.
Qed.

Lemma same_layers_finalizeLayer (l : ref) :
  preserves same_layers (_finalizeLayer l).
Proof.
  intros w. unfold _finalizeLayer, call_finalizeLayer. js_unfold.
  destruct (state (heap w l)); simpl; [|done].
  destruct (finalizeLayer (methods (heap w l))); simpl; intros r;
    unfold upd; simpl;
    by destruct (r =? l)%nat eqn:E; [apply Nat.eqb_eq in E as ->|].
Qed.

Lemma finalize_loop_keeps_cleared (xs : list ref) (acc : value) (u : world)
  (l : ref) :
  state (heap u l) = None ->
  state (heap (snd (for_of xs
    (fun layer (error : value) =>
       if Boolean error then ret error else _finalizeLayer layer) acc u)) l)
  = None.
Proof.
  revert acc u. induction xs as [|x xs IHx]; intros acc u Hu; [done|].
  simpl. unfold bind. destruct (Boolean acc).
  - simpl. by apply IHx.
  - pose proof (only_cleared_finalizeLayer [x] x ltac:(by left) u) as [_ Hx].
    destruct (finalizeLayer_run u x) as (ex & ux & Ex & _).
    rewrite Ex in Hx |- *. simpl in Hx. apply IHx.
    by destruct (Hx l) as [->|[_ ?]].
Qed.

Lemma finalize_loop_clears_all (ls : list ref) (acc : value) (w : world) :
  Boolean acc = false ->
  (forall o, o ∈ ls -> finalize_fails w o = false) ->
  forall o, o ∈ ls ->
    state (heap (snd (for_of ls
      (fun layer (error : value) =>
         if Boolean error then ret error else _finalizeLayer layer) acc w)) o)
    = None.
Proof.
  revert acc w. induction ls as [|l ls IH]; intros acc w Hacc Hok o Hin.
  { by apply elem_of_nil in Hin. }
  simpl for_of. unfold bind at 1. rewrite Hacc.
  pose proof (same_layers_finalizeLayer l w) as Hsame.
  destruct (finalizeLayer_run w l)
    as (e1 & w1 & E1 & Hc1 & Hs1 & Hf1 & Hw1 & He1).
  rewrite E1 in Hsame |- *. simpl in Hsame.
  rewrite (Hok l) in He1 by by left. rewrite andb_false_r in He1.
  assert (forall o, o ∈ ls -> finalize_fails w1 o = false) as Hok1.
  { intros r Hr. unfold finalize_fails. destruct (Hsame r) as (_ & _ & ->).
    apply Hok. by right. }
  destruct (decide (o ∈ ls)) as [Hin'|Hnin].
  - by apply (IH e1 w1 He1 Hok1).
  - apply elem_of_cons in Hin as [->|Hin]; [|done].
    by apply finalize_loop_keeps_cleared.
Qed.



(** ** The live forest from frame to frame *)

(** One visit keeps what [gives_state] says. *)
Lemma visit_gives_state (olds news : list ref) (obj : ref) (u : world) :
  (forall n, n ∈ news -> n ∉ olds) -> obj ∈ news ->
  gives_state olds news u -> gives_state olds news (snd (visit obj u)).
Proof.
  intros Hfresh Hobj (Hmap & Hgen & Hst & Hmake).
  destruct (visit_cases u obj)
    as [(msg & -> & _)|
        [(o & s & u' & Hm & Hs & Hne & -> & Ho' & Ho & Hfr & _ & Hmap' & Hg & _)|
         (_ & u' & -> & _ & Hfr & Hs & _ & Hsame & Hmap' & Hg)]]; simpl.
  - split_and!; try done. intros k o Hk. simpl in Hk.
    apply assign_null_layer in Hk as [_ Hk]. by eapply Hmap.
  - assert (o ∈ olds) as Hold by (apply get_layer in Hm; by eapply Hmap).
    assert (forall m, m ∈ news -> m <> o) as Hno.
    { intros m Hin ->. by apply (Hfresh o). }
    split_and!.
    + intros k o' Hk. rewrite Hmap' in Hk.
      apply assign_null_layer in Hk as [_ Hk]. by eapply Hmap.
    + intros m Hin. rewrite Hg in Hin.
      apply elem_of_app in Hin as [Hin|Hin]; [by apply Hgen|].
      by apply list_elem_of_singleton in Hin as ->.
    + intros m Hin. rewrite Hg in Hin.
      destruct (decide (m = obj)) as [->|Hmo]; [by rewrite Ho'|].
      apply elem_of_app in Hin as [Hin|Hin];
        [|by apply list_elem_of_singleton in Hin].
      rewrite Hfr; [by apply Hst|by apply Hno, Hgen|done].
    + intros m Hin. destruct (decide (m = obj)) as [->|Hmo].
      * left. by rewrite Ho'.
      * rewrite Hfr; [by apply Hmake|by apply Hno|done].
  - assert (state (heap u' obj) <> None) as Hobj'.
    { rewrite Hs. destruct (Hmake obj Hobj) as [H|H].
      - by destruct (state (heap u obj)).
      - destruct (state (heap u obj)); [done|].
        by destruct (initializeLayer_creates (methods (heap u obj))). }
    split_and!.
    + intros k o' Hk. rewrite Hmap' in Hk.
      apply assign_null_layer in Hk as [_ Hk]. by eapply Hmap.
    + intros m Hin. rewrite Hg in Hin.
      apply elem_of_app in Hin as [Hin|Hin]; [by apply Hgen|].
      by apply list_elem_of_singleton in Hin as ->.
    + intros m Hin. rewrite Hg in Hin.
      destruct (decide (m = obj)) as [->|Hmo]; [done|].
      apply elem_of_app in Hin as [Hin|Hin];
        [|by apply list_elem_of_singleton in Hin].
      rewrite Hfr by done. by apply Hst.
    + intros m Hin. destruct (decide (m = obj)) as [->|Hmo]; [by left|].
      rewrite Hfr by done. by apply Hmake.
Qed.



(** ** A new forest that shares no id with the old one *)

Lemma visits_unmatched (name : ref -> string) (news objs : list ref)
  (w : world) :
  named name w -> ready news w -> (forall n, n ∈ objs -> n ∈ news) ->
  NoDup objs ->
  (forall n o, n ∈ objs -> own (oldLayerMap w) !! name n <> Some (Some o)) ->
  (forall n, n ∈ objs ->
     state (heap w n) = None /\ oldProps (heap w n) = None /\
     initializeLayer_creates (methods (heap w n)) <> None) ->
  calls (visits objs w) =
    calls w ++ flat_map (fun n => [InitializeLayer n; RenderLayers n]) objs /\
  (forall n, n ∈ objs ->
     state (heap (visits objs w) n) <> None /\
     oldProps (heap (visits objs w) n) = None) /\
  (forall r, r ∉ objs -> heap (visits objs w) r = heap w r).
Proof.
  revert w. induction objs as [|obj objs IH];
    intros w Hn Hr Hsub Hnd Hslot Hnew.
  { simpl. rewrite app_nil_r. split_and!; try done.
    intros n Hin. by apply elem_of_nil in Hin. }
  apply NoDup_cons in Hnd as [Hobj Hnd].
  rewrite visits_cons.
  destruct (visit_step name news w obj Hn Hr)
    as (w1 & E & Hn1 & Hr1 & Hs1 & _ & _ & Hm1 & _).
  { apply Hsub. by left. }
  destruct (visit_unmatched_run w obj) as (w1' & E' & Hc & Hfr & Hst & Hop).
  { rewrite Hn. destruct Hr as [Hplain _]. rewrite get_plain.
    - destruct (own (oldLayerMap w) !! name obj) as [[o|]|] eqn:Ho; try done.
      exfalso. apply (Hslot obj o); [by left|done].
    - rewrite <- Hn. apply Hplain, Hsub. by left. }
  rewrite E in E'. injection E' as <-.
  unfold exec. rewrite E. simpl snd.
  destruct (Hnew obj) as (Hs0 & Hp0 & Hc0); [by left|].
  destruct (IH w1 Hn1 Hr1) as (Hcalls & Hafter & Hframe); try done.
  { intros n Hin. apply Hsub. by right. }
  { intros n o Hin. rewrite Hm1.
    destruct (decide (name obj = name n)) as [Heq|Hne].
    - rewrite Heq. by rewrite lookup_insert_eq.
    - rewrite lookup_insert_ne by done. apply Hslot. by right. }
  { intros n Hin. assert (n <> obj) as Hne by (intros ->; done).
    rewrite Hfr by done. apply Hnew. by right. }
  split_and!.
  - rewrite Hcalls, Hc. unfold lacks_state, has_state. rewrite Hs0. simpl.
    by rewrite <- app_assoc.
  - intros n Hin. apply elem_of_cons in Hin as [->|Hin]; [|by apply Hafter].
    rewrite Hframe by done. rewrite Hst, Hop, Hs0. split; [|done].
    by destruct (initializeLayer_creates (methods (heap w obj))).
  - intros r Hr'. apply not_elem_of_cons in Hr' as [Hne Hr'].
    rewrite Hframe by done. by apply Hfr.
Qed.



(** With a new layer whose id is [constructor] the lookup in the map of old
    layers finds the inherited property: the transfer is refused, and the
    layer is neither set up nor installed. *)
Example inherited_id_is_left_out :
  calls_of (updateLayers (leaves [0; 1]))
    (initial [fresh "constructor" quiet; fresh "b" quiet]) =
    [InitializeLayer 1; RenderLayers 1] /\
  layers (this (exec (updateLayers (leaves [0; 1]))
                  (initial [fresh "constructor" quiet; fresh "b" quiet]))) =
    [1] /\
  thrown (updateLayers (leaves [0; 1]))
    (initial [fresh "constructor" quiet; fresh "b" quiet]) =
    Some (ErrorObj "deck.gl sanity check - Matching layer has no state").
Proof. by vm_compute. Qed.

(** ** State objects and their back pointers, in every reachable state *)

Lemma keeps_consistent_refl (w : world) : keeps_consistent w w.
Proof. by intros H. Qed.

Lemma keeps_consistent_trans (w1 w2 w3 : world) :
  keeps_consistent w1 w2 -> keeps_consistent w2 w3 -> keeps_consistent w1 w3.
Proof. unfold keeps_consistent. tauto. Qed.

Lemma keeps_consistent_frame (f : world -> world) :
  (forall w,
     states (f w) = states w /\ nextState (f w) = nextState w /\
     forall r, state (heap (f w) r) = state (heap w r)) ->
  preserves keeps_consistent (modify f).
Proof.
  intros H w [[Hso Hal] Hl]. simpl. destruct (H w) as (Es & En & Eh).
  split; [split|].
  - intros r1 r2 s. rewrite !Eh. apply Hso.
  - intros r s. rewrite Eh, En. apply Hal.
  - intros r s. rewrite Eh, Es. apply Hl.
Qed.

Lemma keeps_consistent_clear (layer : ref) :
  preserves keeps_consistent (setLayer layer (layer_set_state None)).
Proof.
  intros w [[Hso Hal] Hl]. unfold setLayer, modify. simpl.
  split; [split|].
  - intros r1 r2 s. simpl. unfold upd.
    destruct (r1 =? layer)%nat; [done|].
    destruct (r2 =? layer)%nat; [done|]. apply Hso.
  - intros r s. simpl. unfold upd.
    destruct (r =? layer)%nat; [done|]. apply Hal.
  - intros r s. simpl. unfold upd.
    destruct (r =? layer)%nat; [done|]. apply Hl.
Qed.

Lemma consistent_transferLayerState (o n : ref) :
  preserves keeps_consistent (_transferLayerState o n).
Proof.
  intros w [Hown Hl]. split; [by apply (owned_transferLayerState o n w)|].
  destruct Hown as [Hso Hal].
  destruct (state (heap w o)) as [s|] eqn:Hs.
  2:{ destruct (transfer_fails w o n) as [msg ->]; [by left|done]. }
  destruct (decide (o = n)) as [->|Hne].
  { destruct (transfer_fails w n n) as [msg ->]; [by right|done]. }
  unfold _transferLayerState. js_unfold. rewrite Hs. simpl.
  assert ((o =? n)%nat = false) as -> by by apply Nat.eqb_neq.
  simpl. intros r s'. simpl.
  destruct (decide (r = o)) as [->|Hro]; [by upd_simpl|].
  destruct (decide (r = n)) as [->|Hrn].
  - upd_simpl. simpl. intros [= <-]. upd_simpl. simpl. split; [done|].
    intros m. by destruct (state_model (states w s)); intros [= <-].
  - upd_simpl. intros G.
    assert (s' <> s) as Hss.
    { intros ->. apply Hro. by apply (Hso r o s). }
    upd_simpl. by apply Hl.
Qed.

Lemma consistent_initializeNewLayer (layer : ref) :
  preserves keeps_consistent (_initializeNewLayer layer).
Proof.
  intros w [Hown Hl]. split; [by apply (owned_initializeNewLayer layer w)|].
  destruct Hown as [Hso Hal].
  unfold _initializeNewLayer, call_initializeLayer. js_unfold.
  destruct (state (heap w layer)) as [s|] eqn:Es; simpl; [done|].
  destruct (initializeLayer_creates (methods (heap w layer))) as [b|] eqn:Ec;
    simpl; upd_simpl; simpl;
    destruct (initializeLayer (methods (heap w layer))) as [|err] eqn:Eo;
    simpl; upd_simpl; simpl; rewrite ?Es; simpl; try done.
  all: intros r s'; simpl;
    (destruct (decide (r = layer)) as [->|Hne];
     [ upd_simpl; simpl; intros [= <-]; upd_simpl; simpl;
       split; [done|]; intros m; by destruct b; intros [= <-]
     | upd_simpl; intros G;
       assert (s' <> nextState w) as Hss by (apply Hal in G; lia);
       upd_simpl; by apply Hl ]).
Qed.

Ltac consistent_side :=
  try solve [apply keeps_consistent_refl | apply keeps_consistent_trans].

Ltac frame_side :=
  intros ?; split_and!; try done;
  intros ?; simpl; unfold upd; try done;
  by destruct (_ =? _)%nat eqn:E; [apply Nat.eqb_eq in E as ->|].

Ltac consistent_step :=
  first
    [ progress intros
    | progress cbv zeta
    | apply consistent_initializeNewLayer
    | apply consistent_transferLayerState
    | apply keeps_consistent_clear
    | apply keeps_consistent_frame; frame_side
    | apply (preserves_ret keeps_consistent); consistent_side
    | apply (preserves_throw keeps_consistent); consistent_side
    | apply (preserves_gets keeps_consistent); consistent_side
    | apply (preserves_assert keeps_consistent); consistent_side
    | apply (preserves_complete keeps_consistent); consistent_side
    | apply (preserves_try_catch keeps_consistent); consistent_side
    | apply (preserves_for_of keeps_consistent); consistent_side
    | apply (preserves_bind keeps_consistent); consistent_side
    | match goal with
      | |- preserves _ (if ?b then _ else _) => destruct b
      | |- preserves _ (match ?x with _ => _ end) => destruct x
      end ].

Lemma consistent_updateLayers (newLayers : layerArray) :
  preserves keeps_consistent (updateLayers newLayers).
Proof.
  unfold updateLayers, _updateLayers, _matchLayers, _finalizeOldLayers,
    _updateMatchedLayers, _initializeNewLayers, _updateLayer, _finalizeLayer,
    call_updateLayer, call_finalizeLayer, set_this, getLayer, emit.
  repeat first
    [ apply (preserves_matching keeps_consistent);
        [ apply keeps_consistent_refl | apply keeps_consistent_trans
        | intros; apply keeps_consistent_frame; frame_side
        | intros; apply keeps_consistent_frame; frame_side
        | apply consistent_transferLayerState
        | apply consistent_initializeNewLayer
        | intros; apply keeps_consistent_frame; frame_side ]
    | consistent_step ].
Qed.

Lemma consistent_needsRedraw (clearRedrawFlags : bool) :
  preserves keeps_consistent (needsRedraw clearRedrawFlags).
Proof.
  unfold needsRedraw, call_getNeedsRedraw, set_drewLayers, set_this, setLayer,
    getLayer, emit.
  repeat consistent_step.
Qed.

Lemma consistent_setContext (p : cameraParams) :
  preserves keeps_consistent (setContext p).
Proof.
  unfold setContext, set_this. repeat consistent_step.
Qed.

Lemma initial_consistent (objects : list layer) :
  Forall (fun l => state l = None) objects -> consistent (initial objects).
Proof.
  intros H. split; [by apply initial_owned|].
  intros r s G. exfalso. simpl in G.
  destruct (nth_in_or_default r objects (fresh "" quiet)) as [Hin|E].
  - rewrite Forall_forall in H. apply list_elem_of_In in Hin.
    apply H in Hin. by rewrite Hin in G.
  - by rewrite E in G.
Qed.

Lemma run_consistent (objects : list layer) (ops : list operation) :
  Forall (fun l => state l = None) objects -> consistent (run objects ops).
Proof.
  intros H. unfold run.
  assert (forall w, consistent w ->
            consistent (foldl (fun w o => perform o w) w ops)) as G.
  { induction ops as [|o ops IH]; intros w Hw; [done|]. simpl. apply IH.
    destruct o as [p|newLayers|c]; simpl.
    - by apply (consistent_setContext p w).
    - by apply (consistent_updateLayers newLayers w).
    - by apply (consistent_needsRedraw c w). }
  by apply G, initial_consistent.
Qed.

(** X15.  Starting from the constructor with layer objects that hold no
    state, whatever the caller does and whatever the layers' callbacks
    raise, no state object is ever held by two layers. *)
Theorem state_is_never_shared (objects : list layer) (ops : list operation) :
  Forall (fun l => state l = None) objects ->
  sole_owner (run objects ops).
Proof. intros H. by destruct (run_consistent objects ops H) as [[? _] _]. Qed.


(** ** Drawing *)

Lemma draw_loop (drawLayer : ref -> Uniforms -> M unit) (u : Uniforms)
  (ls : list ref) (w0 w : world) :
  (forall l u, preserves same_layers (drawLayer l u)) ->
  same_layers w0 w ->
  for_of ls
    (fun layer (_ : unit) =>
       l <- getLayer layer ;;
       if visible (props l) then drawLayer layer u else ret tt) tt w =
  for_of (List.filter (is_visible w0) ls)
    (fun layer (_ : unit) => drawLayer layer u) tt w.
Proof.
  intros Hd. revert w. induction ls as [|l ls IH]; intros w Hs; [done|].
  simpl. unfold is_visible at 1.
  assert (visible (props (heap w l)) = visible (props (heap w0 l))) as Ev.
  { destruct (Hs l) as (_ & -> & _). done. }
  unfold bind at 1. unfold bind at 1. unfold getLayer, gets. cbv beta iota.
  rewrite Ev. destruct (visible (props (heap w0 l))).
  - simpl. unfold bind at 2. pose proof (Hd l u w) as H1.
    destruct (drawLayer l u w) as [[[]|e] w1]; simpl in H1; [|done].
    apply IH. by eapply same_layers_trans.
  - unfold ret at 1. by apply IH.
Qed.

Lemma drawLayers_run (drawLayer : ref -> Uniforms -> M unit) (w : world) :
  (forall l u, preserves same_layers (drawLayer l u)) ->
  drawLayers drawLayer w =
  for_of (List.filter (is_visible w) (layers (this w)))
    (fun layer (_ : unit) => drawLayer layer (uniforms (context (this w))))
    tt w.
Proof.
  intros Hd. unfold drawLayers. unfold bind at 1. unfold gets.
  cbv beta iota zeta. apply draw_loop; [done|apply same_layers_refl].
Qed.

(** X17.  [drawLayers] draws the visible layers of the installed forest, in
    the order of the forest and all with the uniforms of the context as it
    is when the pass starts; hidden layers are skipped. (Drawing a layer
    does not change the [props] of any layer.) *)
Theorem drawLayers_draws_the_visible_layers
  (drawLayer : ref -> Uniforms -> M unit) (w : world) :
  (forall l u, preserves same_layers (drawLayer l u)) ->
  drawLayers drawLayer w =
  for_of (List.filter (is_visible w) (layers (this w)))
    (fun layer (_ : unit) => drawLayer layer (uniforms (context (this w))))
    tt w.
Proof. apply drawLayers_run. Qed.

Lemma drawLayers_draws_the_visible_layers_witness :
  drawLayers draw_marking partly_hidden_frame =
  for_of (List.filter (is_visible partly_hidden_frame)
            (layers (this partly_hidden_frame)))
    (fun layer (_ : unit) =>
       draw_marking layer (uniforms (context (this partly_hidden_frame))))
    tt partly_hidden_frame.
Proof.
  apply (drawLayers_draws_the_visible_layers draw_marking).
  intros l u w r. unfold draw_marking, setLayer, modify, upd. simpl.
  by destruct (r =? l)%nat eqn:E; [apply Nat.eqb_eq in E as ->|].
Defined.

(** In that frame the layers a, c and d are drawn and the hidden layer b is
    passed over. *)
Example partly_hidden_frame_drawn :
  layers (this partly_hidden_frame) = [0; 1; 2; 3] /\
  map (is_visible partly_hidden_frame) [0; 1; 2; 3] =
    [true; false; true; true] /\
  map (fun r => needsRedrawFlag (heap partly_hidden_frame r)) [0; 1; 2; 3] =
    [false; false; false; false] /\
  map (fun r => needsRedrawFlag
                  (heap (exec (drawLayers draw_marking) partly_hidden_frame) r))
      [0; 1; 2; 3] = [true; false; true; true].
Proof. by vm_compute. Qed.

Example partly_hidden_frame_shows :
  List.filter (is_visible partly_hidden_frame)
    (layers (this partly_hidden_frame)) = [0; 2; 3].
Proof. reflexivity. Qed.

Lemma for_of_app {A S} (xs ys : list A) (body : A -> S -> M S) (acc : S)
  (w : world) :
  for_of (xs ++ ys) body acc w =
  (acc' <- for_of xs body acc ;; for_of ys body acc') w.
Proof.
  revert acc w. induction xs as [|x xs IH]; intros acc w; [done|].
  simpl. unfold bind at 1 2 3. destruct (body x acc w) as [[a|e] w1]; [|done].
  rewrite IH. by unfold bind.
Qed.

(** X18.  [drawLayers] isolates nothing: when the draw of a visible layer
    throws, the exception reaches the caller and the visible layers after it
    are not drawn in this pass. *)
Theorem failing_draw_ends_the_pass
  (drawLayer : ref -> Uniforms -> M unit) (w w1 w2 : world)
  (before after : list ref) (layer : ref) (e : value) :
  (forall l u, preserves same_layers (drawLayer l u)) ->
  List.filter (is_visible w) (layers (this w)) = before ++ layer :: after ->
  for_of before
    (fun l (_ : unit) => drawLayer l (uniforms (context (this w)))) tt w =
    (Ok tt, w1) ->
  drawLayer layer (uniforms (context (this w))) w1 = (Throw e, w2) ->
  drawLayers drawLayer w = (Throw e, w2).
Proof.
  intros Hd Hf Hb Hl. rewrite drawLayers_run by done.
  rewrite Hf, for_of_app. unfold bind at 1. rewrite Hb. simpl.
  unfold bind. by rewrite Hl.
Qed.

Lemma failing_draw_ends_the_pass_witness :
  drawLayers (draw_unless 2) partly_hidden_frame =
    (Throw boom, partly_hidden_frame).
Proof.
  apply (failing_draw_ends_the_pass (draw_unless 2) partly_hidden_frame
           partly_hidden_frame partly_hidden_frame [0] [3] 2 boom).
  - intros l u w. unfold draw_unless. destruct (l =? 2)%nat; intros r; done.
  - reflexivity.
  - reflexivity.
  - reflexivity.
Defined.

(** ** An id that comes twice in the new forest *)

Lemma same_oldProps_initializeNewLayers (ls : list ref) :
  preserves same_oldProps (_initializeNewLayers ls).
Proof.
  assert (forall w, same_oldProps w w) as Hrefl by done.
  assert (forall w1 w2 w3,
            same_oldProps w1 w2 -> same_oldProps w2 w3 -> same_oldProps w1 w3)
    as Htrans.
  { intros w1 w2 w3 H1 H2 r. by rewrite H2, H1. }
  apply preserves_for_of; try done. intros x e.
  apply preserves_bind; [done| |intros; by apply preserves_ret].
  intros w r.
  destruct (initialize_run w x) as (e' & w' & -> & Hr & _ & Hop & _). simpl.
  destruct (decide (r = x)) as [->|Hne]; [done|]. by rewrite Hr.
Qed.

Lemma not_of_kind (P : event -> Prop) (t : list event) (e : event) :
  Forall P t -> ~ P e -> e ∉ t.
Proof.
  intros H Hn Hin. apply Hn. rewrite list.Forall_forall in H. by apply H.
Qed.

Lemma twin_is_visited_unmatched (name : ref -> string)
  (news pre post : list ref) (n1 n2 : ref) (w : world) :
  named name w -> ready news w -> news = pre ++ n2 :: post ->
  n1 ∈ pre -> name n1 = name n2 -> n2 ∉ pre -> n2 ∉ post ->
  state (heap w n2) = None ->
  exists ta tp,
    calls (visits news w) =
      calls w ++ ta ++ [InitializeLayer n2; RenderLayers n2] ++ tp /\
    Forall matching_call ta /\ Forall matching_call tp /\
    oldProps (heap (visits news w) n2) = oldProps (heap w n2).
Proof.
  intros Hn Hr -> Hin Hid Hpre Hpost Hst.
  assert (forall n, n ∈ pre -> n ∈ pre ++ n2 :: post) as Sa.
  { intros n H. apply elem_of_app. by left. }
  assert (n2 ∈ pre ++ n2 :: post) as Sn.
  { apply elem_of_app. right. by left. }
  assert (forall n, n ∈ post -> n ∈ pre ++ n2 :: post) as Sp.
  { intros n H. apply elem_of_app. right. by right. }
  remember (pre ++ n2 :: post) as news eqn:Enews.
  assert (visits news w = visits post (exec (visit n2) (visits pre w))) as ->.
  { by rewrite Enews, visits_app, visits_cons. }
  (* the layers before the twin *)
  destruct (visits_ready name news pre w Hn Hr Sa) as [Hna Hra].
  destruct (visits_basic name news pre w Hn Hr Sa)
    as (_ & _ & _ & _ & (ta & Ea & Fa) & Hnull & _ & Hfa).
  assert (heap (visits pre w) n2 = heap w n2) as Ha.
  { apply Hfa; [done|]. intros n Hn' Hs. destruct Hr as [_ Hmap].
    destruct (Hmap _ _ Hs) as [Hk Hout].
    by destruct (Hout n2 Sn Hk) as [? _]. }
  (* the twin itself *)
  destruct (visit_step name news (visits pre w) n2 Hna Hra Sn)
    as (wb & Eb & Hnb & Hrb & _).
  destruct (visit_unmatched_run (visits pre w) n2)
    as (wb' & Eb' & Hcb & _ & _ & Hob).
  { destruct Hra as [Hplain _]. rewrite get_plain by by apply Hplain.
    rewrite Hna, <- Hid, Hnull; [done|].
    apply list_elem_of_fmap. by exists n1. }
  rewrite Eb in Eb'. injection Eb' as <-.
  replace (exec (visit n2) (visits pre w)) with wb
    by (unfold exec; by rewrite Eb).
  unfold lacks_state, has_state in Hcb. rewrite Ha, Hst in Hcb. simpl in Hcb.
  (* the layers after the twin *)
  destruct (visits_basic name news post wb Hnb Hrb Sp)
    as (_ & _ & _ & _ & (tp & Ep & Fp) & _ & _ & Hfp).
  assert (heap (visits post wb) n2 = heap wb n2) as Hp.
  { apply Hfp; [done|]. intros n Hn' Hs. destruct Hrb as [_ Hmap].
    destruct (Hmap _ _ Hs) as [Hk Hout].
    by destruct (Hout n2 Sn Hk) as [? _]. }
  exists ta, tp. split_and!; try done.
  - rewrite Ep, Hcb, Ea. by rewrite <- !app_assoc.
  - by rewrite Hp, Hob, Ha.
Qed.



(** When the first of the two is rendered by a parent whose id is
    [constructor], the parent fails the sanity check of the transfer before
    it renders, and neither sublayer is ever reached. *)
Example twin_below_an_inherited_id :
  calls_of
    (updateLayers
       (ALayer (leaf 1)
          (ALayer (NewLayer 2 (RenderArray (leaves [3; 4]))) ANil)))
    (initial [fresh "a" quiet; fresh "b" quiet; fresh "constructor" quiet;
              fresh "a" quiet; fresh "a" quiet]) =
    [InitializeLayer 1; RenderLayers 1].
Proof. by vm_compute. Qed.
End Manager.

(** ** Runs with a [Viewport] class at hand *)

Lemma setContext_again_is_a_no_op_witness :
  setContext stores_arguments camera
    (exec (setContext stores_arguments camera) (initial [])) =
  (Ok tt, exec (setContext stores_arguments camera) (initial [])).
Proof. by apply setContext_again_is_a_no_op. Defined.

(** With a class that stores a width of 0 as 1, a call that repeats a width
    of 0 finds the camera changed and takes the snapshot again. *)
Example setContext_again_with_width_0 :
  cameraChanged stores_positive_size flat_camera
    {| params := flat_camera; tileSize := 512 |} = true /\
  oldContext (this (exec (setContext stores_positive_size flat_camera)
                      (exec (setContext stores_positive_size flat_camera)
                         (initial [])))) =
    Some (context (this (exec (setContext stores_positive_size flat_camera)
                           (initial [])))).
Proof. by vm_compute. Qed.

Lemma setContext_with_NaN_always_updates_witness :
  oldContext (this (exec (setContext stores_arguments NaN_camera)
                      (exec (setContext stores_arguments NaN_camera)
                         (initial [])))) =
    Some (context (this (exec (setContext stores_arguments NaN_camera)
                           (initial [])))) /\
  viewport (context (this (exec (setContext stores_arguments NaN_camera)
                             (exec (setContext stores_arguments NaN_camera)
                                (initial []))))) =
    Some {| params := NaN_camera; tileSize := 512 |}.
Proof. by apply setContext_with_NaN_always_updates. Defined.

Lemma state_is_never_shared_witness :
  Forall (fun l => state l = None) xyz_objects /\
  sole_owner (run stores_arguments xyz_objects two_frames).
Proof.
  assert (Forall (fun l => state l = None) xyz_objects) as H
    by (by repeat constructor).
  split; [exact H|]. exact (state_is_never_shared stores_arguments xyz_objects two_frames H).
Defined.

